(** * sync-service: one-way folder synchronisation (source -> target)

    A shallow embedding of [internal/sync/sync.go] and
    [internal/sync/report.go].  The engine is stateful: it talks to the
    file system, to the logger and to its [Report].  The file system and
    the Go standard library calls the engine makes ([os.Stat],
    [os.MkdirAll], [filepath.WalkDir], ...) are modelled as operations of
    a small kernel over an explicit [World]; the functions of the
    repository ([addErr], [differ], [truncateToSeconds], [copyFile],
    [Sync]) are translated statement by statement on top of it. *)

From Stdlib Require Import ZArith Lia.
From stdpp Require Import base option list strings gmap fin_maps sorting.

Open Scope Z_scope.

(** ** Paths

    A cleaned path is the list of its components: ["/a/b/c"] is
    [["a"; "b"; "c"]].  [filepath.Join] of a cleaned path and a relative
    cleaned path is concatenation, [filepath.Dir] drops the last component
    and [filepath.Rel base p] strips [base] from the front of [p]. *)

Abbreviation path := (list string).

Definition Join (a b : path) : path := a ++ b.

Definition Dir (p : path) : path := removelast p.

Fixpoint strip_prefix (base p : path) : option path :=
  match base, p with
  | [], _ => Some p
  | b :: base', x :: p' => if decide (b = x) then strip_prefix base' p' else None
  | _ :: _, [] => None
  end.

(** [rel, _ := filepath.Rel(base, p)]: the error is dropped by the caller,
    and Go returns the empty string together with an error. *)
Definition Rel (base p : path) : path := default [] (strip_prefix base p).

(** [dstPath + ".tmp~"]: string concatenation appends the suffix to the
    last component. *)
Definition tmp_suffix : string := ".tmp~".

Fixpoint add_suffix (p : path) (suf : string) : path :=
  match p with
  | [] => [suf]
  | [x] => [(x +:+ suf)%string]
  | x :: p' => x :: add_suffix p' suf
  end.

Definition tmp_path (dst : path) : path := add_suffix dst tmp_suffix.

(** ** Time

    [time.Time] values are instants; an instant is its number of
    nanoseconds since Go's zero time.  [Time.Truncate d] rounds down to a
    multiple of [d] since the zero time and leaves [t] alone for [d <= 0];
    [Time.Equal] compares instants. *)

Abbreviation Time := Z.
Abbreviation Duration := Z.

Definition Nanosecond : Duration := 1.
Definition Second : Duration := 1000000000 * Nanosecond.

Definition Truncate (t : Time) (d : Duration) : Time :=
  if d <=? 0 then t else t - t mod d.

Definition Equal (t u : Time) : bool := t =? u.

(** [Time.IsZero]: the zero time, January 1 of year 1. *)
Definition IsZero (t : Time) : bool := t =? 0.

(** [Time.UnixNano]: the nanoseconds since January 1, 1970 as an [int64].
    Go computes them in [int64] arithmetic, which wraps around for an
    instant before 1677-09-21 or after 2262-04-11.  [time.Unix(0, ns)] is
    the way back. *)
Definition unix_epoch : Time := 62135596800 * Second.

Definition wrap_int64 (z : Z) : Z := (z + 2 ^ 63) mod 2 ^ 64 - 2 ^ 63.

Definition UnixNano (t : Time) : Z := wrap_int64 (t - unix_epoch).

Definition Unix (ns : Z) : Time := unix_epoch + ns.

(** ** File modes ([io/fs.FileMode], a 32-bit mask) *)

Abbreviation FileMode := Z.

Definition ModeDir : FileMode := Z.shiftl 1 31.
Definition ModeSymlink : FileMode := Z.shiftl 1 27.
Definition ModeDevice : FileMode := Z.shiftl 1 26.
Definition ModeNamedPipe : FileMode := Z.shiftl 1 25.
Definition ModeSocket : FileMode := Z.shiftl 1 24.
Definition ModeCharDevice : FileMode := Z.shiftl 1 21.
Definition ModeIrregular : FileMode := Z.shiftl 1 19.

Definition ModeType : FileMode :=
  Z.lor ModeDir (Z.lor ModeSymlink (Z.lor ModeNamedPipe
    (Z.lor ModeSocket (Z.lor ModeDevice (Z.lor ModeCharDevice ModeIrregular))))).

Definition ModePerm : FileMode := 511. (* 0o777 *)

Definition IsDir (m : FileMode) : bool := negb (Z.land m ModeDir =? 0).
Definition IsRegular (m : FileMode) : bool := Z.land m ModeType =? 0.
Definition Perm (m : FileMode) : FileMode := Z.land m ModePerm.

(** ** File metadata ([os.FileInfo]) *)

Record FileInfo := mkFileInfo {
  Size : Z;
  ModTime : Time;
  Mode : FileMode
}.

(** ** The change detector (sync.go, [truncateToSeconds] and [differ]) *)

Definition truncateToSeconds (t : Time) : Time := Truncate t Second.

Definition differ (src dst : FileInfo) : bool :=
  if negb (Size src =? Size dst) then true
  else negb (Equal (truncateToSeconds (ModTime src)) (truncateToSeconds (ModTime dst))).

(** ** Errors

    Go [error] values: the system calls fail with an [*fs.PathError] (or
    [*os.LinkError]) around an errno, and [fmt.Errorf] with [%w] wraps an
    error behind a format string and its other arguments. *)

Inductive Errno :=
| ENOENT | EEXIST | ENOTDIR | EISDIR | ENOTEMPTY | ENAMETOOLONG
| EACCES | EIO | ENOSPC | EBADF | EINVAL.

#[global] Instance Errno_eq_dec : EqDecision Errno.
Proof. solve_decision. Defined.

Inductive error :=
| PathError (op : string) (p : path) (e : Errno)
| LinkError (op : string) (old new : path) (e : Errno)
| Errorf (format : string) (args : list path) (wrapped : error).

#[global] Instance error_eq_dec : EqDecision error.
Proof. solve_decision. Defined.

(** [errors.Is(err, os.ErrNotExist)]: unwrap down to the errno, which
    matches [ErrNotExist] exactly when it is [ENOENT]. *)
Fixpoint Is_ErrNotExist (err : error) : bool :=
  match err with
  | PathError _ _ e => bool_decide (e = ENOENT)
  | LinkError _ _ _ e => bool_decide (e = ENOENT)
  | Errorf _ _ err' => Is_ErrNotExist err'
  end.

(** ** The report accumulator (report.go)

    The counters are Go [int]s; one run adds at most one to one counter
    per directory entry, so they are kept as unbounded integers. *)

Record Report := mkReport {
  Copied : Z;
  Overwritten : Z;
  Deleted : Z;
  Skipped : Z;
  Errors : list error
}.

(** [rep := &Report{}] *)
Definition empty_report : Report := mkReport 0 0 0 0 [].

(** [func (r *Report) addErr(err error)] *)
Definition addErr (err : option error) (r : Report) : Report :=
  match err with
  | Some e => mkReport (Copied r) (Overwritten r) (Deleted r) (Skipped r) (Errors r ++ [e])
  | None => r
  end.

(** [rep.Copied++] and its siblings. *)
Definition incCopied (r : Report) : Report :=
  mkReport (Copied r + 1) (Overwritten r) (Deleted r) (Skipped r) (Errors r).
Definition incOverwritten (r : Report) : Report :=
  mkReport (Copied r) (Overwritten r + 1) (Deleted r) (Skipped r) (Errors r).
Definition incDeleted (r : Report) : Report :=
  mkReport (Copied r) (Overwritten r) (Deleted r + 1) (Skipped r) (Errors r).
Definition incSkipped (r : Report) : Report :=
  mkReport (Copied r) (Overwritten r) (Deleted r) (Skipped r + 1) (Errors r).

(** ** The world: file system, fault script, clock, system-call trace, log *)

(** One node of the tree.  Directories carry [ModeDir] in their mode;
    anything else with a type bit is an irregular file (pipe, socket,
    device).  Symbolic links are not resolved by this model, so [os.Stat]
    and [os.Lstat] agree. *)
Record inode := mkInode {
  i_mode : FileMode;
  i_mtime : Time;
  i_data : list Byte.byte
}.

Abbreviation FS := (gmap path inode).

(** An injected failure of one system call: the errno it reports and, for
    a streaming copy, how many bytes went through before it struck. *)
Record fault := mkFault {
  f_errno : Errno;
  f_progress : nat
}.

(** System calls that change the tree, as they appear in the trace. *)
Inductive syscall :=
| SysMkdir (p : path)
| SysCreate (p : path)
| SysWrite (p : path)
| SysChtimes (p : path)
| SysRename (old new : path)
| SysRemove (p : path).

#[global] Instance syscall_eq_dec : EqDecision syscall.
Proof. solve_decision. Defined.

Record event := mkEvent {
  ev_call : syscall;
  ev_ok : bool
}.

#[global] Instance event_eq_dec : EqDecision event.
Proof. solve_decision. Defined.

(** A line handed to [opt.Logger.Printf]: the format string of the call
    and its arguments. *)
Inductive logarg :=
| APath (p : path)
| AErr (e : error)
| AMode (m : FileMode).

#[global] Instance logarg_eq_dec : EqDecision logarg.
Proof. solve_decision. Defined.

Record logline := mkLog {
  l_format : string;
  l_args : list logarg
}.

#[global] Instance logline_eq_dec : EqDecision logline.
Proof. solve_decision. Defined.

Record World := mkWorld {
  w_fs : FS;
  w_faults : list (option fault);
  w_now : Time;
  w_trace : list event;
  w_log : list logline
}.

Definition set_fs (f : FS) (w : World) : World :=
  mkWorld f (w_faults w) (w_now w) (w_trace w) (w_log w).

Definition set_faults (fl : list (option fault)) (w : World) : World :=
  mkWorld (w_fs w) fl (w_now w) (w_trace w) (w_log w).

Definition emit (c : syscall) (ok : bool) (w : World) : World :=
  mkWorld (w_fs w) (w_faults w) (w_now w) (w_trace w ++ [mkEvent c ok]) (w_log w).

(** Kernel limits.  A path of more than [path_max] components is refused
    with [ENAMETOOLONG], whatever the tree holds. *)
Class Limits := { path_max : nat }.

(** ** A state monad for the calls *)

Definition IO (A : Type) : Type := World → A * World.

Definition ret {A} (a : A) : IO A := λ w, (a, w).

Definition bind {A B} (m : IO A) (k : A → IO B) : IO B :=
  λ w, let '(a, w') := m w in k a w'.

Declare Scope io_scope.
Delimit Scope io_scope with io.
Notation "'let*' x ':=' m 'in' k" := (bind m (λ x, k))
  (at level 10, x pattern, m at level 100, k at level 200) : io_scope.
Notation "m ';;' k" := (bind m (λ _, k))
  (at level 100, k at level 200, right associativity) : io_scope.

Definition modify (f : World → World) : IO unit := λ w, (tt, f w).
Definition gets {A} (f : World → A) : IO A := λ w, (f w, w).

(** [opt.Logger.Printf(format, args...)] *)
Definition Printf (format : string) (args : list logarg) : IO unit :=
  modify (λ w, mkWorld (w_fs w) (w_faults w) (w_now w) (w_trace w)
                       (w_log w ++ [mkLog format args])).

(** [time.Now()] *)
Definition Now : IO Time := gets w_now.

(** ** The kernel: system calls over the tree *)

Section Kernel.
Context `{Limits}.
Local Open Scope io_scope.

Definition is_dir (i : inode) : bool := IsDir (i_mode i).

(** The strict ancestors of a path, root first. *)
Definition ancestors (p : path) : list path :=
  (λ k, take k p) <$> seq 0 (length p).

Definition hits_file (f : FS) (q : path) : bool :=
  match f !! q with
  | Some i => negb (is_dir i)
  | None => false
  end.

(** Path resolution: the node at [p], or the errno of the walk down to
    it ([ENOTDIR] when it crosses something that is not a directory). *)
Definition resolve (f : FS) (p : path) : Errno + inode :=
  match f !! p with
  | Some i => inr i
  | None => inl (if existsb (hits_file f) (ancestors p) then ENOTDIR else ENOENT)
  end.

(** The directory a new entry [p] goes into must resolve to a directory. *)
Definition parent_errno (f : FS) (p : path) : option Errno :=
  match p with
  | [] => None
  | _ =>
    match resolve f (Dir p) with
    | inl e => Some e
    | inr i => if is_dir i then None else Some ENOTDIR
    end
  end.

(** What every call does first: take the next entry of the fault script,
    then check the length of the path. *)
Definition pop_fault : IO (option fault) :=
  λ w, (default None (head (w_faults w)), set_faults (tail (w_faults w)) w).

Definition too_long (p : path) : bool := bool_decide (path_max < length p)%nat.

Definition enter (p : path) : IO (option Errno) :=
  let* f := pop_fault in
  match f with
  | Some ft => ret (Some (f_errno ft))
  | None => ret (if too_long p then Some ENAMETOOLONG else None)
  end.

Definition info_of (i : inode) : FileInfo :=
  mkFileInfo (Z.of_nat (length (i_data i))) (i_mtime i) (i_mode i).

(** [os.Lstat] and [os.Stat] *)
Definition stat_as (op : string) (p : path) : IO (error + FileInfo) :=
  let* e := enter p in
  match e with
  | Some e => ret (inl (PathError op p e))
  | None =>
    let* f := gets w_fs in
    match resolve f p with
    | inl e => ret (inl (PathError op p e))
    | inr i => ret (inr (info_of i))
    end
  end.

Definition Lstat : path → IO (error + FileInfo) := stat_as "lstat".
Definition Stat : path → IO (error + FileInfo) := stat_as "stat".

(** [os.Mkdir]; the root is always there. *)
Definition Mkdir (p : path) (perm : FileMode) : IO (option error) :=
  let* e := enter p in
  let* f := gets w_fs in
  let* now := Now in
  let r :=
    match e with
    | Some e => Some e
    | None =>
      match p, f !! p with
      | [], _ => Some EEXIST
      | _, Some _ => Some EEXIST
      | _, None => parent_errno f p
      end
    end in
  match r with
  | Some e => modify (emit (SysMkdir p) false) ;; ret (Some (PathError "mkdir" p e))
  | None =>
    modify (set_fs (<[p := mkInode (Z.lor ModeDir (Perm perm)) now []]> f)) ;;
    modify (emit (SysMkdir p) true) ;;
    ret None
  end.

(** [os.MkdirAll]: stop at once when [Stat] answers; otherwise make the
    parent chain (the root is never made) and then the directory itself,
    forgiving a failure when the directory turns out to be there. *)
Fixpoint MkdirAll_rec (n : nat) (p : path) (perm : FileMode) : IO (option error) :=
  let* st := Stat p in
  match st with
  | inr dir =>
    if IsDir (Mode dir) then ret None
    else ret (Some (PathError "mkdir" p ENOTDIR))
  | inl _ =>
    let* perr :=
      match n with
      | S n' => if bool_decide (1 < length p)%nat then MkdirAll_rec n' (Dir p) perm else ret None
      | O => ret None
      end in
    match perr with
    | Some err => ret (Some err)
    | None =>
      let* err := Mkdir p perm in
      match err with
      | None => ret None
      | Some err =>
        let* st1 := Lstat p in
        match st1 with
        | inr dir => if IsDir (Mode dir) then ret None else ret (Some err)
        | inl _ => ret (Some err)
        end
      end
    end
  end.

Definition MkdirAll (p : path) (perm : FileMode) : IO (option error) :=
  MkdirAll_rec (length p) p perm.

(** An open file is the path it was opened at: nothing renames or removes
    a file between its [Open] and its [Close]. *)
Abbreviation File := path.

(** [os.Open] *)
Definition Open (p : path) : IO (error + File) :=
  let* e := enter p in
  match e with
  | Some e => ret (inl (PathError "open" p e))
  | None =>
    let* f := gets w_fs in
    match resolve f p with
    | inl e => ret (inl (PathError "open" p e))
    | inr _ => ret (inr p)
    end
  end.

(** [os.OpenFile(p, O_CREATE|O_WRONLY|O_TRUNC, perm)] *)
Definition OpenFile_create_trunc (p : path) (perm : FileMode) : IO (error + File) :=
  let* e := enter p in
  let* f := gets w_fs in
  let* now := Now in
  let r : Errno + inode :=
    match e with
    | Some e => inl e
    | None =>
      match f !! p with
      | Some i => if is_dir i then inl EISDIR else inr (mkInode (i_mode i) now [])
      | None =>
        match parent_errno f p with
        | Some e => inl e
        | None => inr (mkInode (Perm perm) now [])
        end
      end
    end in
  match r with
  | inl e => modify (emit (SysCreate p) false) ;; ret (inl (PathError "open" p e))
  | inr i =>
    modify (set_fs (<[p := i]> f)) ;;
    modify (emit (SysCreate p) true) ;;
    ret (inr p)
  end.

(** Writing [data] over the contents of the open file [df]. *)
Definition write_data (df : File) (data : list Byte.byte) : IO unit :=
  let* f := gets w_fs in
  let* now := Now in
  match f !! df with
  | Some i => modify (set_fs (<[df := mkInode (i_mode i) now data]> f))
  | None => ret tt
  end.

(** [io.Copy(df, sf)]: stream the bytes of [sf] into [df].  A failure
    leaves the bytes that went through before it in [df].  The copy is
    made by [df.ReadFrom(sf)], which reports its failures, also that of
    reading a directory, as write errors of [df]. *)
Definition io_Copy (df sf : File) : IO (Z * option error) :=
  let* ft := pop_fault in
  let* f := gets w_fs in
  match f !! sf with
  | None =>
    modify (emit (SysWrite df) false) ;; ret (0, Some (PathError "read" sf EBADF))
  | Some i =>
    if is_dir i then
      modify (emit (SysWrite df) false) ;; ret (0, Some (PathError "write" df EISDIR))
    else
      match ft with
      | Some ft =>
        let part := take (f_progress ft) (i_data i) in
        write_data df part ;;
        modify (emit (SysWrite df) false) ;;
        ret (Z.of_nat (length part), Some (PathError "write" df (f_errno ft)))
      | None =>
        write_data df (i_data i) ;;
        modify (emit (SysWrite df) true) ;;
        ret (Z.of_nat (length (i_data i)), None)
      end
  end.

(** [Close] of an [os.File] *)
Definition Close (fl : File) : IO (option error) :=
  let* ft := pop_fault in
  match ft with
  | Some ft => ret (Some (PathError "close" fl (f_errno ft)))
  | None => ret None
  end.

(** The modification time a file has after [os.Chtimes] was asked for
    [mtime]: the call hands the kernel [mtime.UnixNano()], and leaves the
    time as it is ([old]) when [mtime] is the zero time. *)
Definition set_mtime (mtime old : Time) : Time :=
  if IsZero mtime then old else Unix (UnixNano mtime).

(** [os.Chtimes(p, atime, mtime)]; access times are not kept. *)
Definition Chtimes (p : path) (atime mtime : Time) : IO (option error) :=
  let* e := enter p in
  let* f := gets w_fs in
  let r : Errno + inode :=
    match e with
    | Some e => inl e
    | None =>
      match resolve f p with
      | inl e => inl e
      | inr i => inr (mkInode (i_mode i) (set_mtime mtime (i_mtime i)) (i_data i))
      end
    end in
  match r with
  | inl e => modify (emit (SysChtimes p) false) ;; ret (Some (PathError "chtimes" p e))
  | inr i =>
    modify (set_fs (<[p := i]> f)) ;;
    modify (emit (SysChtimes p) true) ;;
    ret None
  end.

(** The entries of directory [p]: the nodes exactly one component below. *)
Definition child_of (p q : path) : option string :=
  match strip_prefix p q with
  | Some [n] => Some n
  | _ => None
  end.

Definition entries (f : FS) (p : path) : list (string * inode) :=
  omap (λ qi, (λ n, (n, snd qi)) <$> child_of p (fst qi)) (map_to_list f).

(** [os.Rename(old, new)].  Go refuses a directory at [new] with [EEXIST]
    before it asks the kernel.  The engine renames nothing but the
    temporary file it has just written; a directory at [old] is outside
    the model and is answered with [EINVAL]. *)
Definition Rename (old new : path) : IO (option error) :=
  let* e := enter new in
  let* f := gets w_fs in
  let r : Errno + inode :=
    match e with
    | Some e => inl e
    | None =>
      if too_long old then inl ENAMETOOLONG else
      match resolve f old with
      | inl e => inl e
      | inr i =>
        if is_dir i then inl EINVAL else
        match f !! new with
        | Some j => if is_dir j then inl EEXIST else inr i
        | None =>
          match parent_errno f new with
          | Some e => inl e
          | None => inr i
          end
        end
      end
    end in
  match r with
  | inl e =>
    modify (emit (SysRename old new) false) ;; ret (Some (LinkError "rename" old new e))
  | inr i =>
    modify (set_fs (<[new := i]> (delete old f))) ;;
    modify (emit (SysRename old new) true) ;;
    ret None
  end.

(** [os.Remove]: unlink a file, or remove an empty directory. *)
Definition Remove (p : path) : IO (option error) :=
  let* e := enter p in
  let* f := gets w_fs in
  let r : option Errno :=
    match e with
    | Some e => Some e
    | None =>
      match resolve f p with
      | inl e => Some e
      | inr i =>
        if is_dir i then
          match entries f p with
          | [] => None
          | _ :: _ => Some ENOTEMPTY
          end
        else None
      end
    end in
  match r with
  | Some e => modify (emit (SysRemove p) false) ;; ret (Some (PathError "remove" p e))
  | None =>
    modify (set_fs (delete p f)) ;;
    modify (emit (SysRemove p) true) ;;
    ret None
  end.

(** ** Directory entries and the tree walk ([io/fs.DirEntry],
    [filepath.WalkDir]) *)

(** An entry either comes out of a directory listing, with its name and
    type bits, or is made from a [FileInfo] ([fs.FileInfoToDirEntry], used
    for the root of a walk), which it then keeps. *)
Record DirEntry := mkDirEntry {
  de_name : string;
  de_type : FileMode;
  de_info : option FileInfo
}.

Definition d_IsDir (d : DirEntry) : bool := IsDir (de_type d).

(** [d.Info()] for the entry found at [p]. *)
Definition d_Info (d : DirEntry) (p : path) : IO (error + FileInfo) :=
  match de_info d with
  | Some fi => ret (inr fi)
  | None => Lstat p
  end.

Definition FileInfoToDirEntry (p : path) (fi : FileInfo) : DirEntry :=
  mkDirEntry (List.last p ""%string) (Z.land (Mode fi) ModeType) (Some fi).

(** File names in byte order, the order [os.ReadDir] sorts by. *)
Definition name_le (a b : string) : Prop := Is_true (String.leb a b).

#[global] Instance name_le_dec a b : Decision (name_le a b).
Proof. unfold name_le. apply _. Defined.

Definition names (f : FS) (p : path) : list string := (entries f p).*1.

(** The entry a listing of [p] shows for the name [n]: the name and the
    type bits of the node. *)
Definition entry_at (f : FS) (p : path) (n : string) : DirEntry :=
  mkDirEntry n (Z.land (default 0 (i_mode <$> f !! Join p [n])) ModeType) None.

Definition listing (f : FS) (p : path) : list DirEntry :=
  entry_at f p <$> merge_sort name_le (names f p).

(** [os.ReadDir]: the entries sorted by file name.  On failure the model
    hands back no entry at all. *)
Definition ReadDir (p : path) : IO (list DirEntry * option error) :=
  let* e := enter p in
  let* f := gets w_fs in
  let r : option Errno :=
    match e with
    | Some e => Some e
    | None =>
      match resolve f p with
      | inl e => Some e
      | inr i => if is_dir i then None else Some ENOTDIR
      end
    end in
  match r with
  | Some e => ret ([], Some (PathError "open" p e))
  | None => ret (listing f p, None)
  end.

(** What a walk shows its callback at a path: an entry ([fn(path, d, nil)])
    or a failure ([fn(path, d, err)]; [d] is [nil] when the root itself
    could not be examined). *)
Inductive visit :=
| Entry (d : DirEntry)
| Failed (d : option DirEntry) (err : error).

(** The callback of a walk.  It closes over the report it fills, which is
    threaded through here.  The special return values [SkipDir] and
    [SkipAll] are left out: the callbacks of [Sync] return no error at all. *)
Definition WalkDirFunc : Type :=
  path → visit → Report → IO (option error * Report).

(** The outcome of a walk: [None] when the fuel of the model ran out. *)
Definition Walk : Type := Report → World → option (option error * Report * World).

Fixpoint walk_entries (step : DirEntry → Walk) (ds : list DirEntry) : Walk :=
  λ rep w,
  match ds with
  | [] => Some (None, rep, w)
  | d1 :: ds' =>
    match step d1 rep w with
    | None => None
    | Some (Some e, rep', w') => Some (Some e, rep', w')
    | Some (None, rep', w') => walk_entries step ds' rep' w'
    end
  end.

(** [filepath.walkDir] *)
Fixpoint walkDir (fuel : nat) (fn : WalkDirFunc) (p : path) (d : DirEntry) : Walk :=
  λ rep w,
  match fuel with
  | O => None
  | S fuel' =>
    let '((err, rep1), w1) := fn p (Entry d) rep w in
    match err with
    | Some e => Some (Some e, rep1, w1)
    | None =>
      if negb (d_IsDir d) then Some (None, rep1, w1) else
      let '((dirs, rerr), w2) := ReadDir p w1 in
      let '((err2, rep2), w3) :=
        match rerr with
        | Some e => fn p (Failed (Some d) e) rep1 w2
        | None => ((None, rep1), w2)
        end in
      match err2 with
      | Some e => Some (Some e, rep2, w3)
      | None =>
        walk_entries (λ d1, walkDir fuel' fn (Join p [de_name d1]) d1) dirs rep2 w3
      end
    end
  end.

(** [filepath.WalkDir] *)
Definition WalkDir (fuel : nat) (root : path) (fn : WalkDirFunc) : Walk :=
  λ rep w,
  let '(st, w1) := Lstat root w in
  match st with
  | inl err =>
    let '((e, rep1), w2) := fn root (Failed None err) rep w1 in
    Some (e, rep1, w2)
  | inr info => walkDir fuel fn root (FileInfoToDirEntry root info) rep w1
  end.

End Kernel.

(** ** The engine (sync.go) *)

(** [Options].  The logger of the options (or the default logger that
    [Sync] falls back on) is the log of the world. *)
Record Options := mkOptions {
  Source : path;
  Target : path;
  DeleteMissing : bool
}.

Section Engine.
Context `{Limits}.
Local Open Scope io_scope.

(** [func copyFile(srcPath, dstPath string, srcInfo os.FileInfo) error] *)
Definition copyFile (srcPath dstPath : path) (srcInfo : FileInfo) : IO (option error) :=
  let* err := MkdirAll (Dir dstPath) 493 (* 0o755 *) in
  match err with
  | Some err => ret (Some (Errorf "mkdir %s: %w" [Dir dstPath] err))
  | None =>
    let* sf := Open srcPath in
    match sf with
    | inl err => ret (Some (Errorf "open src: %w" [] err))
    | inr sf =>
      let* result :=
        let tmp := tmp_path dstPath in
        let* df := OpenFile_create_trunc tmp (Perm (Mode srcInfo)) in
        match df with
        | inl err => ret (Some (Errorf "open tmp: %w" [] err))
        | inr df =>
          let* cp := io_Copy df sf in
          let cErr := snd cp in
          let* cCloseErr := Close df in
          match cErr with
          | Some cErr => Remove tmp ;; ret (Some (Errorf "copy: %w" [] cErr))
          | None =>
            match cCloseErr with
            | Some cCloseErr => Remove tmp ;; ret (Some (Errorf "close tmp: %w" [] cCloseErr))
            | None =>
              let* now := Now in
              let* err := Chtimes tmp now (ModTime srcInfo) in
              match err with
              | Some err => Remove tmp ;; ret (Some (Errorf "chtimes: %w" [] err))
              | None =>
                let* err := Rename tmp dstPath in
                match err with
                | Some err => Remove tmp ;; ret (Some (Errorf "rename: %w" [] err))
                | None => ret None
                end
              end
            end
          end
        end in
      (* defer sf.Close() *)
      Close sf ;;
      ret result
    end
  end.

(** The callback of the walk over the source tree. *)
Definition mirror (opt : Options) : WalkDirFunc :=
  λ p v rep,
  match v with
  | Failed _ err =>
    Printf "ERR: odczyt %s: %v" [APath p; AErr err] ;;
    ret (None, addErr (Some err) rep)
  | Entry d =>
    if bool_decide (p = Source opt) then ret (None, rep) else
    let rel := Rel (Source opt) p in
    let targetPath := Join (Target opt) rel in
    if d_IsDir d then
      let* err := MkdirAll targetPath 493 (* 0o755 *) in
      match err with
      | Some err =>
        Printf "ERR: mkdir %s: %v" [APath targetPath; AErr err] ;;
        ret (None, addErr (Some err) rep)
      | None => ret (None, rep)
      end
    else
      let* info := d_Info d p in
      match info with
      | inl err =>
        Printf "ERR: info %s: %v" [APath p; AErr err] ;;
        ret (None, addErr (Some err) rep)
      | inr info =>
        if negb (IsRegular (Mode info)) then
          Printf "SKIP: nieregularny plik %s (mode=%v)" [APath p; AMode (Mode info)] ;;
          ret (None, incSkipped rep)
        else
          let* tst := Stat targetPath in
          match tst with
          | inl err =>
            if Is_ErrNotExist err then
              let* cerr := copyFile p targetPath info in
              match cerr with
              | Some err =>
                Printf "ERR: copy NEW %s -> %s: %v" [APath p; APath targetPath; AErr err] ;;
                ret (None, addErr (Some err) rep)
              | None =>
                Printf "COPY: %s -> %s" [APath p; APath targetPath] ;;
                ret (None, incCopied rep)
              end
            else
              Printf "ERR: stat %s: %v" [APath targetPath; AErr err] ;;
              ret (None, addErr (Some err) rep)
          | inr tst =>
            if differ info tst then
              let* cerr := copyFile p targetPath info in
              match cerr with
              | Some err =>
                Printf "ERR: overwrite %s -> %s: %v" [APath p; APath targetPath; AErr err] ;;
                ret (None, addErr (Some err) rep)
              | None =>
                Printf "OVERWRITE: %s -> %s" [APath p; APath targetPath] ;;
                ret (None, incOverwritten rep)
              end
            else
              Printf "SKIP: %s (identical)" [APath rel] ;;
              ret (None, incSkipped rep)
          end
      end
  end.

(** The callback of the walk over the target tree (delete pass). *)
Definition prune (opt : Options) : WalkDirFunc :=
  λ p v rep,
  match v with
  | Failed _ err =>
    Printf "ERR: odczyt %s: %v" [APath p; AErr err] ;;
    ret (None, addErr (Some err) rep)
  | Entry d =>
    if bool_decide (p = Target opt) then ret (None, rep) else
    let rel := Rel (Target opt) p in
    let srcPath := Join (Source opt) rel in
    if d_IsDir d then ret (None, rep) else
    let* st := Stat srcPath in
    match st with
    | inl err =>
      if Is_ErrNotExist err then
        let* rmErr := Remove p in
        match rmErr with
        | Some rmErr =>
          Printf "ERR: delete %s: %v" [APath p; AErr rmErr] ;;
          ret (None, addErr (Some rmErr) rep)
        | None =>
          Printf "DELETE: %s (missing in source)" [APath p] ;;
          ret (None, incDeleted rep)
        end
      else
        Printf "ERR: stat %s: %v" [APath srcPath; AErr err] ;;
        ret (None, addErr (Some err) rep)
    | inr _ => ret (None, rep)
    end
  end.

(** Fuel for one walk: no walk goes deeper than the kernel lets paths grow. *)
Definition walk_fuel : nat := S (S path_max).

(** What [Sync] does with the error a walk returns. *)
Definition after_walk (format : string) (root : path)
    (r : option error * Report * World) : Report * World :=
  match r with
  | (Some err, rep, w) =>
    let '(_, w') := Printf format [APath root; AErr err] w in
    (addErr (Some err) rep, w')
  | (None, rep, w) => (rep, w)
  end.

(** [func Sync(opt Options) *Report]; [None] when a walk ran out of fuel. *)
Definition Sync (opt : Options) (w : World) : option (Report * World) :=
  let rep := empty_report in
  match WalkDir walk_fuel (Source opt) (mirror opt) rep w with
  | None => None
  | Some r =>
    let '(rep, w) := after_walk "ERR: walk %s: %v" (Source opt) r in
    if DeleteMissing opt then
      match WalkDir walk_fuel (Target opt) (prune opt) rep w with
      | None => None
      | Some r => Some (after_walk "ERR: walk target %s: %v" (Target opt) r)
      end
    else Some (rep, w)
  end.

End Engine.

(** * Properties *)

(** ** The change detector *)

(** The words of the specification: a timestamp at whole-second
    resolution is the number of whole seconds that have gone by. *)
Definition whole_seconds (t : Time) : Z := t / 1000000000.

Lemma Truncate_Second (t : Time) : truncateToSeconds t = 1000000000 * whole_seconds t.
Proof.
  unfold truncateToSeconds, Truncate, Second, Nanosecond, whole_seconds.
  change (1000000000 * 1 <=? 0) with false. cbv iota.
  rewrite Z.mul_1_r. pose proof (Z.div_mod t 1000000000). lia.
Qed.

Lemma truncate_equal_iff (t u : Time) :
  Equal (truncateToSeconds t) (truncateToSeconds u) = true ↔
  whole_seconds t = whole_seconds u.
Proof.
  unfold Equal. rewrite !Truncate_Second, Z.eqb_eq. lia.
Qed.

(** C2.  The change detector answers "differs" as soon as the sizes
    differ; with equal sizes it answers "identical" exactly when the two
    modification times agree once truncated to whole seconds, and
    "differs" otherwise. *)
Theorem differ_size_then_seconds (S D : FileInfo) :
  differ S D =
    if bool_decide (Size S = Size D)
    then negb (bool_decide (whole_seconds (ModTime S) = whole_seconds (ModTime D)))
    else true.
Proof.
  unfold differ.
  destruct (Z.eqb_spec (Size S) (Size D)) as [Hs|Hs]; cbn [negb].
  - rewrite bool_decide_eq_true_2 by done. f_equal.
    destruct (Equal _ _) eqn:E.
    + apply truncate_equal_iff in E. by rewrite bool_decide_eq_true_2.
    + rewrite bool_decide_eq_false_2; [done|].
      intros Hw. apply truncate_equal_iff in Hw. congruence.
  - by rewrite bool_decide_eq_false_2.
Qed.

(** ** The report accumulator *)

(** One report extends another: no counter is lower and the errors of the
    first are a prefix of the errors of the second. *)
Definition report_le (r r' : Report) : Prop :=
  Copied r ≤ Copied r' ∧ Overwritten r ≤ Overwritten r' ∧
  Deleted r ≤ Deleted r' ∧ Skipped r ≤ Skipped r' ∧
  Errors r `prefix_of` Errors r'.

#[global] Instance report_le_refl : Reflexive report_le.
Proof. intros r. unfold report_le. repeat split; done. Qed.

#[global] Instance report_le_trans : Transitive report_le.
Proof.
  intros a b c (?&?&?&?&?) (?&?&?&?&?). unfold report_le.
  repeat split; try lia. by etrans.
Qed.

Lemma report_le_addErr e r : report_le r (addErr e r).
Proof.
  destruct e; cbn; [|reflexivity].
  unfold report_le; cbn. repeat split; try lia. by apply prefix_app_r.
Qed.

Lemma report_le_incCopied r : report_le r (incCopied r).
Proof. unfold report_le; cbn. repeat split; try lia; done. Qed.
Lemma report_le_incOverwritten r : report_le r (incOverwritten r).
Proof. unfold report_le; cbn. repeat split; try lia; done. Qed.
Lemma report_le_incDeleted r : report_le r (incDeleted r).
Proof. unfold report_le; cbn. repeat split; try lia; done. Qed.
Lemma report_le_incSkipped r : report_le r (incSkipped r).
Proof. unfold report_le; cbn. repeat split; try lia; done. Qed.

Create HintDb report.
#[global] Hint Resolve report_le_addErr report_le_incCopied report_le_incOverwritten
  report_le_incDeleted report_le_incSkipped : report.

(** Outcomes of the visit of one file, and what each does to the report. *)
Inductive outcome :=
| OutCopied
| OutOverwritten
| OutSkipped
| OutDeleted
| OutError (e : error).

Definition record (o : outcome) (r : Report) : Report :=
  match o with
  | OutCopied => incCopied r
  | OutOverwritten => incOverwritten r
  | OutSkipped => incSkipped r
  | OutDeleted => incDeleted r
  | OutError e => addErr (Some e) r
  end.

(** The outcomes open to the forward pass and to the delete pass. *)
Definition forward_outcome (o : outcome) : Prop :=
  match o with
  | OutDeleted => False
  | _ => True
  end.

Definition delete_outcome (o : outcome) : Prop :=
  match o with
  | OutDeleted | OutError _ => True
  | _ => False
  end.

Lemma record_inj o o' r : record o r = record o' r → o = o'.
Proof.
  destruct o, o'; cbn; intros Heq; inversion Heq; try done; try lia.
  all: try (match goal with
            | H : ?l = ?l ++ [_] |- _ =>
              apply (f_equal length) in H; rewrite length_app in H; cbn in H; lia
            | H : ?l ++ [_] = ?l |- _ =>
              apply (f_equal length) in H; rewrite length_app in H; cbn in H; lia
            end).
  match goal with H : _ ++ _ = _ ++ _ |- _ => apply app_inv_head in H end.
  congruence.
Qed.

Lemma record_changes o r : record o r ≠ r.
Proof.
  destruct r as [c ov dl sk er]. destruct o; cbn; intros Heq; inversion Heq; try lia.
  match goal with
  | H : ?l ++ [_] = ?l |- _ =>
    apply (f_equal length) in H; rewrite length_app in H; cbn in H; lia
  end.
Qed.

Lemma report_le_record o r : report_le r (record o r).
Proof. destruct o; cbn [record]; auto with report. Qed.

(** ** The callbacks, one visit at a time *)

Section Visits.
Context `{Limits}.

(** Taking a callback apart: unfold the monad and split on every call. *)
Ltac io_unfold := unfold bind, ret, Printf, modify, gets in *.
Ltac io_cases := io_unfold; repeat (case_match; simplify_eq/=); io_unfold.

(** A visit of the forward pass never returns an error to the walk, and
    it leaves the report alone or records exactly one outcome. *)
Lemma mirror_result opt p v rep w :
  ∃ rep', fst (mirror opt p v rep w) = (None, rep') ∧
    (rep' = rep ∨ ∃ o, forward_outcome o ∧ rep' = record o rep).
Proof.
  unfold mirror. io_cases; cbn;
    try (eexists; split; [reflexivity|]; by left);
    try (eexists; split; [reflexivity|]; right;
         first [ by exists OutCopied | by exists OutOverwritten
               | by exists OutSkipped | by eexists (OutError _) ]).
Qed.

Lemma mirror_file_outcome opt p d rep w :
  p ≠ Source opt → d_IsDir d = false →
  ∃ o, forward_outcome o ∧ fst (mirror opt p (Entry d) rep w) = (None, record o rep).
Proof.
  intros Hp Hd. unfold mirror. rewrite bool_decide_eq_false_2 by done. rewrite Hd.
  io_cases; cbn;
    first [ by exists OutCopied | by exists OutOverwritten
          | by exists OutSkipped | by eexists (OutError _) ].
Qed.

Lemma prune_result opt p v rep w :
  ∃ rep', fst (prune opt p v rep w) = (None, rep') ∧
    (rep' = rep ∨ ∃ o, delete_outcome o ∧ rep' = record o rep).
Proof.
  unfold prune. io_cases; cbn;
    try (eexists; split; [reflexivity|]; by left);
    try (eexists; split; [reflexivity|]; right;
         first [ by exists OutDeleted | by eexists (OutError _) ]).
Qed.

Lemma prune_file_outcome opt p d rep w :
  p ≠ Target opt → d_IsDir d = false →
  match fst (Stat (Join (Source opt) (Rel (Target opt) p)) w) with
  | inr _ => fst (prune opt p (Entry d) rep w) = (None, rep)
  | inl _ => ∃ o, delete_outcome o ∧ fst (prune opt p (Entry d) rep w) = (None, record o rep)
  end.
Proof.
  intros Hp Hd. unfold prune. rewrite bool_decide_eq_false_2 by done. rewrite Hd.
  io_unfold. destruct (Stat _ w) as [[err|fi] w1]; cbn; [|done].
  io_cases; cbn; first [ by exists OutDeleted | by eexists (OutError _) ].
Qed.

(** C5.  A file visited in the forward pass (any entry but the source
    root that is not a directory) changes the report by exactly one
    outcome among copied, overwritten, skipped and error.  A file visited
    in the delete pass leaves the report as it was when its counterpart in
    the source is there, and otherwise changes it by exactly one outcome
    among deleted and error. *)
Theorem visit_one_outcome opt p d rep w :
  d_IsDir d = false →
  (p ≠ Source opt →
     exists! o, forward_outcome o ∧ fst (mirror opt p (Entry d) rep w) = (None, record o rep))
  ∧
  (p ≠ Target opt →
     match fst (Stat (Join (Source opt) (Rel (Target opt) p)) w) with
     | inr _ => fst (prune opt p (Entry d) rep w) = (None, rep)
     | inl _ =>
       exists! o, delete_outcome o ∧ fst (prune opt p (Entry d) rep w) = (None, record o rep)
     end).
Proof.
  intros Hd. split; intros Hp.
  - destruct (mirror_file_outcome opt p d rep w Hp Hd) as (o & Ho & Heq).
    exists o. split; [done|]. intros o' [_ Heq']. rewrite Heq in Heq'.
    apply (record_inj _ _ rep). congruence.
  - pose proof (prune_file_outcome opt p d rep w Hp Hd) as Hpr.
    destruct (fst (Stat _ w)); [|done].
    destruct Hpr as (o & Ho & Heq).
    exists o. split; [done|]. intros o' [_ Heq']. rewrite Heq in Heq'.
    apply (record_inj _ _ rep). congruence.
Qed.

End Visits.

(** ** Walks: termination and what they keep *)

Section Walks.
Context `{Limits}.

Ltac io_unfold := unfold bind, ret, Printf, modify, gets in *.

Lemma enter_too_long p w :
  (path_max < length p)%nat → ∃ e, fst (enter p w) = Some e.
Proof.
  intros Hl. unfold enter, pop_fault. io_unfold.
  destruct (default None (head (w_faults w))); cbn; [by eexists|].
  unfold too_long. rewrite bool_decide_eq_true_2 by done. by eexists.
Qed.

(** A directory that lists an entry has a path the kernel accepts. *)
Lemma ReadDir_entries p w :
  fst (fst (ReadDir p w)) ≠ [] → (length p ≤ path_max)%nat.
Proof.
  intros Hne. destruct (decide (path_max < length p)%nat) as [Hl|]; [|lia].
  exfalso. apply Hne. destruct (enter_too_long p w Hl) as [e He].
  unfold ReadDir. io_unfold. destruct (enter p w) as [oe w1]. cbn in He. subst oe. done.
Qed.

Lemma walk_entries_total (step : DirEntry → Walk) ds rep w :
  (∀ d1 rep w, d1 ∈ ds → is_Some (step d1 rep w)) →
  is_Some (walk_entries step ds rep w).
Proof.
  revert rep w. induction ds as [|d1 ds IH]; intros rep w Hs; cbn; [done|].
  destruct (Hs d1 rep w) as [[[e rep'] w'] ->]; [by left|].
  destruct e; [done|]. apply IH. intros ????. apply Hs. by right.
Qed.

(** Enough fuel: a walk that starts [k] components deep never needs more
    than [path_max + 2 - k] nested calls. *)
Lemma walkDir_total fn fuel p d rep w :
  (length p ≤ S path_max)%nat → (path_max + 2 ≤ fuel + length p)%nat →
  is_Some (walkDir fuel fn p d rep w).
Proof.
  revert p d rep w. induction fuel as [|fuel IH]; intros p d rep w Hl Hf; [lia|].
  cbn [walkDir].
  destruct (fn p (Entry d) rep w) as [[err rep1] w1].
  destruct err; [done|].
  destruct (negb (d_IsDir d)); [done|].
  pose proof (ReadDir_entries p w1) as Hdirs.
  destruct (ReadDir p w1) as [[dirs rerr] w2]. cbn in Hdirs.
  destruct (match rerr with Some e => _ | None => _ end) as [[err2 rep2] w3].
  destruct err2; [done|].
  apply walk_entries_total. intros d1 rep' w' Hin.
  assert (dirs ≠ []) as Hne by (intros ->; by apply elem_of_nil in Hin).
  specialize (Hdirs Hne).
  apply IH; unfold Join; rewrite length_app; cbn; lia.
Qed.

Lemma Lstat_ok_length p w fi :
  fst (Lstat p w) = inr fi → (length p ≤ path_max)%nat.
Proof.
  intros Hst. destruct (decide (path_max < length p)%nat) as [Hl|]; [|lia].
  destruct (enter_too_long p w Hl) as [e He].
  unfold Lstat, stat_as in Hst. io_unfold.
  destruct (enter p w) as [oe w1]. cbn in He. subst oe. done.
Qed.

Lemma WalkDir_total root fn rep w :
  is_Some (WalkDir walk_fuel root fn rep w).
Proof.
  unfold WalkDir.
  pose proof (Lstat_ok_length root w) as Hl.
  destruct (Lstat root w) as [[err|info] w1]; cbn in Hl.
  - destruct (fn root _ rep w1) as [[e rep1] w2]. done.
  - specialize (Hl _ eq_refl). apply walkDir_total; unfold walk_fuel; lia.
Qed.

(** A walk whose callback returns no error returns no error, and keeps
    whatever every call of the callback and every change of the fault
    script keeps. *)
Lemma walk_entries_inv (I : Report → World → Prop) (step : DirEntry → Walk) ds :
  (∀ d1 rep w e rep' w', d1 ∈ ds → I rep w → step d1 rep w = Some (e, rep', w') →
     e = None ∧ I rep' w') →
  ∀ rep w e rep' w', I rep w → walk_entries step ds rep w = Some (e, rep', w') →
     e = None ∧ I rep' w'.
Proof.
  induction ds as [|d1 ds IH]; intros Hs rep w e rep' w' HI Hw; cbn in Hw.
  - by simplify_eq.
  - destruct (step d1 rep w) as [[[e1 rep1] w1]|] eqn:E1; [|done].
    destruct (Hs d1 rep w e1 rep1 w1) as [-> HI1]; [by left|done|done|].
    eapply IH; [|exact HI1|exact Hw]. intros ????????. eapply Hs; [by right|done..].
Qed.

Lemma ReadDir_world p w : snd (ReadDir p w) = set_faults (tail (w_faults w)) w.
Proof.
  unfold ReadDir, enter, pop_fault. io_unfold.
  destruct (default None (head (w_faults w))); cbn; repeat case_match; done.
Qed.

Lemma stat_as_world op p w : snd (stat_as op p w) = set_faults (tail (w_faults w)) w.
Proof.
  unfold stat_as, enter, pop_fault. io_unfold.
  destruct (default None (head (w_faults w))); cbn; repeat case_match; done.
Qed.

Section Invariant.
Variable I : Report → World → Prop.
Variable fn : WalkDirFunc.
Hypothesis I_faults : ∀ rep w fl, I rep w → I rep (set_faults fl w).
Hypothesis I_fn : ∀ p v rep w, I rep w →
  fst (fst (fn p v rep w)) = None ∧ I (snd (fst (fn p v rep w))) (snd (fn p v rep w)).

Lemma walkDir_inv fuel p d rep w e rep' w' :
  I rep w → walkDir fuel fn p d rep w = Some (e, rep', w') → e = None ∧ I rep' w'.
Proof.
  revert p d rep w e rep' w'.
  induction fuel as [|fuel IH]; intros p d rep w e rep' w' HI Hw; [done|].
  cbn [walkDir] in Hw.
  pose proof (I_fn p (Entry d) rep w HI) as [He1 HI1].
  destruct (fn p (Entry d) rep w) as [[err rep1] w1]. cbn in He1, HI1. subst err.
  destruct (negb (d_IsDir d)); [by simplify_eq|].
  pose proof (ReadDir_world p w1) as Hrw.
  destruct (ReadDir p w1) as [[dirs rerr] w2]. cbn in Hrw. subst w2.
  assert (I rep1 (set_faults (tail (w_faults w1)) w1)) as HI2 by by apply I_faults.
  destruct rerr as [re|].
  - pose proof (I_fn p (Failed (Some d) re) rep1 _ HI2) as [He3 HI3].
    destruct (fn p (Failed (Some d) re) rep1 _) as [[err2 rep2] w3].
    cbn in He3, HI3. subst err2.
    eapply walk_entries_inv; [|exact HI3|exact Hw].
    intros ????????. by eapply IH.
  - eapply walk_entries_inv; [|exact HI2|exact Hw].
    intros ????????. by eapply IH.
Qed.

Lemma WalkDir_inv fuel root rep w e rep' w' :
  I rep w → WalkDir fuel root fn rep w = Some (e, rep', w') → e = None ∧ I rep' w'.
Proof.
  intros HI Hw. unfold WalkDir in Hw.
  pose proof (stat_as_world "lstat" root w) as Hsw. fold (Lstat root w) in Hsw.
  destruct (Lstat root w) as [[err|info] w1]; cbn in Hsw; subst w1.
  - pose proof (I_fn root (Failed None err) rep _
                  (I_faults _ _ (tail (w_faults w)) HI)) as [He1 HI1].
    destruct (fn root _ rep _) as [[e1 rep1] w2]. cbn in *. by simplify_eq.
  - eapply walkDir_inv; [|exact Hw]. by apply I_faults.
Qed.

End Invariant.

End Walks.

(** ** The run as a whole: it returns, and its report only grows *)

Section Run.
Context `{Limits}.

Ltac io_unfold := unfold bind, ret, Printf, modify, gets in *.

Lemma mirror_no_error opt p v rep w : fst (fst (mirror opt p v rep w)) = None.
Proof. destruct (mirror_result opt p v rep w) as (rep' & -> & _). done. Qed.

Lemma prune_no_error opt p v rep w : fst (fst (prune opt p v rep w)) = None.
Proof. destruct (prune_result opt p v rep w) as (rep' & -> & _). done. Qed.

Lemma mirror_report_le opt p v rep w : report_le rep (snd (fst (mirror opt p v rep w))).
Proof.
  destruct (mirror_result opt p v rep w) as (rep' & -> & [->|(o & _ & ->)]); cbn;
    [reflexivity|apply report_le_record].
Qed.

Lemma prune_report_le opt p v rep w : report_le rep (snd (fst (prune opt p v rep w))).
Proof.
  destruct (prune_result opt p v rep w) as (rep' & -> & [->|(o & _ & ->)]); cbn;
    [reflexivity|apply report_le_record].
Qed.

Lemma WalkDir_mirror_report_le opt fuel root rep w e rep' w' :
  WalkDir fuel root (mirror opt) rep w = Some (e, rep', w') →
  e = None ∧ report_le rep rep'.
Proof.
  apply (WalkDir_inv (λ r _, report_le rep r) (mirror opt)); [done| |reflexivity].
  intros p v r w0 Hr. split; [apply mirror_no_error|].
  etrans; [exact Hr|apply mirror_report_le].
Qed.

Lemma WalkDir_prune_report_le opt fuel root rep w e rep' w' :
  WalkDir fuel root (prune opt) rep w = Some (e, rep', w') →
  e = None ∧ report_le rep rep'.
Proof.
  apply (WalkDir_inv (λ r _, report_le rep r) (prune opt)); [done| |reflexivity].
  intros p v r w0 Hr. split; [apply prune_no_error|].
  etrans; [exact Hr|apply prune_report_le].
Qed.

(** [Sync], with its two walks spelled out. *)
Lemma Sync_inv opt w rep w' :
  Sync opt w = Some (rep, w') →
  ∃ rep1 w1,
    WalkDir walk_fuel (Source opt) (mirror opt) empty_report w = Some (None, rep1, w1) ∧
    if DeleteMissing opt
    then WalkDir walk_fuel (Target opt) (prune opt) rep1 w1 = Some (None, rep, w')
    else rep = rep1 ∧ w' = w1.
Proof.
  unfold Sync. intros Hs.
  destruct (WalkDir _ (Source opt) _ _ _) as [[[e1 rep1] w1]|] eqn:E1; [|done].
  destruct (WalkDir_mirror_report_le _ _ _ _ _ _ _ _ E1) as [-> _].
  cbn [after_walk] in Hs. exists rep1, w1. split; [done|].
  destruct (DeleteMissing opt); [|by simplify_eq].
  destruct (WalkDir _ (Target opt) _ _ _) as [[[e2 rep2] w2]|] eqn:E2; [|done].
  destruct (WalkDir_prune_report_le _ _ _ _ _ _ _ _ E2) as [-> _].
  cbn [after_walk] in Hs. by simplify_eq.
Qed.

Lemma Sync_total opt w : is_Some (Sync opt w).
Proof.
  unfold Sync.
  destruct (WalkDir_total (Source opt) (mirror opt) empty_report w) as [[[e1 rep1] w1] ->].
  destruct (after_walk _ _ _) as [rep2 w2].
  destruct (DeleteMissing opt); [|done].
  destruct (WalkDir_total (Target opt) (prune opt) rep2 w2) as [[[e2 rep3] w3] ->].
  done.
Qed.

(** C9.  [addErr] leaves the report as it is on a nil error and otherwise
    puts the error at the end of the errors, after those already there,
    with every counter as it was; and no step of the engine (a visit of
    either pass, a whole walk) lowers a counter or drops or reorders a
    recorded error. *)
Theorem report_append_only :
  (∀ r, addErr None r = r) ∧
  (∀ e r, Errors (addErr (Some e) r) = Errors r ++ [e] ∧
          Copied (addErr (Some e) r) = Copied r ∧
          Overwritten (addErr (Some e) r) = Overwritten r ∧
          Deleted (addErr (Some e) r) = Deleted r ∧
          Skipped (addErr (Some e) r) = Skipped r) ∧
  (∀ opt p v rep w, report_le rep (snd (fst (mirror opt p v rep w)))) ∧
  (∀ opt p v rep w, report_le rep (snd (fst (prune opt p v rep w)))) ∧
  (∀ opt fuel root rep w e rep' w',
     WalkDir fuel root (mirror opt) rep w = Some (e, rep', w') → report_le rep rep') ∧
  (∀ opt fuel root rep w e rep' w',
     WalkDir fuel root (prune opt) rep w = Some (e, rep', w') → report_le rep rep').
Proof.
  split_and!.
  - done.
  - done.
  - apply mirror_report_le.
  - apply prune_report_le.
  - intros. by eapply WalkDir_mirror_report_le.
  - intros. by eapply WalkDir_prune_report_le.
Qed.

End Run.


Section KernelFacts.
Context `{Limits}.

Ltac io_unfold := unfold Now, Printf, bind, ret, modify, gets in *.
Ltac world_simpl :=
  cbn [fst snd w_fs w_faults w_now w_trace w_log set_fs set_faults emit] in *.
Ltac kernel_cases :=
  unfold enter, pop_fault in *; io_unfold;
  world_simpl; repeat (case_match; world_simpl; simplify_eq; world_simpl).

Lemma add_suffix_length p s : length (add_suffix p s) = Nat.max 1 (length p).
Proof.
  induction p as [|x [|y p] IH]; [done..|].
  change (add_suffix (x :: y :: p) s) with (x :: add_suffix (y :: p) s).
  cbn [length] in *. lia.
Qed.

Lemma string_app_length (a b : string) :
  String.length (a +:+ b) = (String.length a + String.length b)%nat.
Proof. induction a as [|c a IH]; [done|]. simpl. by rewrite IH. Qed.

Lemma add_suffix_ne p s : s ≠ ""%string → add_suffix p s ≠ p.
Proof.
  intros Hs. induction p as [|x [|y p] IH]; [done| |].
  - change (add_suffix [x] s) with [(x +:+ s)%string].
    intros [= Heq]. apply (f_equal String.length) in Heq.
    rewrite string_app_length in Heq. destruct s; [done|]. cbn in Heq. lia.
  - change (add_suffix (x :: y :: p) s) with (x :: add_suffix (y :: p) s).
    intros [= Heq]. by apply IH.
Qed.

Lemma tmp_path_ne dst : tmp_path dst ≠ dst.
Proof. by apply add_suffix_ne. Qed.

Lemma Mkdir_frame p perm w q :
  q ≠ p ∨ q = [] → w_fs (snd (Mkdir p perm w)) !! q = w_fs w !! q.
Proof.
  intros Hq. unfold Mkdir. kernel_cases; try done.
  all: apply lookup_insert_ne; destruct Hq as [Hq| ->]; done.
Qed.
Lemma stat_as_fs op p w : w_fs (snd (stat_as op p w)) = w_fs w.
Proof. by rewrite stat_as_world. Qed.

Lemma MkdirAll_rec_frame n p perm w q :
  ¬ q `prefix_of` p ∨ q = [] →
  w_fs (snd (MkdirAll_rec n p perm w)) !! q = w_fs w !! q.
Proof.
  revert p w. induction n as [|n IH]; intros p w Hq.
  - cbn [MkdirAll_rec]. unfold bind at 1.
    pose proof (stat_as_fs "stat" p w) as Hs. fold (Stat p w) in Hs.
    destruct (Stat p w) as [[e|dir] w1]; cbn in Hs.
    + unfold bind at 1, ret at 1. unfold bind at 1.
      pose proof (Mkdir_frame p perm w1 q) as Hm.
      destruct (Mkdir p perm w1) as [[err|] w2]; cbn in Hm.
      * unfold bind at 1.
        pose proof (stat_as_fs "lstat" p w2) as Hl. fold (Lstat p w2) in Hl.
        destruct (Lstat p w2) as [[e1|d1] w3]; cbn in Hl;
          [|destruct (IsDir (Mode d1))]; cbn; rewrite Hl, Hm, ?Hs; try done.
        all: destruct Hq as [Hq|Hq]; [left; by intros ->|by right].
      * cbn. rewrite Hm, ?Hs; [done|].
        destruct Hq as [Hq|Hq]; [left; by intros ->|by right].
    + destruct (IsDir (Mode dir)); cbn; by rewrite Hs.
  - cbn [MkdirAll_rec]. unfold bind at 1.
    pose proof (stat_as_fs "stat" p w) as Hs. fold (Stat p w) in Hs.
    destruct (Stat p w) as [[e|dir] w1]; cbn in Hs.
    + unfold bind at 1.
      assert (w_fs (snd ((if bool_decide (1 < length p)%nat
                then MkdirAll_rec n (Dir p) perm else ret None) w1)) !! q
              = w_fs w !! q) as Hrec.
      { case_bool_decide; [|by rewrite <- Hs].
        rewrite IH, Hs; [done|].
        destruct Hq as [Hq|Hq]; [left|by right].
        intros Hpre. apply Hq. etrans; [exact Hpre|].
        unfold Dir. destruct p as [|x p] using rev_ind; [done|].
        rewrite removelast_last. by apply prefix_app_r. }
      destruct ((if bool_decide (1 < length p)%nat
                 then MkdirAll_rec n (Dir p) perm else ret None) w1) as [[perr|] w1'];
        cbn in Hrec; [done|].
      unfold bind at 1.
      pose proof (Mkdir_frame p perm w1' q) as Hm.
      destruct (Mkdir p perm w1') as [[err|] w2]; cbn in Hm.
      * unfold bind at 1.
        pose proof (stat_as_fs "lstat" p w2) as Hl. fold (Lstat p w2) in Hl.
        destruct (Lstat p w2) as [[e1|d1] w3]; cbn in Hl;
          [|destruct (IsDir (Mode d1))]; cbn; rewrite Hl, Hm, ?Hrec; try done.
        all: destruct Hq as [Hq|Hq]; [left; by intros ->|by right].
      * cbn. rewrite Hm, ?Hrec; [done|].
        destruct Hq as [Hq|Hq]; [left; by intros ->|by right].
    + destruct (IsDir (Mode dir)); cbn; by rewrite Hs.
Qed.

Lemma MkdirAll_frame p perm w q :
  ¬ q `prefix_of` p ∨ q = [] → w_fs (snd (MkdirAll p perm w)) !! q = w_fs w !! q.
Proof. apply MkdirAll_rec_frame. Qed.

Lemma Open_world p w : snd (Open p w) = set_faults (tail (w_faults w)) w.
Proof. unfold Open. kernel_cases; done. Qed.

Lemma Close_world fl w : snd (Close fl w) = set_faults (tail (w_faults w)) w.
Proof. unfold Close. kernel_cases; done. Qed.

Lemma OpenFile_frame p perm w q :
  q ≠ p → w_fs (snd (OpenFile_create_trunc p perm w)) !! q = w_fs w !! q.
Proof.
  intros Hq. unfold OpenFile_create_trunc. kernel_cases; try done.
  all: by apply lookup_insert_ne.
Qed.

Lemma OpenFile_handle p perm w fl :
  fst (OpenFile_create_trunc p perm w) = inr fl → fl = p.
Proof. unfold OpenFile_create_trunc. kernel_cases; congruence. Qed.

Lemma io_Copy_frame df sf w q :
  q ≠ df → w_fs (snd (io_Copy df sf w)) !! q = w_fs w !! q.
Proof.
  intros Hq. unfold io_Copy, write_data. kernel_cases; try done.
  all: by apply lookup_insert_ne.
Qed.

Lemma Chtimes_frame p a m w q :
  q ≠ p → w_fs (snd (Chtimes p a m w)) !! q = w_fs w !! q.
Proof.
  intros Hq. unfold Chtimes. kernel_cases; try done.
  all: by apply lookup_insert_ne.
Qed.


Lemma Rename_frame old new w q :
  q ≠ old → q ≠ new → w_fs (snd (Rename old new w)) !! q = w_fs w !! q.
Proof.
  intros Ho Hn. unfold Rename. kernel_cases; try done.
  all: etrans; [by apply lookup_insert_ne|by apply lookup_delete_ne].
Qed.

Lemma Remove_frame p w q :
  q ≠ p → w_fs (snd (Remove p w)) !! q = w_fs w !! q.
Proof.
  intros Hq. unfold Remove. kernel_cases; try done.
  all: by apply lookup_delete_ne.
Qed.









End KernelFacts.

(** ** The atomic file writer *)

Section Writer.
Context `{Limits}.


(** What [copyFile] does from the moment the temporary file is open. *)
Lemma dst_not_prefix_of_Dir (dst : path) : ¬ dst `prefix_of` Dir dst ∨ dst = [].
Proof.
  destruct dst as [|x dst] using rev_ind; [by right|]. left.
  unfold Dir. rewrite removelast_last. intros Hp.
  apply prefix_length in Hp. rewrite length_app in Hp. cbn in Hp. lia.
Qed.




End Writer.

(** ** Concrete trees for the examples *)

Module Examples.

Definition limits : Limits := {| path_max := 16 |}.

(** The times of the examples are instants of November 2023. *)
Definition dir_node : inode := mkInode (Z.lor ModeDir 493) 63835596800000000000 [].
Definition file_node (mtime : Z) (data : list Byte.byte) : inode := mkInode 420 mtime data.
Definition pipe_node : inode := mkInode (Z.lor ModeNamedPipe 420) 63835596800000000000 [].

Definition world_of (l : list (path * inode)) : World :=
  mkWorld (list_to_map l) [] 63835596900000000000 [] [].

(** The scene of [TestCopyFile_RenameFailureCleansTemp]: the destination
    is a directory, so the rename fails. *)
Definition rename_fails : World :=
  world_of [([], dir_node); (["d"], dir_node);
            (["d"; "src.txt"], file_node 63835596805000000000 [Byte.x64; Byte.x61; Byte.x74; Byte.x61]);
            (["d"; "dst"], dir_node)]%string.

Definition src_info : FileInfo := mkFileInfo 4 63835596805000000000 420.


End Examples.





Lemma visit_one_outcome_witness :
  d_IsDir (mkDirEntry "old.txt" 0 None) = false ∧
  ((["t"; "old.txt"]%string ≠ Source (mkOptions ["s"] ["t"] true)%string →
     exists! o, forward_outcome o ∧
       fst (@mirror Examples.limits (mkOptions ["s"] ["t"] true)%string
              ["t"; "old.txt"]%string (Entry (mkDirEntry "old.txt" 0 None))
              empty_report Examples.rename_fails) = (None, record o empty_report))
   ∧
   (["t"; "old.txt"]%string ≠ Target (mkOptions ["s"] ["t"] true)%string →
     match fst (@Stat Examples.limits
                  (Join (Source (mkOptions ["s"] ["t"] true)%string)
                        (Rel (Target (mkOptions ["s"] ["t"] true)%string)
                             ["t"; "old.txt"]%string))
                  Examples.rename_fails) with
     | inr _ =>
       fst (@prune Examples.limits (mkOptions ["s"] ["t"] true)%string
              ["t"; "old.txt"]%string (Entry (mkDirEntry "old.txt" 0 None))
              empty_report Examples.rename_fails) = (None, empty_report)
     | inl _ =>
       exists! o, delete_outcome o ∧
         fst (@prune Examples.limits (mkOptions ["s"] ["t"] true)%string
                ["t"; "old.txt"]%string (Entry (mkDirEntry "old.txt" 0 None))
                empty_report Examples.rename_fails) = (None, record o empty_report)
     end)).
Proof.
  split; [reflexivity|].
  exact (@visit_one_outcome Examples.limits (mkOptions ["s"] ["t"] true)%string
           ["t"; "old.txt"]%string (mkDirEntry "old.txt" 0 None)
           empty_report Examples.rename_fails eq_refl).
Defined.

(** ** The temporary file of the writer *)

Lemma add_suffix_snoc (p : path) (x s : string) :
  add_suffix (p ++ [x]) s = p ++ [(x +:+ s)%string].
Proof.
  induction p as [|y p IH]; [done|].
  cbn [app]. destruct (p ++ [x]) as [|z q] eqn:E.
  - by destruct p.
  - change (add_suffix (y :: z :: q) s) with (y :: add_suffix (z :: q) s).
    by rewrite IH.
Qed.

(** The shape of the temporary path: the sibling of the destination
    whose name is the name of the destination followed by [".tmp~"]. *)
Lemma tmp_path_shape (dst : path) :
  dst ≠ [] →
  Dir (tmp_path dst) = Dir dst ∧
  ∃ name, last dst = Some name ∧ tmp_path dst = Dir dst ++ [(name +:+ tmp_suffix)%string].
Proof.
  intros Hne. destruct dst as [|x dst _] using rev_ind; [done|].
  unfold tmp_path, Dir. rewrite add_suffix_snoc, !removelast_last, !last_snoc.
  split; [done|]. by eexists.
Qed.

Module CollisionExample.

(** The source holds [a] and [a.tmp~]; the target is empty. *)
Definition start : World :=
  Examples.world_of
    [([], Examples.dir_node); (["s"], Examples.dir_node); (["t"], Examples.dir_node);
     (["s"; "a"], Examples.file_node 63835596805000000000 [Byte.x61]);
     (["s"; "a.tmp~"], Examples.file_node 63835596806000000000 [Byte.x62])]%string.

Definition opts : Options := mkOptions ["s"] ["t"] false%string.

Definition run := @Sync Examples.limits opts start.

End CollisionExample.



(** ** Trees, and what of a tree lies below a root *)

Definition strictly_below (root p : path) : bool :=
  match strip_prefix root p with
  | Some (_ :: _) => true
  | _ => false
  end.

(** The entries of the tree strictly below [root] that satisfy [P]. *)
Definition below (P : inode → bool) (f : FS) (root : path) : list (path * inode) :=
  filter (λ pi, strictly_below root pi.1 && P pi.2) (map_to_list f).

(** The regular files of a tree, and all that is not a directory. *)
Definition is_regular (i : inode) : bool := IsRegular (i_mode i).
Definition regular_files : FS → path → list (path * inode) := below is_regular.
Definition file_entries : FS → path → list (path * inode) := below (λ i, negb (is_dir i)).

(** What came out of a run: its report, and the node it left at a path. *)
Definition report_of (r : option (Report * World)) : option Report := fst <$> r.
Definition node_after (r : option (Report * World)) (p : path) : option (option inode) :=
  (λ x, w_fs (snd x) !! p) <$> r.
Definition trace_of (r : option (Report * World)) : option (list event) :=
  (λ x, w_trace (snd x)) <$> r.

(** A second run, on what the first one left. *)
Definition and_then (r : option (Report * World)) (run : World → option (Report * World)) :
    option (Report * World) :=
  match r with
  | Some (_, w) => run w
  | None => None
  end.

Module PipeExample.

(** The source holds nothing but a named pipe. *)
Definition start : World :=
  Examples.world_of
    [([], Examples.dir_node); (["s"], Examples.dir_node); (["t"], Examples.dir_node);
     (["s"; "p"], Examples.pipe_node)]%string.

Definition opts : Options := mkOptions ["s"] ["t"] true%string.

Definition first_run := @Sync Examples.limits opts start.
Definition second_run := and_then first_run (@Sync Examples.limits opts).

End PipeExample.

(** C4, as stated, fails: with a named pipe in the source, the second of
    two runs in a row reports one skipped entry, and the source holds no
    regular file at all. *)
Lemma second_run_counts_irregular_files :
  report_of PipeExample.first_run = Some (mkReport 0 0 0 1 []) ∧
  report_of PipeExample.second_run = Some (mkReport 0 0 0 1 []) ∧
  length (regular_files (w_fs PipeExample.start) (Source PipeExample.opts)) = 0%nat.
Proof. split_and!; vm_compute; reflexivity. Qed.

Module ShadowExample.

(** The source has the file [a]; the target has only [a.tmp~]. *)
Definition start : World :=
  Examples.world_of
    [([], Examples.dir_node); (["s"], Examples.dir_node); (["t"], Examples.dir_node);
     (["s"; "a"], Examples.file_node 63835596805000000000 [Byte.x61]);
     (["t"; "a.tmp~"], Examples.file_node 63835596807000000000 [Byte.x79])]%string.

Definition opts : Options := mkOptions ["s"] ["t"] false%string.

Definition run := @Sync Examples.limits opts start.

End ShadowExample.


Module BlockedExample.

(** The source has the file [d/f]; in the target, [d] is a regular file. *)
Definition start : World :=
  Examples.world_of
    [([], Examples.dir_node); (["s"], Examples.dir_node); (["t"], Examples.dir_node);
     (["s"; "d"], Examples.dir_node);
     (["s"; "d"; "f"], Examples.file_node 63835596805000000000 [Byte.x66]);
     (["t"; "d"], Examples.file_node 63835596807000000000 [Byte.x64])]%string.

Definition opts : Options := mkOptions ["s"] ["t"] false%string.

Definition run := @Sync Examples.limits opts start.

End BlockedExample.

(** C7, as stated, fails: [d/f] is a regular file of the source that the
    target does not have, and after the run the target still does not
    have it and nothing was counted as copied; the run recorded two errors
    instead (the directory that could not be made, the file that could not
    be examined). *)
Lemma missing_file_not_copied :
  is_regular <$> w_fs BlockedExample.start !! ["s"; "d"; "f"]%string = Some true ∧
  w_fs BlockedExample.start !! ["t"; "d"; "f"]%string = None ∧
  node_after BlockedExample.run ["t"; "d"; "f"]%string = Some None ∧
  Copied <$> report_of BlockedExample.run = Some 0 ∧
  length <$> (Errors <$> report_of BlockedExample.run) = Some 2%nat.
Proof. split_and!; vm_compute; reflexivity. Qed.

Module NestedExample.

(** The source root [t/s] lies inside the target root [t], and holds the
    file [s/f]. *)
Definition start : World :=
  Examples.world_of
    [([], Examples.dir_node); (["t"], Examples.dir_node); (["t"; "s"], Examples.dir_node);
     (["t"; "s"; "s"], Examples.dir_node);
     (["t"; "s"; "s"; "f"], Examples.file_node 63835596805000000000 [Byte.x66])]%string.

Definition opts : Options := mkOptions ["t"; "s"] ["t"] false%string.

Definition run := @Sync Examples.limits opts start.

End NestedExample.


(** C8, as stated, fails: in one run that mirrors [a] and [a.tmp~], the
    temporary file created to write the destination of [a] is the
    destination of [a.tmp~]. *)
Lemma tmp_path_collides :
  report_of CollisionExample.run = Some (mkReport 2 0 0 0 []) ∧
  (λ tr, bool_decide (mkEvent (SysCreate (tmp_path ["t"; "a"]%string)) true ∈ tr))
    <$> trace_of CollisionExample.run = Some true ∧
  (λ tr, bool_decide
           (mkEvent (SysRename (tmp_path ["t"; "a.tmp~"]%string) ["t"; "a.tmp~"]%string) true
            ∈ tr))
    <$> trace_of CollisionExample.run = Some true ∧
  tmp_path (Join (Target CollisionExample.opts) ["a"]%string) =
    Join (Target CollisionExample.opts) ["a.tmp~"]%string.
Proof. split_and!; vm_compute; reflexivity. Qed.

(** ** Confinement: where a computation may write *)

Ltac io_unfold := unfold Now, Printf, bind, ret, modify, gets in *.
Ltac world_simpl :=
  cbn [fst snd w_fs w_faults w_now w_trace w_log set_fs set_faults emit] in *.
Ltac kernel_cases :=
  unfold enter, pop_fault in *; io_unfold;
  world_simpl; repeat (case_match; world_simpl; simplify_eq; world_simpl).

(** The paths a system call names. *)
Definition ev_paths (c : syscall) : list path :=
  match c with
  | SysMkdir p | SysCreate p | SysWrite p | SysChtimes p | SysRemove p => [p]
  | SysRename old new => [old; new]
  end.

(** From [w] to [w'] the trace has grown, and every call added to it that
    succeeded names only paths of [Q]. *)
Definition trace_within (Q : path → Prop) (w w' : World) : Prop :=
  ∃ evs, w_trace w' = w_trace w ++ evs ∧
    ∀ ev, ev ∈ evs → ev_ok ev = true → Forall Q (ev_paths (ev_call ev)).

(** From [w] to [w'] nothing changed in the tree outside [Q], and no call
    succeeded outside [Q]. *)
Definition confined (Q : path → Prop) (w w' : World) : Prop :=
  (∀ q, ¬ Q q → w_fs w' !! q = w_fs w !! q) ∧ trace_within Q w w'.

Lemma trace_within_refl Q w : trace_within Q w w.
Proof. exists []. rewrite app_nil_r. split; [done|]. by intros ? ?%elem_of_nil. Qed.

Lemma trace_within_trans Q w1 w2 w3 :
  trace_within Q w1 w2 → trace_within Q w2 w3 → trace_within Q w1 w3.
Proof.
  intros (e1 & H1 & HQ1) (e2 & H2 & HQ2). exists (e1 ++ e2).
  rewrite H2, H1, app_assoc. split; [done|].
  intros ev [?|?]%elem_of_app; eauto.
Qed.

Lemma confined_refl Q w : confined Q w w.
Proof. split; [done|apply trace_within_refl]. Qed.

Lemma confined_trans Q w1 w2 w3 : confined Q w1 w2 → confined Q w2 w3 → confined Q w1 w3.
Proof.
  intros [F1 T1] [F2 T2]. split; [|by eapply trace_within_trans].
  intros q Hq. by rewrite F2, F1.
Qed.

Lemma confined_mono (Q Q' : path → Prop) w w' :
  (∀ q, Q q → Q' q) → confined Q w w' → confined Q' w w'.
Proof.
  intros HQ [F (evs & Ht & He)]. split.
  - intros q Hq. apply F. naive_solver.
  - exists evs. split; [done|]. intros ev Hin Hok.
    eapply Forall_impl; [by apply He|done].
Qed.

(** A world that differs in its fault script or its log only. *)
Lemma confined_same Q w w' :
  w_fs w' = w_fs w → w_trace w' = w_trace w → confined Q w w'.
Proof.
  intros Hf Ht. split; [by rewrite Hf|]. exists []. rewrite app_nil_r.
  split; [done|]. by intros ? ?%elem_of_nil.
Qed.

(** One call: the tree changes at most at [p], and one event is added. *)
Lemma confined_one Q w w' c ok :
  (∀ q, ¬ Q q → w_fs w' !! q = w_fs w !! q) →
  w_trace w' = w_trace w ++ [mkEvent c ok] →
  (ok = true → Forall Q (ev_paths c)) →
  confined Q w w'.
Proof.
  intros F Ht Hok. split; [done|]. exists [mkEvent c ok]. split; [done|].
  intros ev ->%list_elem_of_singleton. done.
Qed.

Section Confinement.
Context `{Limits}.

Lemma stat_as_confined Q op p w : confined Q w (snd (stat_as op p w)).
Proof. rewrite stat_as_world. by apply confined_same. Qed.

Lemma Open_confined Q p w : confined Q w (snd (Open p w)).
Proof. rewrite Open_world. by apply confined_same. Qed.

Lemma Close_confined Q fl w : confined Q w (snd (Close fl w)).
Proof. rewrite Close_world. by apply confined_same. Qed.

Lemma ReadDir_confined Q p w : confined Q w (snd (ReadDir p w)).
Proof. rewrite ReadDir_world. by apply confined_same. Qed.

Lemma Printf_confined Q format args w : confined Q w (snd (Printf format args w)).
Proof. by apply confined_same. Qed.

Lemma Mkdir_confined (Q : path → Prop) p perm w :
  Q p ∨ is_Some (w_fs w !! p) ∨ p = [] → confined Q w (snd (Mkdir p perm w)).
Proof.
  intros Hp. unfold Mkdir. kernel_cases.
  all: eapply confined_one; world_simpl; [|reflexivity|]; try done.
  all: destruct Hp as [Hp|[[? Hp]|Hp]]; try congruence.
  - intros q Hq. apply lookup_insert_ne. intros Heq; subst; contradiction.
  - intros _. by repeat constructor.
Qed.

Lemma OpenFile_confined (Q : path → Prop) p perm w :
  Q p → confined Q w (snd (OpenFile_create_trunc p perm w)).
Proof.
  intros Hp. unfold OpenFile_create_trunc. kernel_cases.
  all: eapply confined_one; world_simpl; [|reflexivity|]; try done.
  all: try (intros q Hq; apply lookup_insert_ne; intros Heq; subst; contradiction).
  all: intros _; by repeat constructor.
Qed.

Lemma io_Copy_confined (Q : path → Prop) df sf w :
  Q df → confined Q w (snd (io_Copy df sf w)).
Proof.
  intros Hp. unfold io_Copy, write_data. kernel_cases.
  all: eapply confined_one; world_simpl; [|reflexivity|]; try done.
  all: try (intros q Hq; apply lookup_insert_ne; intros Heq; subst; contradiction).
  all: intros _; by repeat constructor.
Qed.

Lemma Chtimes_confined (Q : path → Prop) p a m w :
  Q p → confined Q w (snd (Chtimes p a m w)).
Proof.
  intros Hp. unfold Chtimes. kernel_cases.
  all: eapply confined_one; world_simpl; [|reflexivity|]; try done.
  all: try (intros q Hq; apply lookup_insert_ne; intros Heq; subst; contradiction).
  all: intros _; by repeat constructor.
Qed.

Lemma Rename_confined (Q : path → Prop) old new w :
  Q old → Q new → confined Q w (snd (Rename old new w)).
Proof.
  intros Ho Hn. unfold Rename. kernel_cases.
  all: eapply confined_one; world_simpl; [|reflexivity|]; try done.
  all: try (intros q Hq; etrans;
            [apply lookup_insert_ne; intros Heq; subst; contradiction|apply lookup_delete_ne; intros Heq; subst; contradiction]).
  all: intros _; by repeat constructor.
Qed.

Lemma Remove_confined (Q : path → Prop) p w :
  Q p → confined Q w (snd (Remove p w)).
Proof.
  intros Hp. unfold Remove. kernel_cases.
  all: eapply confined_one; world_simpl; [|reflexivity|]; try done.
  all: try (intros q Hq; apply lookup_delete_ne; intros Heq; subst; contradiction).
  all: intros _; by repeat constructor.
Qed.

(** [MkdirAll] is a run of [Stat], [Lstat] and [Mkdir] calls on prefixes
    of its path: what all of these keep, it keeps. *)
Lemma Dir_prefix (p : path) : Dir p `prefix_of` p.
Proof.
  unfold Dir. destruct p as [|x p _] using rev_ind; [done|].
  rewrite removelast_last. by apply prefix_app_r.
Qed.

Lemma MkdirAll_rec_reach (P : World → Prop) n p perm w :
  P w →
  (∀ w0, P w0 → P (set_faults (tail (w_faults w0)) w0)) →
  (∀ q w0, q `prefix_of` p → P w0 → P (snd (Mkdir q perm w0))) →
  P (snd (MkdirAll_rec n p perm w)).
Proof.
  intros HP Hfl Hmk. revert p w HP Hmk.
  assert (∀ p w0, P w0 → (∀ q w1, q `prefix_of` p → P w1 → P (snd (Mkdir q perm w1))) →
     P (snd ((let* err := Mkdir p perm in
              match err with
              | None => ret None
              | Some err =>
                let* st1 := Lstat p in
                match st1 with
                | inr dir => if IsDir (Mode dir) then ret None else ret (Some err)
                | inl _ => ret (Some err)
                end
              end)%io w0))) as Htail.
  { intros p w0 HP Hmk. unfold bind at 1.
    pose proof (Hmk p w0 (reflexivity _) HP) as HP1.
    destruct (Mkdir p perm w0) as [[err|] w1]; cbn [snd] in HP1; [|done].
    unfold bind at 1. pose proof (stat_as_world "lstat" p w1) as Hl.
    fold (Lstat p w1) in Hl.
    destruct (Lstat p w1) as [[e1|d1] w2]; cbn [snd] in Hl; subst w2;
      [|destruct (IsDir (Mode d1))]; unfold ret; cbn [snd]; by apply Hfl. }
  induction n as [|n IH]; intros p w HP Hmk; cbn [MkdirAll_rec]; unfold bind at 1.
  - pose proof (stat_as_world "stat" p w) as Hs. fold (Stat p w) in Hs.
    destruct (Stat p w) as [[e|dir] w1]; cbn [snd] in Hs; subst w1.
    + unfold bind at 1, ret at 1. apply Htail; [by apply Hfl|done].
    + destruct (IsDir (Mode dir)); unfold ret; cbn [snd]; by apply Hfl.
  - pose proof (stat_as_world "stat" p w) as Hs. fold (Stat p w) in Hs.
    destruct (Stat p w) as [[e|dir] w1]; cbn [snd] in Hs; subst w1.
    + unfold bind at 1.
      set (w1 := set_faults (tail (w_faults w)) w).
      assert (P (snd ((if bool_decide (1 < length p)%nat
                then MkdirAll_rec n (Dir p) perm else ret None) w1))) as Hrec.
      { case_bool_decide; [|by apply Hfl].
        apply IH; [by apply Hfl|]. intros q w2 Hq. apply Hmk.
        etrans; [exact Hq|apply Dir_prefix]. }
      destruct ((if bool_decide (1 < length p)%nat
                 then MkdirAll_rec n (Dir p) perm else ret None) w1) as [[perr|] w1'];
        cbn [snd] in Hrec; [done|].
      by apply Htail.
    + destruct (IsDir (Mode dir)); unfold ret; cbn [snd]; by apply Hfl.
Qed.

Lemma Mkdir_keeps p perm w q i :
  w_fs w !! q = Some i → w_fs (snd (Mkdir p perm w)) !! q = Some i.
Proof.
  intros Hq. unfold Mkdir. kernel_cases; try done.
  all: rewrite lookup_insert_ne; [done|]; intros Heq; subst; congruence.
Qed.

Lemma MkdirAll_keeps p perm w q i :
  w_fs w !! q = Some i → w_fs (snd (MkdirAll p perm w)) !! q = Some i.
Proof.
  intros Hq. apply (MkdirAll_rec_reach (λ w0, w_fs w0 !! q = Some i)); [done..|].
  intros ????. by apply Mkdir_keeps.
Qed.

Lemma MkdirAll_confined (Q : path → Prop) p perm w :
  (∀ q, q `prefix_of` p → Q q ∨ is_Some (w_fs w !! q) ∨ q = []) →
  confined Q w (snd (MkdirAll p perm w)).
Proof.
  intros Hp.
  apply (MkdirAll_rec_reach (λ w0, confined Q w w0 ∧
           ∀ q i, w_fs w !! q = Some i → w_fs w0 !! q = Some i)).
  - split; [apply confined_refl|done].
  - intros w0 [Hc Hk]. split; [|done].
    eapply confined_trans; [exact Hc|by apply confined_same].
  - intros q w0 Hq [Hc Hk]. split.
    + eapply confined_trans; [exact Hc|]. apply Mkdir_confined.
      destruct (Hp q Hq) as [?|[[i Hi]|?]]; [by left| |by right; right].
      right; left. exists i. by apply Hk.
    + intros q' i Hi. apply Mkdir_keeps. by apply Hk.
Qed.

Lemma bind_confined {A B} Q (m : IO A) (k : A → IO B) w :
  confined Q w (snd (m w)) →
  (∀ a w1, m w = (a, w1) → confined Q w1 (snd (k a w1))) →
  confined Q w (snd (bind m k w)).
Proof.
  intros Hm Hk. unfold bind. destruct (m w) as [a w1]; cbn [snd] in *.
  eapply confined_trans; [exact Hm|]. by apply Hk.
Qed.

Lemma ret_confined {A} Q (a : A) w : confined Q w (snd (ret a w)).
Proof. apply confined_refl. Qed.

Lemma Now_confined Q w : confined Q w (snd (Now w)).
Proof. apply confined_refl. Qed.

(** Where [copyFile] writes: the destination, its temporary file, and
    the directories of the chain down to the destination that are not
    there yet. *)
Lemma copyFile_confined (Q : path → Prop) src dst info w :
  Q dst → Q (tmp_path dst) →
  (∀ q, q `prefix_of` Dir dst → Q q ∨ is_Some (w_fs w !! q) ∨ q = []) →
  confined Q w (snd (copyFile src dst info w)).
Proof.
  intros Hd Ht Hp. unfold copyFile.
  apply bind_confined; [by apply MkdirAll_confined|]. intros [err|] w1 _; [apply ret_confined|].
  apply bind_confined; [apply Open_confined|]. intros [err|sf] w2 _; [apply ret_confined|].
  apply bind_confined.
  2:{ intros r w3 _. apply bind_confined; [apply Close_confined|].
      intros ? ? _. apply ret_confined. }
  apply bind_confined; [by apply OpenFile_confined|].
  intros [err|df] w3 Hw3; [apply ret_confined|].
  assert (df = tmp_path dst) as ->.
  { eapply OpenFile_handle. by rewrite Hw3. }
  apply bind_confined; [by apply io_Copy_confined|]. intros [n cErr] w4 _. cbn [snd].
  apply bind_confined; [apply Close_confined|]. intros cCloseErr w5 _.
  assert (∀ (r : option error) w6,
    confined Q w6 (snd (bind (Remove (tmp_path dst)) (λ _, ret r) w6))) as Hcleanup.
  { intros r w6. apply bind_confined; [by apply Remove_confined|].
    intros ? ? _. apply ret_confined. }
  destruct cErr; [apply Hcleanup|]. destruct cCloseErr; [apply Hcleanup|].
  apply bind_confined; [apply Now_confined|]. intros now w6 _.
  apply bind_confined; [by apply Chtimes_confined|]. intros [err|] w7 _; [apply Hcleanup|].
  apply bind_confined; [by apply Rename_confined|]. intros [err|] w8 _; [apply Hcleanup|].
  apply ret_confined.
Qed.

Lemma stat_as_result op p w a w1 :
  stat_as op p w = (a, w1) → w_fs w1 = w_fs w.
Proof. intros Hs. pose proof (stat_as_fs op p w) as Hf. by rewrite Hs in Hf. Qed.

Lemma d_Info_confined Q d p w : confined Q w (snd (d_Info d p w)).
Proof. unfold d_Info. destruct (de_info d); [apply ret_confined|apply stat_as_confined]. Qed.

Lemma d_Info_result d p w a w1 : d_Info d p w = (a, w1) → w_fs w1 = w_fs w.
Proof.
  unfold d_Info. destruct (de_info d).
  - unfold ret. by intros [= _ <-].
  - apply stat_as_result.
Qed.

(** Where a visit of the forward pass writes: at the mirror path of the
    entry, at its temporary file, and at missing directories above. *)
Lemma mirror_confined (Q : path → Prop) opt p v rep w :
  (p ≠ Source opt →
     Q (Join (Target opt) (Rel (Source opt) p)) ∧
     Q (tmp_path (Join (Target opt) (Rel (Source opt) p))) ∧
     ∀ q, q `prefix_of` Join (Target opt) (Rel (Source opt) p) →
          Q q ∨ is_Some (w_fs w !! q) ∨ q = []) →
  confined Q w (snd (mirror opt p v rep w)).
Proof.
  intros HQ. unfold mirror. destruct v as [d|d err].
  2:{ apply bind_confined; [apply Printf_confined|]. intros ? ? _. apply ret_confined. }
  case_bool_decide as Hp; [apply ret_confined|].
  destruct (HQ Hp) as (Hd & Ht & Hpre). clear HQ.
  set (tp := Join (Target opt) (Rel (Source opt) p)) in *.
  assert (∀ format args (r : option error * Report) w0,
    confined Q w0 (snd (bind (Printf format args) (λ _, ret r) w0))) as Hlog.
  { intros. apply bind_confined; [apply Printf_confined|]. intros ? ? _. apply ret_confined. }
  assert (∀ info w0, w_fs w0 = w_fs w → confined Q w0 (snd (copyFile p tp info w0))) as Hcopy.
  { intros info w0 Hw0. apply copyFile_confined; [done..|].
    intros q Hq. rewrite Hw0. apply Hpre. etrans; [exact Hq|apply Dir_prefix]. }
  destruct (d_IsDir d).
  - apply bind_confined; [by apply MkdirAll_confined|].
    intros [err|] w1 _; [apply Hlog|apply ret_confined].
  - apply bind_confined; [apply d_Info_confined|].
    intros [err|info] w1 Hw1%d_Info_result; [apply Hlog|].
    destruct (negb (IsRegular (Mode info))); [apply Hlog|].
    apply bind_confined; [apply stat_as_confined|].
    intros [err|tst] w2 Hw2%stat_as_result.
    + destruct (Is_ErrNotExist err); [|apply Hlog].
      apply bind_confined; [apply Hcopy; congruence|].
      intros [cerr|] w3 _; apply Hlog.
    + destruct (differ info tst); [|apply Hlog].
      apply bind_confined; [apply Hcopy; congruence|].
      intros [cerr|] w3 _; apply Hlog.
Qed.

(** A visit of the delete pass writes nowhere but at the visited path. *)
Lemma prune_confined (Q : path → Prop) opt p v rep w :
  (p ≠ Target opt → Q p) → confined Q w (snd (prune opt p v rep w)).
Proof.
  intros HQ. unfold prune. destruct v as [d|d err].
  2:{ apply bind_confined; [apply Printf_confined|]. intros ? ? _. apply ret_confined. }
  case_bool_decide as Hp; [apply ret_confined|].
  assert (∀ format args (r : option error * Report) w0,
    confined Q w0 (snd (bind (Printf format args) (λ _, ret r) w0))) as Hlog.
  { intros. apply bind_confined; [apply Printf_confined|]. intros ? ? _. apply ret_confined. }
  destruct (d_IsDir d); [apply ret_confined|].
  apply bind_confined; [apply stat_as_confined|].
  intros [err|st] w1 _; [|apply ret_confined].
  destruct (Is_ErrNotExist err); [|apply Hlog].
  apply bind_confined; [apply Remove_confined; by apply HQ|].
  intros [rmErr|] w2 _; apply Hlog.
Qed.

End Confinement.

(** ** Walks that know what they visit *)

Section VisitInvariant.
Context `{Limits}.

Lemma ReadDir_listing p w d1 :
  d1 ∈ fst (fst (ReadDir p w)) → d1 ∈ listing (w_fs w) p.
Proof.
  unfold ReadDir. kernel_cases; try by intros ?%elem_of_nil. done.
Qed.

Variable I : Report → World → Prop.
Variable V : path → DirEntry → Prop.
Variable fn : WalkDirFunc.
Hypothesis I_faults : ∀ rep w fl, I rep w → I rep (set_faults fl w).
Hypothesis I_entry : ∀ p d rep w, I rep w → V p d →
  fst (fst (fn p (Entry d) rep w)) = None ∧
  I (snd (fst (fn p (Entry d) rep w))) (snd (fn p (Entry d) rep w)).
Hypothesis I_failed : ∀ p d e rep w, I rep w →
  fst (fst (fn p (Failed d e) rep w)) = None ∧
  I (snd (fst (fn p (Failed d e) rep w))) (snd (fn p (Failed d e) rep w)).
Hypothesis V_child : ∀ p d rep w d1, I rep w → V p d → d_IsDir d = true →
  d1 ∈ listing (w_fs w) p → V (Join p [de_name d1]) d1.

Lemma walkDir_visit_inv fuel p d rep w e rep' w' :
  I rep w → V p d → walkDir fuel fn p d rep w = Some (e, rep', w') → e = None ∧ I rep' w'.
Proof.
  revert p d rep w e rep' w'.
  induction fuel as [|fuel IH]; intros p d rep w e rep' w' HI HV Hw; [done|].
  cbn [walkDir] in Hw.
  pose proof (I_entry p d rep w HI HV) as [He1 HI1].
  destruct (fn p (Entry d) rep w) as [[err rep1] w1]. cbn [fst snd] in He1, HI1. subst err.
  destruct (d_IsDir d) eqn:Hd; cbn [negb] in Hw; [|by simplify_eq].
  pose proof (ReadDir_world p w1) as Hrw.
  pose proof (ReadDir_listing p w1) as Hrl.
  destruct (ReadDir p w1) as [[dirs rerr] w2]. cbn [fst snd] in Hrw, Hrl. subst w2.
  assert (I rep1 (set_faults (tail (w_faults w1)) w1)) as HI2 by by apply I_faults.
  assert (∀ d1, d1 ∈ dirs → V (Join p [de_name d1]) d1) as HVc.
  { intros d1 Hin. eapply V_child; [exact HI1|exact HV|exact Hd|by apply Hrl]. }
  destruct rerr as [re|].
  - pose proof (I_failed p (Some d) re rep1 _ HI2) as [He3 HI3].
    destruct (fn p (Failed (Some d) re) rep1 _) as [[err2 rep2] w3].
    cbn [fst snd] in He3, HI3. subst err2.
    eapply walk_entries_inv; [|exact HI3|exact Hw].
    intros d1 ????? Hin ??. eapply IH; [done|by apply HVc|done].
  - eapply walk_entries_inv; [|exact HI2|exact Hw].
    intros d1 ????? Hin ??. eapply IH; [done|by apply HVc|done].
Qed.

Lemma WalkDir_visit_inv fuel root rep w e rep' w' :
  (∀ info, fst (Lstat root w) = inr info → V root (FileInfoToDirEntry root info)) →
  I rep w → WalkDir fuel root fn rep w = Some (e, rep', w') → e = None ∧ I rep' w'.
Proof.
  intros HVr HI Hw. unfold WalkDir in Hw.
  pose proof (stat_as_world "lstat" root w) as Hsw. fold (Lstat root w) in Hsw.
  destruct (Lstat root w) as [[err|info] w1]; cbn [fst snd] in Hsw, HVr; subst w1.
  - pose proof (I_failed root None err rep _
                  (I_faults _ _ (tail (w_faults w)) HI)) as [He1 HI1].
    destruct (fn root _ rep _) as [[e1 rep1] w2]. cbn [fst snd] in *. by simplify_eq.
  - eapply walkDir_visit_inv; [|by apply HVr|exact Hw]. by apply I_faults.
Qed.

End VisitInvariant.

(** ** What a listing holds *)

Lemma strip_prefix_Some (base p r : path) :
  strip_prefix base p = Some r ↔ p = base ++ r.
Proof.
  revert p. induction base as [|b base IH]; intros p; cbn.
  - split; congruence.
  - destruct p as [|x p]; [split; [done|by intros [=]]|].
    case_decide as Hbx.
    + subst. rewrite IH. split; [by intros ->|by intros [=]].
    + split; [done|]. intros [=]. congruence.
Qed.

Lemma strip_prefix_app (base r : path) : strip_prefix base (base ++ r) = Some r.
Proof. by apply strip_prefix_Some. Qed.

Lemma Rel_app (base r : path) : Rel base (base ++ r) = r.
Proof. unfold Rel. by rewrite strip_prefix_app. Qed.

Lemma child_of_Some (p q : path) (n : string) :
  child_of p q = Some n ↔ q = p ++ [n].
Proof.
  unfold child_of. destruct (strip_prefix p q) as [r|] eqn:E.
  - apply strip_prefix_Some in E. subst q.
    destruct r as [|x [|y r]]; split; try done.
    + intros Heq. apply (f_equal length) in Heq. rewrite !length_app in Heq. cbn in Heq. lia.
    + by intros [= ->].
    + intros Heq. apply app_inv_head in Heq. by simplify_eq.
    + intros Heq. apply app_inv_head in Heq. by simplify_eq.
  - split; [done|]. intros ->. by rewrite strip_prefix_app in E.
Qed.

Lemma elem_of_entries (f : FS) (p : path) (n : string) (i : inode) :
  (n, i) ∈ entries f p ↔ f !! (p ++ [n]) = Some i.
Proof.
  unfold entries. rewrite list_elem_of_omap. split.
  - intros ([q j] & Hin & Hq). apply elem_of_map_to_list in Hin. cbn in Hq.
    destruct (child_of p q) as [m|] eqn:E; [|done]. cbn in Hq. simplify_eq.
    apply child_of_Some in E. by subst.
  - intros Hf. exists (p ++ [n], i). split; [by apply elem_of_map_to_list|].
    cbn. by rewrite (proj2 (child_of_Some p (p ++ [n]) n) eq_refl).
Qed.

Definition entry_of (n : string) (i : inode) : DirEntry :=
  mkDirEntry n (Z.land (i_mode i) ModeType) None.

Lemma elem_of_names (f : FS) (p : path) (n : string) :
  n ∈ names f p ↔ is_Some (f !! (p ++ [n])).
Proof.
  unfold names. rewrite list_elem_of_fmap. split.
  - intros ([m i] & -> & Hin). apply elem_of_entries in Hin. by exists i.
  - intros [i Hi]. exists (n, i). split; [done|]. by apply elem_of_entries.
Qed.

Lemma elem_of_listing (f : FS) (p : path) (d : DirEntry) :
  d ∈ listing f p ↔ ∃ i, f !! (p ++ [de_name d]) = Some i ∧ d = entry_of (de_name d) i.
Proof.
  unfold listing. rewrite list_elem_of_fmap. split.
  - intros (n & -> & Hin). rewrite merge_sort_Permutation in Hin.
    apply elem_of_names in Hin as [i Hi]. exists i. cbn [de_name entry_at].
    split; [done|]. unfold entry_at, entry_of, Join. by rewrite Hi.
  - intros (i & Hf & Hd). exists (de_name d). split.
    + rewrite Hd at 1. unfold entry_at, entry_of, Join. cbn [de_name]. by rewrite Hf.
    + rewrite merge_sort_Permutation. apply elem_of_names. by exists i.
Qed.

(** ** Well-formed trees and roots apart *)

(** Every node but the root sits in a directory. *)
Definition wf (f : FS) : Prop :=
  ∀ p i, f !! p = Some i → p ≠ [] → ∃ d, f !! Dir p = Some d ∧ is_dir d = true.

(** Neither root lies below (or is) the other. *)
Definition roots_apart (opt : Options) : Prop :=
  ¬ Source opt `prefix_of` Target opt ∧ ¬ Target opt `prefix_of` Source opt.

Lemma wf_prefix f p q :
  wf f → is_Some (f !! p) → q `prefix_of` p → is_Some (f !! q).
Proof.
  intros Hwf. revert q. induction p as [|x p IH] using rev_ind; intros q Hp Hq.
  - apply prefix_nil_inv in Hq. by subst.
  - destruct Hq as [k Hk]. destruct k as [|y k _] using rev_ind.
    + rewrite app_nil_r in Hk. by subst.
    + rewrite app_assoc in Hk. apply app_inj_tail in Hk as [Hk _].
      apply IH; [|by exists k].
      destruct Hp as [i Hi]. destruct (Hwf _ _ Hi) as (d & Hd & _).
      { intros Heq. by destruct p. }
      unfold Dir in Hd. rewrite removelast_last in Hd. by eexists.
Qed.

Lemma strictly_below_spec root p :
  strictly_below root p = true ↔ ∃ r, r ≠ [] ∧ p = root ++ r.
Proof.
  unfold strictly_below. destruct (strip_prefix root p) as [r|] eqn:E.
  - apply strip_prefix_Some in E. subst p. destruct r as [|x r].
    + split; [done|]. intros (r & Hr & Heq). rewrite app_nil_r in Heq.
      apply (f_equal length) in Heq. rewrite length_app in Heq.
      destruct r; [done|]. cbn in Heq. lia.
    + split; [|done]. intros _. by exists (x :: r).
  - split; [done|]. intros (r & _ & ->). by rewrite strip_prefix_app in E.
Qed.

Lemma strictly_below_app root r : r ≠ [] → strictly_below root (root ++ r) = true.
Proof. intros Hr. apply strictly_below_spec. by exists r. Qed.

Lemma strictly_below_prefix root p : strictly_below root p = true → root `prefix_of` p.
Proof. intros (r & _ & ->)%strictly_below_spec. by apply prefix_app_r. Qed.

Lemma prefix_app_cases (q a b : path) :
  q `prefix_of` a ++ b → q `prefix_of` a ∨ ∃ r, r ≠ [] ∧ q = a ++ r.
Proof.
  intros Hq. destruct (prefix_weak_total q a (a ++ b) Hq) as [?|[r Hr]];
    [by apply prefix_app_r|by left|].
  destruct r as [|x r]; [left; rewrite app_nil_r in Hr; by subst|].
  right. by exists (x :: r).
Qed.

Lemma add_suffix_app (a r : path) s : r ≠ [] → add_suffix (a ++ r) s = a ++ add_suffix r s.
Proof.
  intros Hr. induction a as [|x a IH]; [done|].
  cbn [app]. destruct (a ++ r) as [|y q] eqn:E.
  - destruct a; [by destruct r|done].
  - change (add_suffix (x :: y :: q) s) with (x :: add_suffix (y :: q) s). by rewrite IH.
Qed.

Lemma add_suffix_nonempty p s : add_suffix p s ≠ [].
Proof.
  intros Heq. apply (f_equal length) in Heq. rewrite add_suffix_length in Heq.
  cbn in Heq. lia.
Qed.

Lemma tmp_path_below root r :
  r ≠ [] → strictly_below root (tmp_path (root ++ r)) = true.
Proof.
  intros Hr. unfold tmp_path. rewrite add_suffix_app by done.
  apply strictly_below_app, add_suffix_nonempty.
Qed.

(** A walk path other than the root of the walk, taken apart. *)
Lemma below_root (root p : path) :
  root `prefix_of` p → p ≠ root → ∃ r, r ≠ [] ∧ p = root ++ r.
Proof.
  intros [r ->] Hne. exists r. split; [|done]. intros ->. by rewrite app_nil_r in Hne.
Qed.

(** ** The run writes below the target root only *)

Section TargetOnly.
Context `{Limits}.

Definition below_target (opt : Options) (q : path) : Prop :=
  strictly_below (Target opt) q = true.

(** While everything above the target root is in place, a visit of the
    forward pass at a path below the source root is confined to what is
    below the target root. *)
Lemma mirror_below_target opt w0 p v rep w :
  (∀ q, q `prefix_of` Target opt → is_Some (w_fs w0 !! q)) →
  confined (below_target opt) w0 w →
  Source opt `prefix_of` p →
  confined (below_target opt) w (snd (mirror opt p v rep w)).
Proof.
  intros Hup [Hfr _] Hp. apply mirror_confined. intros Hne.
  destruct (below_root _ _ Hp Hne) as (r & Hr & ->).
  rewrite Rel_app. unfold Join. split_and!.
  - by apply strictly_below_app.
  - by apply tmp_path_below.
  - intros q [Hq|(r' & Hr' & ->)]%prefix_app_cases.
    + right; left. rewrite Hfr; [by apply Hup|].
      intros (r' & Hr' & ->)%strictly_below_spec.
      apply prefix_length in Hq. rewrite length_app in Hq. destruct r'; [done|cbn in Hq; lia].
    + left. by apply strictly_below_app.
Qed.


Lemma prune_below_target opt p v rep w :
  Target opt `prefix_of` p →
  confined (below_target opt) w (snd (prune opt p v rep w)).
Proof.
  intros Hp. apply prune_confined. intros Hne.
  destruct (below_root _ _ Hp Hne) as (r & Hr & ->). by apply strictly_below_app.
Qed.






End TargetOnly.

(** A tree without symbolic links.  The kernel of this model resolves no
    link, so it is for such trees that [os.Stat], which follows links,
    answers what [os.Lstat] answers. *)
Definition is_link (i : inode) : bool := negb (Z.land (i_mode i) ModeSymlink =? 0).

Definition link_free (f : FS) : Prop := ∀ p i, f !! p = Some i → is_link i = false.

Definition link_freeb (f : FS) : bool :=
  forallb (λ pi : path * inode, negb (is_link pi.2)) (map_to_list f).

Lemma link_freeb_link_free (f : FS) : link_freeb f = true → link_free f.
Proof.
  unfold link_freeb. rewrite forallb_forall. intros Hall p i Hp.
  apply negb_true_iff, (Hall (p, i)), list_elem_of_In. by apply elem_of_map_to_list.
Qed.

(** Well-formedness, checked. *)
Definition wfb (f : FS) : bool :=
  forallb (λ pi, match pi.1 with
                 | [] => true
                 | _ => match f !! Dir pi.1 with
                        | Some d => is_dir d
                        | None => false
                        end
                 end) (map_to_list f).

Lemma wfb_wf (f : FS) : wfb f = true → wf f.
Proof.
  unfold wfb. rewrite forallb_forall. intros Hall p i Hp Hne.
  specialize (Hall (p, i)). cbn [fst] in Hall.
  destruct p as [|x p]; [done|].
  destruct (f !! Dir (x :: p)) as [d|] eqn:Hd.
  - exists d. split; [done|]. apply Hall. apply list_elem_of_In. by apply elem_of_map_to_list.
  - exfalso. enough (false = true) by done.
    apply Hall. apply list_elem_of_In. by apply elem_of_map_to_list.
Qed.

(** The report and the world a run ended with. *)
Definition final_report (r : option (Report * World)) : Report :=
  default empty_report (report_of r).
Definition final_world (start : World) (r : option (Report * World)) : World :=
  default start (snd <$> r).


(** ** Without delete-missing *)

Lemma IsDir_type_bits (m : FileMode) : IsDir (Z.land m ModeType) = IsDir m.
Proof.
  unfold IsDir. rewrite <- Z.land_assoc.
  replace (Z.land ModeType ModeDir) with ModeDir by (vm_compute; reflexivity). done.
Qed.

Lemma entry_of_IsDir n i : d_IsDir (entry_of n i) = is_dir i.
Proof. unfold d_IsDir, entry_of, is_dir. cbn [de_type]. apply IsDir_type_bits. Qed.

Section NoDelete.
Context `{Limits}.




Lemma apart_not_below opt p :
  roots_apart opt → Source opt `prefix_of` p → strictly_below (Target opt) p = false.
Proof.
  intros [HST HTS] Hp. destruct (strictly_below (Target opt) p) eqn:E; [|done].
  apply strictly_below_prefix in E. destruct (prefix_weak_total _ _ _ Hp E); done.
Qed.



End NoDelete.

Module KeepExample.

(** The scene of [TestDeleteMissing]: [x.txt] in the source, and
    [only-in-dst.txt] in the target. *)
Definition start : World :=
  Examples.world_of
    [([], Examples.dir_node); (["s"], Examples.dir_node); (["t"], Examples.dir_node);
     (["s"; "x.txt"], Examples.file_node 63835596805000000000 [Byte.x78]);
     (["t"; "only-in-dst.txt"], Examples.file_node 63835596807000000000 [Byte.x79])]%string.

Definition opts : Options := mkOptions ["s"] ["t"] false%string.

Definition run := @Sync Examples.limits opts start.


End KeepExample.

(** ** The order of file names *)

Lemma ascii_compare_refl (c : Ascii.ascii) : Ascii.compare c c = Eq.
Proof. unfold Ascii.compare. apply N.compare_refl. Qed.

Lemma string_compare_refl (s : string) : String.compare s s = Eq.
Proof. induction s as [|c s IH]; [done|]. cbn. by rewrite ascii_compare_refl. Qed.

Lemma ascii_compare_Eq (a b : Ascii.ascii) : Ascii.compare a b = Eq ↔ a = b.
Proof.
  split; [apply Ascii.compare_eq_iff|]. intros ->. apply ascii_compare_refl.
Qed.

Lemma ascii_compare_Lt_trans (a b c : Ascii.ascii) :
  Ascii.compare a b = Lt → Ascii.compare b c = Lt → Ascii.compare a c = Lt.
Proof. unfold Ascii.compare. rewrite !N.compare_lt_iff. lia. Qed.

(** [String.leb] read off [String.compare]. *)
Lemma leb_compare (s t : string) :
  String.leb s t = true ↔ String.compare s t ≠ Gt.
Proof. unfold String.leb. destruct (String.compare s t); split; done. Qed.

Lemma string_compare_le_trans (s t u : string) :
  String.compare s t ≠ Gt → String.compare t u ≠ Gt → String.compare s u ≠ Gt.
Proof.
  revert t u. induction s as [|a s IH]; intros [|b t] [|c u]; cbn; try done.
  destruct (Ascii.compare a b) eqn:Eab; [|clear IH|done].
  - apply ascii_compare_Eq in Eab. subst b.
    destruct (Ascii.compare a c) eqn:Eac; [|done|done]. apply IH.
  - intros _. destruct (Ascii.compare b c) eqn:Ebc; [| |done].
    + apply ascii_compare_Eq in Ebc. subst c. by rewrite Eab.
    + by rewrite (ascii_compare_Lt_trans _ _ _ Eab Ebc).
Qed.

#[global] Instance name_le_trans : Transitive name_le.
Proof.
  intros s t u Hst%Is_true_true%leb_compare Htu%Is_true_true%leb_compare.
  apply Is_true_true, leb_compare. by eapply string_compare_le_trans.
Qed.

#[global] Instance name_le_antisym : AntiSymm (=) name_le.
Proof. intros s t Hst%Is_true_true Hts%Is_true_true. by apply String.leb_antisym. Qed.

#[global] Instance name_le_total : Total name_le.
Proof.
  intros s t. unfold name_le. destruct (String.leb_total s t) as [->| ->]; [by left|by right].
Qed.

(** A name comes before itself with something appended. *)
Lemma name_le_app (s t : string) : name_le s (s +:+ t).
Proof.
  apply Is_true_true, leb_compare. induction s as [|c s IH].
  - by destruct t.
  - change (String.compare (String c s) (String c s +:+ t))
      with (match Ascii.compare c c with
            | Eq => String.compare s (s +:+ t)
            | ne => ne
            end).
    by rewrite ascii_compare_refl.
Qed.

Lemma sorted_names (f : FS) (p : path) :
  StronglySorted name_le (merge_sort name_le (names f p)).
Proof. apply StronglySorted_merge_sort; apply _. Qed.

(** ** A walk over a tree that holds still *)

Section Static.
Context `{Limits}.

(** [ReadDir] when no fault is injected. *)
Definition readdir_pure (f : FS) (p : path) : list DirEntry * option error :=
  if too_long p then ([], Some (PathError "open" p ENAMETOOLONG)) else
  match resolve f p with
  | inl e => ([], Some (PathError "open" p e))
  | inr i => if is_dir i then (listing f p, None) else ([], Some (PathError "open" p ENOTDIR))
  end.

(** [Lstat] and [Stat] when no fault is injected. *)
Definition stat_pure (op : string) (f : FS) (p : path) : error + FileInfo :=
  if too_long p then inl (PathError op p ENAMETOOLONG) else
  match resolve f p with
  | inl e => inl (PathError op p e)
  | inr i => inr (info_of i)
  end.

Lemma set_faults_id w : w_faults w = [] → set_faults (tail (w_faults w)) w = w.
Proof. destruct w as [f fl n t l]. unfold set_faults. cbn. intros Hf. subst fl. reflexivity. Qed.

Lemma ReadDir_no_fault p w :
  w_faults w = [] → ReadDir p w = (readdir_pure (w_fs w) p, w).
Proof.
  intros Hf. rewrite (surjective_pairing (ReadDir p w)), ReadDir_world, set_faults_id by done.
  f_equal. unfold ReadDir, readdir_pure, enter, pop_fault. io_unfold. rewrite Hf.
  cbn [head tail default fst snd w_fs set_faults].
  destruct (too_long p); [done|]. destruct (resolve (w_fs w) p) as [e|i]; [done|].
  by destruct (is_dir i).
Qed.

Lemma stat_as_no_fault op p w :
  w_faults w = [] → stat_as op p w = (stat_pure op (w_fs w) p, w).
Proof.
  intros Hf. rewrite (surjective_pairing (stat_as op p w)), stat_as_world, set_faults_id by done.
  f_equal. unfold stat_as, stat_pure, enter, pop_fault. io_unfold. rewrite Hf.
  cbn [head tail default fst snd w_fs set_faults].
  destruct (too_long p); [done|]. change (w_fs (set_faults [] w)) with (w_fs w).
  by destruct (resolve (w_fs w) p) as [e|i].
Qed.

(** The calls of the callback, in order, of a walk from [p] over the
    tree [f]. *)
Fixpoint visits (fuel : nat) (f : FS) (p : path) (d : DirEntry) : list (path * visit) :=
  match fuel with
  | O => []
  | S fuel' =>
    (p, Entry d) ::
    (if d_IsDir d then
       (match snd (readdir_pure f p) with
        | Some e => [(p, Failed (Some d) e)]
        | None => []
        end) ++
       flat_map (λ d1, visits fuel' f (Join p [de_name d1]) d1) (fst (readdir_pure f p))
     else [])
  end.

(** Running a callback that returns no error over a list of calls. *)
Fixpoint run_visits (fn : WalkDirFunc) (l : list (path * visit)) (rep : Report) (w : World) :
    Report * World :=
  match l with
  | [] => (rep, w)
  | (p, v) :: l' =>
    let '((_, rep'), w') := fn p v rep w in run_visits fn l' rep' w'
  end.

Lemma run_visits_app fn l1 l2 rep w :
  run_visits fn (l1 ++ l2) rep w =
  run_visits fn l2 (fst (run_visits fn l1 rep w)) (snd (run_visits fn l1 rep w)).
Proof.
  revert rep w. induction l1 as [|[p v] l1 IH]; intros rep w; cbn; [done|].
  destruct (fn p v rep w) as [[e rep'] w']. apply IH.
Qed.

(** The calls of the callback of [WalkDir] from [root]. *)
Definition root_visits (fuel : nat) (f : FS) (root : path) : list (path * visit) :=
  match stat_pure "lstat" f root with
  | inl err => [(root, Failed None err)]
  | inr info => visits fuel f root (FileInfoToDirEntry root info)
  end.

End Static.

(** ** Listings are canonical *)

Lemma NoDup_omap_inj {A B} (g : A → option B) (l : list A) :
  (∀ x y b, x ∈ l → y ∈ l → g x = Some b → g y = Some b → x = y) →
  NoDup l → NoDup (omap g l).
Proof.
  intros Hinj Hnd. induction Hnd as [|x l Hx Hnd IH]; cbn; [constructor|].
  destruct (g x) as [b|] eqn:Hg.
  - constructor.
    + rewrite list_elem_of_omap. intros (y & Hy & Hgy).
      assert (x = y) as -> by (eapply Hinj; [by left|by right|done..]). done.
    + apply IH. intros ??????. apply Hinj; by try right.
  - apply IH. intros ??????. apply Hinj; by try right.
Qed.

Lemma NoDup_names (f : FS) (p : path) : NoDup (names f p).
Proof.
  unfold names. apply NoDup_fmap_fst.
  - intros n i1 i2 H1%elem_of_entries H2%elem_of_entries. congruence.
  - unfold entries. apply NoDup_omap_inj; [|apply NoDup_map_to_list].
    intros [q1 i1] [q2 i2] [n i] H1%elem_of_map_to_list H2%elem_of_map_to_list.
    cbn [fst snd].
    destruct (child_of p q1) as [n1|] eqn:E1; [|done].
    destruct (child_of p q2) as [n2|] eqn:E2; [|done].
    cbn. intros [= -> ->] [= -> ->].
    apply child_of_Some in E1, E2. subst. congruence.
Qed.

Lemma NoDup_listing_names (f : FS) (p : path) : NoDup (de_name <$> listing f p).
Proof.
  unfold listing.
  assert (∀ l : list string, de_name <$> (entry_at f p <$> l) = l) as ->.
  { induction l as [|n l IH]; [done|]. cbn [fmap list_fmap]. cbn [fmap] in IH.
    by rewrite IH. }
  rewrite merge_sort_Permutation. apply NoDup_names.
Qed.

(** Two trees with the same nodes in a directory list it alike. *)
Lemma listing_agree (f f' : FS) (p : path) :
  (∀ n, f !! (p ++ [n]) = f' !! (p ++ [n])) → listing f p = listing f' p.
Proof.
  intros Hag. unfold listing.
  assert (merge_sort name_le (names f p) = merge_sort name_le (names f' p)) as ->.
  { apply (Sorted_unique name_le); [apply Sorted_merge_sort, _..|].
    rewrite !merge_sort_Permutation.
    apply NoDup_Permutation; [apply NoDup_names..|].
    intros n. by rewrite !elem_of_names, Hag. }
  apply list_fmap_ext. intros ? n _. unfold entry_at, Join. by rewrite Hag.
Qed.

Section StaticWalk.
Context `{Limits}.
Variable root : path.
Variable f0 : FS.
Variable fn : WalkDirFunc.
Variable J : World → Prop.

(** A visit that may touch the very node it visits: an entry that is not
    a directory. *)
Definition is_leaf (v : visit) : bool :=
  match v with
  | Entry d => negb (d_IsDir d)
  | Failed _ _ => false
  end.

(** The world still has the tree [f0] at and below [p]. *)
Definition agrees (w : World) (p : path) : Prop :=
  ∀ x, p `prefix_of` x → w_fs w !! x = f0 !! x.

Hypothesis fn_no_error : ∀ q v rep w, fst (fst (fn q v rep w)) = None.
Hypothesis J_no_fault : ∀ w, J w → w_faults w = [].
Hypothesis J_fn : ∀ q v rep w, root `prefix_of` q → J w →
  J (snd (fn q v rep w)) ∧
  ∀ x, root `prefix_of` x → x ≠ q ∨ is_leaf v = false →
       w_fs (snd (fn q v rep w)) !! x = w_fs w !! x.

Lemma readdir_pure_agree w p :
  agrees w p → is_Some (f0 !! p) → readdir_pure (w_fs w) p = readdir_pure f0 p.
Proof.
  intros Hag [i Hi]. unfold readdir_pure, resolve.
  rewrite (Hag p) by done. rewrite Hi.
  rewrite (listing_agree (w_fs w) f0 p); [done|].
  intros n. apply Hag. by apply prefix_app_r.
Qed.

(** What the static reading of a walk from [p] says of a run of it. *)
Definition static_step (fuel : nat) : Prop :=
  ∀ p d rep w e rep' w',
    root `prefix_of` p → J w → agrees w p → is_Some (f0 !! p) →
    walkDir fuel fn p d rep w = Some (e, rep', w') →
    e = None ∧ (rep', w') = run_visits fn (visits fuel f0 p d) rep w ∧ J w' ∧
    ∀ x, root `prefix_of` x → ¬ p `prefix_of` x → w_fs w' !! x = w_fs w !! x.

Lemma sibling_not_prefix (p x : path) (n1 n2 : string) :
  n1 ≠ n2 → (p ++ [n1]) `prefix_of` x → ¬ (p ++ [n2]) `prefix_of` x.
Proof.
  intros Hne [k1 ->] [k2 Hk2]. rewrite <- !app_assoc in Hk2.
  apply app_inv_head in Hk2. cbn in Hk2. congruence.
Qed.

Lemma walk_entries_static fuel p :
  static_step fuel → root `prefix_of` p →
  ∀ ds rep w e rep' w',
    NoDup (de_name <$> ds) →
    (∀ d1, d1 ∈ ds → is_Some (f0 !! (p ++ [de_name d1]))) →
    J w →
    (∀ d1, d1 ∈ ds → agrees w (p ++ [de_name d1])) →
    walk_entries (λ d1, walkDir fuel fn (Join p [de_name d1]) d1) ds rep w
      = Some (e, rep', w') →
    e = None ∧
    (rep', w') =
      run_visits fn (flat_map (λ d1, visits fuel f0 (Join p [de_name d1]) d1) ds) rep w ∧
    J w' ∧
    ∀ x, root `prefix_of` x → (∀ d1, d1 ∈ ds → ¬ (p ++ [de_name d1]) `prefix_of` x) →
         w_fs w' !! x = w_fs w !! x.
Proof.
  intros Hstep Hp. induction ds as [|d1 ds IH]; intros rep w e rep' w' Hnd Hex HJ Hag Hw.
  - cbn in Hw. simplify_eq. done.
  - cbn [walk_entries] in Hw.
    destruct (walkDir fuel fn (Join p [de_name d1]) d1 rep w) as [[[e1 rep1] w1]|] eqn:E1;
      [|done].
    apply Hstep in E1 as (-> & Hrun1 & HJ1 & Hfr1);
      [|by apply prefix_app_r|done|apply Hag; by left|apply Hex; by left].
    cbn [fmap list_fmap] in Hnd. apply NoDup_cons in Hnd as [Hn1 Hnd].
    apply IH in Hw as (-> & Hrun & HJ' & Hfr); [|done|..|done|].
    + split; [done|]. split_and!; [|done|].
      * cbn [flat_map]. rewrite run_visits_app, <- Hrun1. done.
      * intros x Hx Hnot. rewrite Hfr, Hfr1; [done|done|..|done|].
        -- apply Hnot. by left.
        -- intros d2 Hd2. apply Hnot. by right.
    + intros d2 Hd2. apply Hex. by right.
    + intros d2 Hd2 x Hx. rewrite Hfr1.
      * apply (Hag d2); [by right|done].
      * etrans; [exact Hp|]. etrans; [|exact Hx]. by apply prefix_app_r.
      * unfold Join. eapply sibling_not_prefix; [|exact Hx].
        intros Heq. apply Hn1. rewrite <- Heq. apply list_elem_of_fmap. by exists d2.
Qed.

Lemma walkDir_static fuel : static_step fuel.
Proof.
  induction fuel as [|fuel IH]; intros p d rep w e rep' w' Hp HJ Hag Hex Hw; [done|].
  cbn [walkDir] in Hw. cbn [visits].
  pose proof (fn_no_error p (Entry d) rep w) as He1.
  pose proof (J_fn p (Entry d) rep w Hp HJ) as [HJ1 Hfr1].
  cbn [run_visits].
  destruct (fn p (Entry d) rep w) as [[err rep1] w1]. cbn [fst snd] in He1, HJ1, Hfr1.
  subst err. destruct (d_IsDir d) eqn:Hd; cbn [negb] in Hw.
  2:{ simplify_eq. cbn [run_visits]. split_and!; [done..|].
      intros x Hx Hnot. apply Hfr1; [done|]. left. by intros ->. }
  assert (agrees w1 p) as Hag1.
  { intros x Hx. rewrite Hfr1; [by apply Hag|by etrans|].
    right. cbn [is_leaf]. by rewrite Hd. }
  rewrite (ReadDir_no_fault p w1) in Hw by by apply J_no_fault.
  rewrite (readdir_pure_agree w1 p Hag1 Hex) in Hw.
  destruct (readdir_pure f0 p) as [dirs rerr] eqn:Erd. cbn [fst snd].
  assert (dirs = [] ∨ dirs = listing f0 p) as Hdirs.
  { unfold readdir_pure in Erd. repeat case_match; simplify_eq; auto. }
  assert (NoDup (de_name <$> dirs)) as Hnd.
  { destruct Hdirs as [-> | ->]; [constructor|apply NoDup_listing_names]. }
  assert (∀ d1, d1 ∈ dirs → is_Some (f0 !! (p ++ [de_name d1]))) as Hexc.
  { intros d1 Hin. destruct Hdirs as [-> | ->]; [by apply elem_of_nil in Hin|].
    apply elem_of_listing in Hin as (i & Hi & _). by eexists. }
  assert (∀ w2, J w2 → (∀ x, root `prefix_of` x → w_fs w2 !! x = w_fs w1 !! x) →
    ∀ rep2, walk_entries (λ d1, walkDir fuel fn (Join p [de_name d1]) d1) dirs rep2 w2
              = Some (e, rep', w') →
    e = None ∧
    (rep', w') =
      run_visits fn (flat_map (λ d1, visits fuel f0 (Join p [de_name d1]) d1) dirs) rep2 w2 ∧
    J w' ∧
    ∀ x, root `prefix_of` x → ¬ p `prefix_of` x → w_fs w' !! x = w_fs w2 !! x) as Hloop.
  { intros w2 HJ2 Hsame rep2 Hw2.
    eapply (walk_entries_static fuel p IH Hp) in Hw2 as (-> & Hrun & HJ' & Hfr);
      [|done|done|done|].
    - split_and!; [done..|]. intros x Hx Hnot. apply Hfr; [done|].
      intros d1 _ Hpre. apply Hnot. etrans; [|exact Hpre]. by apply prefix_app_r.
    - intros d1 Hin x Hx. rewrite Hsame.
      + apply Hag1. etrans; [|exact Hx]. by apply prefix_app_r.
      + etrans; [exact Hp|]. etrans; [|exact Hx]. by apply prefix_app_r. }
  destruct rerr as [re|].
  - pose proof (fn_no_error p (Failed (Some d) re) rep1 w1) as He2.
    pose proof (J_fn p (Failed (Some d) re) rep1 w1 Hp HJ1) as [HJ2 Hfr2].
    cbn [app run_visits].
    destruct (fn p (Failed (Some d) re) rep1 w1) as [[err2 rep2] w2].
    cbn [fst snd] in He2, HJ2, Hfr2. subst err2.
    apply Hloop in Hw as (-> & Hrun & HJ' & Hfr); [|done|].
    + split_and!; [done..|]. intros x Hx Hnot.
      rewrite Hfr, Hfr2, Hfr1; [done|done|..]; try done.
      * left. by intros ->.
      * by right.
    + intros x Hx. apply Hfr2; [done|by right].
  - cbn [app]. apply Hloop in Hw as (-> & Hrun & HJ' & Hfr); [|done|done].
    split_and!; [done..|]. intros x Hx Hnot.
    rewrite Hfr, Hfr1; [done|done|..]; try done. left. by intros ->.
Qed.

Lemma stat_pure_Some op f p info : stat_pure op f p = inr info → is_Some (f !! p).
Proof.
  unfold stat_pure, resolve. destruct (too_long p); [done|].
  destruct (f !! p); [by eexists|done].
Qed.

Lemma WalkDir_static fuel rep w e rep' w' :
  J w → w_fs w = f0 →
  WalkDir fuel root fn rep w = Some (e, rep', w') →
  e = None ∧ (rep', w') = run_visits fn (root_visits fuel f0 root) rep w ∧ J w'.
Proof.
  intros HJ Hf0 Hw. unfold WalkDir in Hw. fold (stat_as "lstat" root w) in Hw.
  unfold Lstat in Hw. rewrite (stat_as_no_fault "lstat" root w) in Hw by by apply J_no_fault.
  unfold root_visits. rewrite Hf0 in Hw.
  destruct (stat_pure "lstat" f0 root) as [err|info] eqn:Est.
  - pose proof (fn_no_error root (Failed None err) rep w) as He1.
    pose proof (J_fn root (Failed None err) rep w (reflexivity _) HJ) as [HJ1 _].
    cbn [run_visits].
    destruct (fn root (Failed None err) rep w) as [[e1 rep1] w1]. cbn [fst snd] in *.
    by simplify_eq.
  - apply walkDir_static in Hw as (-> & Hrun & HJ' & _); [done..| |by eapply stat_pure_Some].
    intros x _. by rewrite Hf0.
Qed.

End StaticWalk.

(** ** What the calls do when they succeed *)

Section Success.
Context `{Limits}.

Lemma stat_as_inr op p w info :
  fst (stat_as op p w) = inr info →
  ∃ i, w_fs w !! p = Some i ∧ info = info_of i ∧ too_long p = false.
Proof.
  unfold stat_as, resolve. kernel_cases; intros [= <-]; eauto.
Qed.

Lemma stat_as_inl_not_exist op p w err :
  w_faults w = [] → fst (stat_as op p w) = inl err → Is_ErrNotExist err = true →
  w_fs w !! p = None.
Proof.
  intros Hf. rewrite stat_as_no_fault by done. cbn [fst].
  unfold stat_pure, resolve. destruct (too_long p); [by intros [= <-]|].
  destruct (w_fs w !! p); [done|]. done.
Qed.

(** A directory made by [Mkdir]. *)
Definition new_dir (perm : FileMode) (now : Time) : inode :=
  mkInode (Z.lor ModeDir (Perm perm)) now [].

Lemma new_dir_is_dir perm now : is_dir (new_dir perm now) = true.
Proof.
  unfold is_dir, new_dir, IsDir. cbn [i_mode].
  rewrite Z.land_lor_distr_l.
  replace (Z.land ModeDir ModeDir) with ModeDir by (vm_compute; reflexivity).
  apply negb_true_iff, Z.eqb_neq. intros Heq.
  apply (f_equal (λ z, Z.testbit z 31)) in Heq.
  rewrite Z.lor_spec in Heq.
  replace (Z.testbit ModeDir 31) with true in Heq by (vm_compute; reflexivity).
  done.
Qed.

Lemma Mkdir_ok p perm w :
  fst (Mkdir p perm w) = None →
  w_fs w !! p = None ∧
  w_fs (snd (Mkdir p perm w)) = <[p := new_dir perm (w_now w)]> (w_fs w).
Proof. unfold Mkdir, new_dir. kernel_cases; done. Qed.

Lemma Mkdir_failed p perm w e :
  fst (Mkdir p perm w) = Some e → w_fs (snd (Mkdir p perm w)) = w_fs w.
Proof. unfold Mkdir. kernel_cases; done. Qed.

Lemma Mkdir_rest p perm w :
  w_log (snd (Mkdir p perm w)) = w_log w ∧ w_now (snd (Mkdir p perm w)) = w_now w ∧
  w_faults (snd (Mkdir p perm w)) = tail (w_faults w).
Proof. unfold Mkdir. kernel_cases; done. Qed.

(** From [w] to [w'] the tree has only gained directories, at prefixes
    of [p] where nothing was. *)
Definition grows_dirs (p : path) (w w' : World) : Prop :=
  w_log w' = w_log w ∧ w_now w' = w_now w ∧
  (w_faults w = [] → w_faults w' = []) ∧
  ∀ x, w_fs w' !! x = w_fs w !! x ∨
       (w_fs w !! x = None ∧ x `prefix_of` p ∧ ∃ i, w_fs w' !! x = Some i ∧ is_dir i = true).

Lemma grows_dirs_refl p w : grows_dirs p w w.
Proof. unfold grows_dirs. split_and!; auto. Qed.

Lemma grows_dirs_trans p w1 w2 w3 :
  grows_dirs p w1 w2 → grows_dirs p w2 w3 → grows_dirs p w1 w3.
Proof.
  intros (L1 & N1 & F1 & G1) (L2 & N2 & F2 & G2). unfold grows_dirs.
  split_and!; [congruence|congruence|auto|].
  intros x. destruct (G2 x) as [E2|(E2 & Hx & i & Hi & Hd)].
  - destruct (G1 x) as [E1|(E1 & Hx & i & Hi & Hd)].
    + left. congruence.
    + right. split_and!; [done..|]. exists i. by rewrite E2.
  - destruct (G1 x) as [E1|(E1 & _ & j & Hj & _)]; [|congruence].
    right. split_and!; [congruence|done|]. by exists i.
Qed.

Lemma MkdirAll_grows p perm w : grows_dirs p w (snd (MkdirAll p perm w)).
Proof.
  apply (MkdirAll_rec_reach (grows_dirs p w)).
  - apply grows_dirs_refl.
  - intros w0 Hg. eapply grows_dirs_trans; [exact Hg|].
    unfold grows_dirs. cbn [set_faults w_log w_now w_faults w_fs].
    split_and!; auto. by intros ->.
  - intros q w0 Hq Hg. eapply grows_dirs_trans; [exact Hg|].
    destruct (Mkdir_rest q perm w0) as (Hl & Hn & Hf).
    unfold grows_dirs. split_and!; [done|done|by rewrite Hf; intros ->|].
    intros x. destruct (fst (Mkdir q perm w0)) as [e|] eqn:E.
    + left. by rewrite (Mkdir_failed _ _ _ _ E).
    + destruct (Mkdir_ok _ _ _ E) as [Hnone ->].
      destruct (decide (x = q)) as [->|Hne].
      * right. split_and!; [done..|]. eexists. rewrite lookup_insert_eq.
        split; [done|apply new_dir_is_dir].
      * left. by apply lookup_insert_ne.
Qed.

Lemma MkdirAll_ok p perm w :
  fst (MkdirAll p perm w) = None →
  ∃ i, w_fs (snd (MkdirAll p perm w)) !! p = Some i ∧ is_dir i = true.
Proof.
  destruct (MkdirAll p perm w) as [r w'] eqn:E. cbn [fst snd]. intros ->.
  revert E. unfold MkdirAll. generalize (length p) as n. intros n.
  assert (∀ w0,
    (let* err := Mkdir p perm in
     match err with
     | None => ret None
     | Some err =>
       let* st1 := Lstat p in
       match st1 with
       | inr dir => if IsDir (Mode dir) then ret None else ret (Some err)
       | inl _ => ret (Some err)
       end
     end)%io w0 = (None, w') →
    ∃ i, w_fs w' !! p = Some i ∧ is_dir i = true) as Htail.
  { intros w0. unfold bind at 1.
    pose proof (Mkdir_ok p perm w0) as Hok.
    destruct (Mkdir p perm w0) as [[err|] w1]; cbn [fst snd] in Hok.
    - unfold bind. pose proof (stat_as_inr "lstat" p w1) as Hin.
      pose proof (stat_as_fs "lstat" p w1) as Hfs. fold (Lstat p w1) in Hin, Hfs.
      destruct (Lstat p w1) as [[e1|d1] w2]; cbn [fst snd] in *; [done|].
      destruct (Hin _ eq_refl) as (i & Hi & -> & _).
      destruct (IsDir (Mode (info_of i))) eqn:Hd; [|done].
      unfold ret. intros [= <-]. exists i. split; [congruence|exact Hd].
    - unfold ret. intros [= <-]. destruct (Hok eq_refl) as [_ ->].
      eexists. rewrite lookup_insert_eq. split; [done|apply new_dir_is_dir]. }
  destruct n as [|n]; cbn [MkdirAll_rec]; unfold bind at 1.
  all: pose proof (stat_as_inr "stat" p w) as Hin;
    pose proof (stat_as_fs "stat" p w) as Hfs; fold (Stat p w) in Hin, Hfs;
    destruct (Stat p w) as [[e|dir] w1]; cbn [fst snd] in *.
  2,4: destruct (Hin _ eq_refl) as (i & Hi & -> & _);
    destruct (IsDir (Mode (info_of i))) eqn:Hd; [|done];
    unfold ret; intros [= <-]; exists i; split; [congruence|exact Hd].
  - unfold bind at 1, ret at 1. apply Htail.
  - unfold bind at 1.
    destruct ((if bool_decide (1 < length p)%nat
               then MkdirAll_rec n (Dir p) perm else ret None) w1) as [[perr|] w1'];
      [done|]. apply Htail.
Qed.

Lemma MkdirAll_existing p perm w i :
  w_faults w = [] → w_fs w !! p = Some i → is_dir i = true → too_long p = false →
  MkdirAll p perm w = (None, w).
Proof.
  intros Hf Hi Hd Hl. unfold MkdirAll.
  assert (Stat p w = (inr (info_of i), w)) as Hs.
  { unfold Stat. rewrite stat_as_no_fault by done. unfold stat_pure, resolve.
    by rewrite Hl, Hi. }
  destruct (length p); cbn [MkdirAll_rec]; unfold bind at 1; rewrite Hs;
    change (IsDir (Mode (info_of i))) with (is_dir i); by rewrite Hd.
Qed.

Lemma Perm_not_dir (m : FileMode) : IsDir (Perm m) = false.
Proof.
  unfold IsDir, Perm. rewrite <- Z.land_assoc.
  replace (Z.land ModePerm ModeDir) with 0 by (vm_compute; reflexivity).
  by rewrite Z.land_0_r.
Qed.

Lemma Open_ok p w fl :
  fst (Open p w) = inr fl → fl = p ∧ is_Some (w_fs w !! p).
Proof.
  unfold Open, resolve. kernel_cases; intros [= <-]; eauto.
Qed.

Lemma OpenFile_ok p perm w fl :
  fst (OpenFile_create_trunc p perm w) = inr fl →
  ∃ m, IsDir m = false ∧
    w_fs (snd (OpenFile_create_trunc p perm w)) = <[p := mkInode m (w_now w) []]> (w_fs w).
Proof.
  unfold OpenFile_create_trunc. kernel_cases; intros Heq; simplify_eq.
  - eexists. split; [|done]. unfold is_dir in *. done.
  - eexists. split; [|done]. apply Perm_not_dir.
Qed.

Lemma io_Copy_ok df sf w n :
  fst (io_Copy df sf w) = (n, None) →
  ∃ s, w_fs w !! sf = Some s ∧ is_dir s = false ∧
    ((∃ t, w_fs w !! df = Some t ∧
        w_fs (snd (io_Copy df sf w)) = <[df := mkInode (i_mode t) (w_now w) (i_data s)]> (w_fs w))
     ∨ (w_fs w !! df = None ∧ w_fs (snd (io_Copy df sf w)) = w_fs w)).
Proof.
  unfold io_Copy, write_data. kernel_cases; intros Heq; simplify_eq;
    eexists; split_and!; eauto.
Qed.

Lemma Chtimes_ok p a m w :
  fst (Chtimes p a m w) = None →
  ∃ t, w_fs w !! p = Some t ∧
    w_fs (snd (Chtimes p a m w)) =
      <[p := mkInode (i_mode t) (set_mtime m (i_mtime t)) (i_data t)]> (w_fs w).
Proof.
  unfold Chtimes, resolve. kernel_cases; intros Heq; simplify_eq; eauto.
Qed.

Lemma Rename_ok old new w :
  fst (Rename old new w) = None →
  ∃ t, w_fs w !! old = Some t ∧
    w_fs (snd (Rename old new w)) = <[new := t]> (delete old (w_fs w)).
Proof.
  unfold Rename, resolve. kernel_cases; intros Heq; simplify_eq; eauto.
Qed.

Lemma Remove_ok p w :
  fst (Remove p w) = None → w_fs (snd (Remove p w)) = delete p (w_fs w).
Proof. unfold Remove. kernel_cases; done. Qed.

Lemma Remove_failed p w e :
  fst (Remove p w) = Some e → w_fs (snd (Remove p w)) = w_fs w.
Proof. unfold Remove. kernel_cases; done. Qed.

(** Calls of the kernel leave the log and the clock alone, and an empty
    fault script empty. *)
Definition quiet (w w' : World) : Prop :=
  w_log w' = w_log w ∧ w_now w' = w_now w ∧ (w_faults w = [] → w_faults w' = []).

#[global] Instance quiet_preorder : PreOrder quiet.
Proof.
  split.
  - intros w. unfold quiet. auto.
  - intros w1 w2 w3 (?&?&?) (?&?&?). unfold quiet. split_and!; [congruence..|auto].
Qed.

Lemma bind_rel {A B} (R : relation World) `{!PreOrder R} (m : IO A) (k : A → IO B) w :
  R w (snd (m w)) →
  (∀ a w1, m w = (a, w1) → R w1 (snd (k a w1))) →
  R w (snd (bind m k w)).
Proof.
  intros Hm Hk. unfold bind. destruct (m w) as [a w1]; cbn [snd] in *.
  etrans; [exact Hm|]. by apply Hk.
Qed.

Lemma quiet_set_faults w : quiet w (set_faults (tail (w_faults w)) w).
Proof. unfold quiet. cbn. split_and!; [done..|]. by intros ->. Qed.

Lemma stat_as_quiet op p w : quiet w (snd (stat_as op p w)).
Proof. rewrite stat_as_world. apply quiet_set_faults. Qed.
Lemma Open_quiet p w : quiet w (snd (Open p w)).
Proof. rewrite Open_world. apply quiet_set_faults. Qed.
Lemma Close_quiet fl w : quiet w (snd (Close fl w)).
Proof. rewrite Close_world. apply quiet_set_faults. Qed.
Lemma ReadDir_quiet p w : quiet w (snd (ReadDir p w)).
Proof. rewrite ReadDir_world. apply quiet_set_faults. Qed.

Ltac quiet_call := unfold quiet; kernel_cases; split_and!; try done; by intros ->.

Lemma Mkdir_quiet p perm w : quiet w (snd (Mkdir p perm w)).
Proof. unfold Mkdir. quiet_call. Qed.
Lemma OpenFile_quiet p perm w : quiet w (snd (OpenFile_create_trunc p perm w)).
Proof. unfold OpenFile_create_trunc. quiet_call. Qed.
Lemma io_Copy_quiet df sf w : quiet w (snd (io_Copy df sf w)).
Proof. unfold io_Copy, write_data. quiet_call. Qed.
Lemma Chtimes_quiet p a m w : quiet w (snd (Chtimes p a m w)).
Proof. unfold Chtimes. quiet_call. Qed.
Lemma Rename_quiet old new w : quiet w (snd (Rename old new w)).
Proof. unfold Rename. quiet_call. Qed.
Lemma Remove_quiet p w : quiet w (snd (Remove p w)).
Proof. unfold Remove. quiet_call. Qed.

Lemma MkdirAll_quiet p perm w : quiet w (snd (MkdirAll p perm w)).
Proof.
  apply (MkdirAll_rec_reach (quiet w)); [reflexivity|..].
  - intros w0 Hq. etrans; [exact Hq|apply quiet_set_faults].
  - intros q w0 _ Hq. etrans; [exact Hq|apply Mkdir_quiet].
Qed.

Lemma ret_rel {A} (R : relation World) `{!PreOrder R} (a : A) w : R w (snd (ret a w)).
Proof. reflexivity. Qed.

Lemma copyFile_quiet src dst info w : quiet w (snd (copyFile src dst info w)).
Proof.
  unfold copyFile.
  apply bind_rel; [apply _|apply MkdirAll_quiet|]. intros [err|] w1 _; [reflexivity|].
  apply bind_rel; [apply _|apply Open_quiet|]. intros [err|sf] w2 _; [reflexivity|].
  apply bind_rel; [apply _| |].
  2:{ intros r w3 _. apply bind_rel; [apply _|apply Close_quiet|]. intros; reflexivity. }
  apply bind_rel; [apply _|apply OpenFile_quiet|]. intros [err|df] w3 _; [reflexivity|].
  apply bind_rel; [apply _|apply io_Copy_quiet|]. intros [n cErr] w4 _. cbn [snd].
  apply bind_rel; [apply _|apply Close_quiet|]. intros cCloseErr w5 _.
  assert (∀ (r : option error) w6,
    quiet w6 (snd (bind (Remove (tmp_path dst)) (λ _, ret r) w6))) as Hcleanup.
  { intros r w6. apply bind_rel; [apply _|apply Remove_quiet|]. intros; reflexivity. }
  destruct cErr; [apply Hcleanup|]. destruct cCloseErr; [apply Hcleanup|].
  apply bind_rel; [apply _|reflexivity|]. intros now w6 _.
  apply bind_rel; [apply _|apply Chtimes_quiet|]. intros [err|] w7 _; [apply Hcleanup|].
  apply bind_rel; [apply _|apply Rename_quiet|]. intros [err|] w8 _; [apply Hcleanup|].
  reflexivity.
Qed.

(** A successful [copyFile]: the destination holds the bytes of the
    source and the modification time asked for, the temporary file is gone,
    and nothing else changed past the directories made on the way. *)
Lemma copyFile_ok src dst info w :
  src ≠ tmp_path dst →
  fst (copyFile src dst info w) = None →
  ∃ w1 s m,
    grows_dirs (Dir dst) w w1 ∧
    w_fs w1 !! src = Some s ∧ is_dir s = false ∧ IsDir m = false ∧
    w_fs (snd (copyFile src dst info w)) !! dst =
      Some (mkInode m (set_mtime (ModTime info) (w_now w)) (i_data s)) ∧
    w_fs (snd (copyFile src dst info w)) !! tmp_path dst = None ∧
    ∀ x, x ≠ dst → x ≠ tmp_path dst →
         w_fs (snd (copyFile src dst info w)) !! x = w_fs w1 !! x.
Proof.
  intros Hsrc.
  destruct (copyFile src dst info w) as [r w'] eqn:E. cbn [fst snd]. intros ->.
  revert E. unfold copyFile. unfold bind at 1.
  pose proof (MkdirAll_grows (Dir dst) 493 w) as Hg.
  destruct (MkdirAll (Dir dst) 493 w) as [[err|] w1]; cbn [snd] in Hg; [done|].
  unfold bind at 1.
  pose proof (Open_ok src w1) as Hop. pose proof (Open_world src w1) as Hw2.
  destruct (Open src w1) as [[err|sf] w2]; cbn [fst snd] in *; [done|].
  destruct (Hop _ eq_refl) as [-> [s Hs]]. clear Hop. subst w2.
  unfold bind at 1. unfold bind at 1.
  pose proof (OpenFile_ok (tmp_path dst) (Perm (Mode info))
                (set_faults (tail (w_faults w1)) w1)) as Hof.
  pose proof (OpenFile_handle (tmp_path dst) (Perm (Mode info))
                (set_faults (tail (w_faults w1)) w1)) as Hh.
  pose proof (OpenFile_quiet (tmp_path dst) (Perm (Mode info))
                (set_faults (tail (w_faults w1)) w1)) as (_ & Hn3 & _).
  destruct (OpenFile_create_trunc _ _ _) as [[err|df] w3]; cbn [fst snd] in *.
  { unfold ret at 1. unfold bind at 1. destruct (Close src w3). done. }
  destruct (Hof _ eq_refl) as (m & Hm & Hfs3). specialize (Hh _ eq_refl). subst df.
  clear Hof. cbn [set_faults w_fs w_now] in Hfs3, Hn3.
  assert (w_now w3 = w_now w) as Hnow by (destruct Hg as (_ & Hn1 & _); congruence).
  unfold bind at 1.
  pose proof (io_Copy_ok (tmp_path dst) src w3) as Hcp.
  destruct (io_Copy (tmp_path dst) src w3) as [[n cErr] w4]; cbn [fst snd] in *.
  unfold bind at 1.
  pose proof (Close_world (tmp_path dst) w4) as Hw5.
  destruct (Close (tmp_path dst) w4) as [cCloseErr w5]; cbn [fst snd] in *. subst w5.
  assert (∀ (r0 : error) w6, 
    (let '(a, w7) := bind (Remove (tmp_path dst)) (λ _, ret (Some r0)) w6 in
     bind (Close src) (λ _, ret a) w7) = (None, w') → False) as Hcleanup.
  { intros r0 w6. unfold bind, ret. destruct (Remove _ w6). destruct (Close src _). done. }
  destruct cErr as [cErr|]; [intros E; by apply Hcleanup in E|].
  destruct cCloseErr as [cCloseErr|]; [intros E; by apply Hcleanup in E|].
  destruct (Hcp _ eq_refl) as (s' & Hs' & Hds' & Hfs4). clear Hcp.
  assert (s' = s) as ->.
  { rewrite Hfs3, lookup_insert_ne in Hs' by done. congruence. }
  destruct Hfs4 as [(t & Ht & Hfs4)|[Ht _]];
    [|by rewrite Hfs3, lookup_insert_eq in Ht].
  rewrite Hfs3, lookup_insert_eq in Ht. injection Ht as <-. cbn [i_mode] in Hfs4.
  unfold bind at 1. unfold Now at 1, gets at 1. unfold bind at 1.
  pose proof (Chtimes_ok (tmp_path dst) (w_now (set_faults (tail (w_faults w4)) w4))
                (ModTime info) (set_faults (tail (w_faults w4)) w4)) as Hch.
  destruct (Chtimes _ _ _ _) as [[err|] w6]; cbn [fst snd] in *;
    [intros E; by apply Hcleanup in E|].
  destruct (Hch eq_refl) as (t & Ht & Hfs6). clear Hch.
  cbn [set_faults w_fs] in Ht, Hfs6.
  rewrite Hfs4, lookup_insert_eq in Ht. injection Ht as <-. cbn [i_mode i_data] in Hfs6.
  unfold bind at 1.
  pose proof (Rename_ok (tmp_path dst) dst w6) as Hrn.
  destruct (Rename (tmp_path dst) dst w6) as [[err|] w7]; cbn [fst snd] in *;
    [intros E; by apply Hcleanup in E|].
  destruct (Hrn eq_refl) as (t & Ht & Hfs7). clear Hrn.
  rewrite Hfs6, lookup_insert_eq in Ht. injection Ht as <-.
  unfold ret at 1. unfold bind at 1.
  pose proof (Close_world src w7) as Hw8.
  destruct (Close src w7) as [cr w8]; cbn [snd] in Hw8. subst w8.
  unfold ret. intros [= <-]. cbn [set_faults w_fs].
  exists w1, s, m. split_and!; [done..| | |].
  - by rewrite Hfs7, lookup_insert_eq, Hnow.
  - rewrite Hfs7, lookup_insert_ne by apply not_eq_sym, tmp_path_ne.
    by rewrite lookup_delete_eq.
  - intros x Hx1 Hx2.
    rewrite Hfs7, lookup_insert_ne, lookup_delete_ne by done.
    rewrite Hfs6, lookup_insert_ne by done.
    rewrite Hfs4, lookup_insert_ne by done.
    rewrite Hfs3, lookup_insert_ne by done. done.
Qed.

End Success.

(** ** The calls of a walk, as a list *)

Lemma elem_of_flat_map {A B} (g : A → list B) (l : list A) (b : B) :
  b ∈ flat_map g l ↔ ∃ a, a ∈ l ∧ b ∈ g a.
Proof.
  induction l as [|a l IH]; cbn [flat_map].
  - split; [by intros ?%elem_of_nil|]. by intros (a & ?%elem_of_nil & _).
  - rewrite elem_of_app, IH. split.
    + intros [Hb|(a' & Ha' & Hb)]; [exists a; split; [by left|done]|].
      exists a'. split; [by right|done].
    + intros (a' & [->|Ha']%elem_of_cons & Hb); [by left|]. right. by exists a'.
Qed.

Section VisitList.
Context `{Limits}.

(** What a listing shows is what [readdir_pure] hands on. *)
Lemma readdir_pure_entries f p d1 :
  d1 ∈ fst (readdir_pure f p) →
  snd (readdir_pure f p) = None ∧
  ∃ i, f !! (p ++ [de_name d1]) = Some i ∧ d1 = entry_of (de_name d1) i.
Proof.
  unfold readdir_pure. destruct (too_long p); [by intros ?%elem_of_nil|].
  destruct (resolve f p) as [e|i]; [by intros ?%elem_of_nil|].
  destruct (is_dir i); [|by intros ?%elem_of_nil].
  cbn [fst snd]. intros Hin%elem_of_listing. done.
Qed.

Lemma listing_names f p : de_name <$> listing f p = merge_sort name_le (names f p).
Proof.
  unfold listing. induction (merge_sort name_le (names f p)) as [|n l IH]; [done|].
  cbn [fmap list_fmap]. cbn [fmap] in IH. by rewrite IH.
Qed.

(** Every call is at or below the start of the walk, and below the start
    an entry shown is the entry of the node there. *)
Lemma visits_sound fuel f p d q v :
  (q, v) ∈ visits fuel f p d →
  p `prefix_of` q ∧
  ∀ d', v = Entry d' →
    (q = p ∧ d' = d) ∨
    (q ≠ p ∧ ∃ i, f !! q = Some i ∧ d' = entry_of (de_name d') i).
Proof.
  revert p d. induction fuel as [|fuel IH]; intros p d; cbn [visits];
    [by intros ?%elem_of_nil|].
  intros [Heq|Hin]%elem_of_cons.
  { simplify_eq. split; [done|]. intros d' [= <-]. by left. }
  destruct (d_IsDir d); [|by apply elem_of_nil in Hin].
  apply elem_of_app in Hin as [Hin|Hin].
  { destruct (snd (readdir_pure f p)); [|by apply elem_of_nil in Hin].
    apply list_elem_of_singleton in Hin. simplify_eq. split; [done|]. by intros d' [=]. }
  apply elem_of_flat_map in Hin as (d1 & Hd1 & Hin).
  apply readdir_pure_entries in Hd1 as (_ & i & Hi & Hd1).
  apply IH in Hin as [Hpre Hent]. unfold Join in *.
  assert (q ≠ p) as Hne.
  { intros ->. apply prefix_length in Hpre. rewrite length_app in Hpre. cbn in Hpre. lia. }
  split; [etrans; [|exact Hpre]; by apply prefix_app_r|].
  intros d' Hv. right. split; [done|].
  destruct (Hent d' Hv) as [[-> ->]|[_ Hex]]; [|done].
  by exists i.
Qed.

(** Two calls of a walk that do not get into each other's way: the later
    one shows an entry at another path, whose temporary sibling is not the
    path of the earlier one either. *)
Definition clear_of (a b : path * visit) : Prop :=
  ∀ d, b.2 = Entry d → a.1 ≠ b.1 ∧ a.1 ≠ add_suffix b.1 tmp_suffix.

Lemma add_suffix_below (p k : path) s : k ≠ [] → p `prefix_of` add_suffix (p ++ k) s.
Proof. intros Hk. rewrite add_suffix_app by done. by apply prefix_app_r. Qed.

Lemma name_suffix_not_le (n : string) : ¬ name_le (n +:+ tmp_suffix) n.
Proof.
  intros Hle. pose proof (name_le_app n tmp_suffix) as Hle'.
  pose proof (anti_symm name_le _ _ Hle Hle') as Heq.
  apply (f_equal String.length) in Heq. rewrite string_app_length in Heq.
  cbn in Heq. lia.
Qed.

Lemma siblings_clear (p : path) (n1 n2 : string) a b :
  n1 ≠ n2 → name_le n1 n2 →
  (p ++ [n1]) `prefix_of` a.1 → (p ++ [n2]) `prefix_of` b.1 → clear_of a b.
Proof.
  intros Hne Hle Ha [k Hb] d _. split.
  - intros Heq. rewrite Heq in Ha.
    eapply (sibling_not_prefix p b.1 n1 n2); [done|done|by exists k].
  - rewrite Hb. destruct k as [|x k].
    + rewrite app_nil_r, add_suffix_snoc. intros Heq. rewrite Heq in Ha.
      destruct Ha as [k' Hk']. rewrite <- app_assoc in Hk'.
      apply app_inv_head in Hk'. cbn in Hk'. simplify_eq.
      by apply (name_suffix_not_le n2).
    + intros Heq. rewrite Heq in Ha.
      eapply (sibling_not_prefix p _ n1 n2); [done|exact Ha|].
      apply add_suffix_below. done.
Qed.

Lemma readdir_pure_sorted f p :
  StronglySorted name_le (de_name <$> fst (readdir_pure f p)) ∧
  NoDup (de_name <$> fst (readdir_pure f p)).
Proof.
  unfold readdir_pure. repeat case_match; cbn [fst fmap list_fmap];
    try (split; constructor).
  split; [|apply NoDup_listing_names].
  rewrite listing_names. apply sorted_names.
Qed.

Lemma flat_map_clear (g : DirEntry → list (path * visit)) (p : path) (ds : list DirEntry) :
  (∀ d1 a, a ∈ g d1 → (p ++ [de_name d1]) `prefix_of` a.1) →
  (∀ d1, StronglySorted clear_of (g d1)) →
  StronglySorted name_le (de_name <$> ds) → NoDup (de_name <$> ds) →
  StronglySorted clear_of (flat_map g ds).
Proof.
  intros Hg Hss. induction ds as [|d1 ds IHds]; cbn [flat_map]; [constructor|].
  cbn [fmap list_fmap]. intros [Hs1 Hsort]%StronglySorted_cons [Hn1 Hnd]%NoDup_cons.
  apply StronglySorted_app_2; [|apply Hss|by apply IHds].
  intros a b Ha (d2 & Hd2 & Hb)%elem_of_flat_map.
  apply (siblings_clear p (de_name d1) (de_name d2)); [| |by apply Hg..].
  - intros Heq. apply Hn1. rewrite Heq. apply list_elem_of_fmap. by exists d2.
  - rewrite Forall_forall in Hs1. apply Hs1. apply list_elem_of_fmap. by exists d2.
Qed.

(** The calls of a walk are in an order in which no call gets into the
    way of an earlier one. *)
Lemma visits_clear fuel f p d : StronglySorted clear_of (visits fuel f p d).
Proof.
  revert p d. induction fuel as [|fuel IH]; intros p d; cbn [visits]; [constructor|].
  assert (∀ b, b ∈ flat_map (λ d1, visits fuel f (Join p [de_name d1]) d1)
                      (fst (readdir_pure f p)) →
          ∃ n, (p ++ [n]) `prefix_of` b.1) as Hbelow.
  { intros [q v] (d1 & _ & Hin)%elem_of_flat_map. apply visits_sound in Hin as [Hpre _].
    by exists (de_name d1). }
  assert (∀ (a : path * visit) b, a.1 = p →
          b ∈ flat_map (λ d1, visits fuel f (Join p [de_name d1]) d1)
                (fst (readdir_pure f p)) → clear_of a b) as Hhead.
  { intros a b Ha [n [k Hk]]%Hbelow d' _. rewrite Ha, Hk, <- app_assoc. split.
    - intros Heq. apply (f_equal length) in Heq. rewrite length_app in Heq. cbn in Heq. lia.
    - intros Heq. apply (f_equal length) in Heq.
      rewrite add_suffix_length, length_app in Heq. cbn in Heq. lia. }
  assert (StronglySorted clear_of
            (flat_map (λ d1, visits fuel f (Join p [de_name d1]) d1)
               (fst (readdir_pure f p)))) as Hkids.
  { destruct (readdir_pure_sorted f p) as [Hsort Hnd].
    apply (flat_map_clear _ p); [|done..].
    intros d1 [q v] Hin. by apply visits_sound in Hin as [Hpre _]. }
  apply StronglySorted_cons. split.
  - apply Forall_forall. intros b Hb. destruct (d_IsDir d); [|by apply elem_of_nil in Hb].
    apply elem_of_app in Hb as [Hb|Hb]; [|by apply Hhead].
    destruct (snd (readdir_pure f p)); [|by apply elem_of_nil in Hb].
    apply list_elem_of_singleton in Hb. subst b. by intros d' [=].
  - destruct (d_IsDir d); [|constructor].
    apply StronglySorted_app_2; [| |done].
    + intros a b Ha Hb. apply Hhead; [|done].
      destruct (snd (readdir_pure f p)); [|by apply elem_of_nil in Ha].
      apply list_elem_of_singleton in Ha. by subst a.
    + destruct (snd (readdir_pure f p)); repeat constructor.
Qed.

(** A walk that meets no failure shows every node at or below its start. *)
Lemma visits_complete fuel f p d :
  wf f → (path_max + 2 ≤ fuel + length p)%nat → fuel ≠ 0%nat →
  (∀ q dd e, (q, Failed dd e) ∉ visits fuel f p d) →
  (∀ i, f !! p = Some i → d_IsDir d = is_dir i) →
  ∀ q, p `prefix_of` q → is_Some (f !! q) → ∃ d', (q, Entry d') ∈ visits fuel f p d.
Proof.
  intros Hwf. revert p d. induction fuel as [|fuel IH]; intros p d Hfuel Hpos Hnf Hd q [k ->] Hq;
    [done|].
  cbn [visits] in *. destruct k as [|n r].
  { rewrite app_nil_r. exists d. by left. }
  assert (is_Some (f !! (p ++ [n]))) as [i1 Hi1].
  { eapply wf_prefix; [done|exact Hq|]. exists r. by rewrite <- app_assoc. }
  destruct (Hwf _ _ Hi1) as (dn & Hdn & Hdir); [by destruct p|].
  unfold Dir in Hdn. rewrite removelast_last in Hdn.
  rewrite (Hd _ Hdn), Hdir in *.
  destruct (readdir_pure f p) as [ds rerr] eqn:Erd. cbn [fst snd] in *.
  destruct rerr as [e|].
  { exfalso. apply (Hnf p (Some d) e). right. by left. }
  cbn [app] in *.
  assert (too_long p = false ∧ ds = listing f p) as [Hlen ->].
  { unfold readdir_pure, resolve in Erd. rewrite Hdn, Hdir in Erd.
    destruct (too_long p); by simplify_eq. }
  assert (entry_of n i1 ∈ listing f p) as Hin.
  { apply elem_of_listing. exists i1. done. }
  destruct (IH (p ++ [n]) (entry_of n i1)) with (q := (p ++ [n]) ++ r) as [d' Hd'].
  - rewrite length_app. cbn. unfold too_long in Hlen. apply bool_decide_eq_false in Hlen. lia.
  - unfold too_long in Hlen. apply bool_decide_eq_false in Hlen. lia.
  - intros q' dd e Hin'. apply (Hnf q' dd e). right.
    apply elem_of_flat_map. exists (entry_of n i1). split; [done|]. exact Hin'.
  - intros i Hi. rewrite entry_of_IsDir. congruence.
  - by apply prefix_app_r.
  - by rewrite <- app_assoc.
  - exists d'. right. apply elem_of_flat_map. exists (entry_of n i1). split; [done|].
    rewrite <- app_assoc in Hd'. exact Hd'.
Qed.

Lemma root_visits_sound fuel f root q d' :
  (q, Entry d') ∈ root_visits fuel f root →
  root `prefix_of` q ∧
  (q = root ∨ q ≠ root ∧ ∃ i, f !! q = Some i ∧ d' = entry_of (de_name d') i).
Proof.
  unfold root_visits. destruct (stat_pure "lstat" f root) as [err|info].
  { intros Hin%list_elem_of_singleton. done. }
  intros [Hpre Hent]%visits_sound. split; [done|].
  destruct (Hent d' eq_refl) as [[-> _]|[? ?]]; [by left|by right].
Qed.

Lemma root_visits_clear fuel f root : StronglySorted clear_of (root_visits fuel f root).
Proof.
  unfold root_visits. destruct (stat_pure "lstat" f root); [repeat constructor|].
  apply visits_clear.
Qed.

Lemma root_visits_complete f root :
  wf f →
  (∀ q dd e, (q, Failed dd e) ∉ root_visits walk_fuel f root) →
  ∀ q, root `prefix_of` q → is_Some (f !! q) →
       ∃ d', (q, Entry d') ∈ root_visits walk_fuel f root.
Proof.
  intros Hwf Hnf q Hpre Hq. unfold root_visits in *.
  destruct (stat_pure "lstat" f root) as [err|info] eqn:Est.
  { exfalso. apply (Hnf root None err). by left. }
  unfold stat_pure, resolve in Est.
  destruct (too_long root) eqn:Hlen; [done|].
  destruct (f !! root) as [i|] eqn:Hi; [|done]. simplify_eq.
  apply visits_complete; try done.
  - unfold walk_fuel. lia.
  - intros i' Hi'. unfold FileInfoToDirEntry, d_IsDir, info_of, is_dir. cbn [de_type Mode].
    rewrite IsDir_type_bits. congruence.
Qed.

End VisitList.

(** ** What every call keeps, the whole run keeps *)

Section Lift.
Context `{Limits}.
Variable R : relation World.
Context `{!PreOrder R}.
Hypothesis R_tail : ∀ w, R w (set_faults (tail (w_faults w)) w).
Hypothesis R_faults : ∀ w fl, R w (set_faults fl w).
Hypothesis R_Printf : ∀ format args w, R w (snd (Printf format args w)).
Hypothesis R_Mkdir : ∀ p perm w, R w (snd (Mkdir p perm w)).
Hypothesis R_OpenFile : ∀ p perm w, R w (snd (OpenFile_create_trunc p perm w)).
Hypothesis R_io_Copy : ∀ df sf w, R w (snd (io_Copy df sf w)).
Hypothesis R_Chtimes : ∀ p a m w, R w (snd (Chtimes p a m w)).
Hypothesis R_Rename : ∀ old new w, R w (snd (Rename old new w)).
Hypothesis R_Remove : ∀ p w, R w (snd (Remove p w)).

Lemma stat_as_lift op p w : R w (snd (stat_as op p w)).
Proof. rewrite stat_as_world. apply R_tail. Qed.

Lemma Open_lift p w : R w (snd (Open p w)).
Proof. rewrite Open_world. apply R_tail. Qed.

Lemma Close_lift fl w : R w (snd (Close fl w)).
Proof. rewrite Close_world. apply R_tail. Qed.

Lemma MkdirAll_lift p perm w : R w (snd (MkdirAll p perm w)).
Proof.
  apply (MkdirAll_rec_reach (R w)); [reflexivity|..].
  - intros w0 Hq. etrans; [exact Hq|apply R_tail].
  - intros q w0 _ Hq. etrans; [exact Hq|apply R_Mkdir].
Qed.

Lemma copyFile_lift src dst info w : R w (snd (copyFile src dst info w)).
Proof.
  unfold copyFile.
  apply bind_rel; [apply _|apply MkdirAll_lift|]. intros [err|] w1 _; [reflexivity|].
  apply bind_rel; [apply _|apply Open_lift|]. intros [err|sf] w2 _; [reflexivity|].
  apply bind_rel; [apply _| |].
  2:{ intros r w3 _. apply bind_rel; [apply _|apply Close_lift|]. intros; reflexivity. }
  apply bind_rel; [apply _|apply R_OpenFile|]. intros [err|df] w3 _; [reflexivity|].
  apply bind_rel; [apply _|apply R_io_Copy|]. intros [n cErr] w4 _. cbn [snd].
  apply bind_rel; [apply _|apply Close_lift|]. intros cCloseErr w5 _.
  assert (∀ (r : option error) w6,
    R w6 (snd (bind (Remove (tmp_path dst)) (λ _, ret r) w6))) as Hcleanup.
  { intros r w6. apply bind_rel; [apply _|apply R_Remove|]. intros; reflexivity. }
  destruct cErr; [apply Hcleanup|]. destruct cCloseErr; [apply Hcleanup|].
  apply bind_rel; [apply _|reflexivity|]. intros now w6 _.
  apply bind_rel; [apply _|apply R_Chtimes|]. intros [err|] w7 _; [apply Hcleanup|].
  apply bind_rel; [apply _|apply R_Rename|]. intros [err|] w8 _; [apply Hcleanup|].
  reflexivity.
Qed.

Lemma log_lift {A} format args (a : A) w :
  R w (snd (bind (Printf format args) (λ _, ret a) w)).
Proof. apply bind_rel; [apply _|apply R_Printf|]. intros; reflexivity. Qed.

Lemma mirror_lift opt p v rep w : R w (snd (mirror opt p v rep w)).
Proof.
  unfold mirror. destruct v as [d|d err]; [|apply log_lift].
  case_bool_decide; [reflexivity|]. destruct (d_IsDir d).
  { apply bind_rel; [apply _|apply MkdirAll_lift|]. intros [err|] w1 _; [apply log_lift|].
    reflexivity. }
  apply bind_rel; [apply _| |].
  { unfold d_Info. destruct (de_info d); [reflexivity|apply stat_as_lift]. }
  intros [err|info] w1 _; [apply log_lift|].
  destruct (negb (IsRegular (Mode info))); [apply log_lift|].
  apply bind_rel; [apply _|apply stat_as_lift|]. intros [err|tst] w2 _.
  - destruct (Is_ErrNotExist err); [|apply log_lift].
    apply bind_rel; [apply _|apply copyFile_lift|]. intros [cerr|] w3 _; apply log_lift.
  - destruct (differ info tst); [|apply log_lift].
    apply bind_rel; [apply _|apply copyFile_lift|]. intros [cerr|] w3 _; apply log_lift.
Qed.

Lemma prune_lift opt p v rep w : R w (snd (prune opt p v rep w)).
Proof.
  unfold prune. destruct v as [d|d err]; [|apply log_lift].
  case_bool_decide; [reflexivity|]. destruct (d_IsDir d); [reflexivity|].
  apply bind_rel; [apply _|apply stat_as_lift|]. intros [err|st] w1 _; [|reflexivity].
  destruct (Is_ErrNotExist err); [|apply log_lift].
  apply bind_rel; [apply _|apply R_Remove|]. intros [rmErr|] w2 _; apply log_lift.
Qed.

Lemma WalkDir_lift fuel root fn rep w e rep' w' :
  (∀ p v r w1, fst (fst (fn p v r w1)) = None ∧ R w1 (snd (fn p v r w1))) →
  WalkDir fuel root fn rep w = Some (e, rep', w') → R w w'.
Proof.
  intros Hfn Hw.
  refine (proj2 (WalkDir_inv (λ _ w1, R w w1) fn _ _ fuel root rep w e rep' w' _ Hw)).
  - intros _ w1 fl HR. etrans; [exact HR|apply R_faults].
  - intros p v r w1 HR. destruct (Hfn p v r w1) as [He HR1]. split; [done|by etrans].
  - reflexivity.
Qed.

Lemma Sync_lift opt w rep w' : Sync opt w = Some (rep, w') → R w w'.
Proof.
  intros (rep1 & w1 & Hw1 & Hw2)%Sync_inv.
  assert (R w w1) as HR1.
  { eapply WalkDir_lift; [|exact Hw1]. intros. split; [apply mirror_no_error|apply mirror_lift]. }
  destruct (DeleteMissing opt); [|by destruct Hw2 as [_ ->]].
  etrans; [exact HR1|]. eapply WalkDir_lift; [|exact Hw2].
  intros. split; [apply prune_no_error|apply prune_lift].
Qed.

End Lift.

(** ** Well-formed trees stay well-formed *)

Lemma Dir_snoc (p : path) (n : string) : Dir (p ++ [n]) = p.
Proof. unfold Dir. apply removelast_last. Qed.

Lemma Dir_ne (p : path) : p ≠ [] → Dir p ≠ p.
Proof.
  intros Hp Heq. apply (f_equal length) in Heq. unfold Dir in Heq.
  destruct p as [|x p] using rev_ind; [done|].
  rewrite removelast_last, length_app in Heq. cbn in Heq. lia.
Qed.

Lemma snoc_Dir (p : path) : p ≠ [] → ∃ n, p = Dir p ++ [n].
Proof.
  intros Hp. destruct p as [|x p _] using rev_ind; [done|].
  exists x. by rewrite Dir_snoc.
Qed.

(** Nothing lies below a node that is not a directory. *)
Lemma wf_leaf f p i n :
  wf f → f !! p = Some i → is_dir i = false → f !! (p ++ [n]) = None.
Proof.
  intros Hwf Hp Hi. destruct (f !! (p ++ [n])) as [j|] eqn:Hj; [|done].
  destruct (Hwf _ _ Hj) as (d & Hd & Hdir); [by destruct p|].
  rewrite Dir_snoc in Hd. congruence.
Qed.

Lemma wf_insert f p i :
  wf f →
  (∀ j, f !! p = Some j → is_dir j = true → is_dir i = true) →
  (f !! p = None → p ≠ [] → ∃ d, f !! Dir p = Some d ∧ is_dir d = true) →
  wf (<[p := i]> f).
Proof.
  intros Hwf Hold Hnew x k Hx Hne. destruct (decide (x = p)) as [->|Hxp].
  - rewrite lookup_insert_ne by (by apply not_eq_sym, Dir_ne).
    destruct (f !! p) as [j|] eqn:Hj; [by eapply Hwf|by apply Hnew].
  - rewrite lookup_insert_ne in Hx by done.
    destruct (Hwf _ _ Hx Hne) as (d & Hd & Hdir).
    destruct (decide (Dir x = p)) as [Heq|Hdp].
    + rewrite Heq in *. rewrite lookup_insert_eq. exists i. split; [done|]. by eapply Hold.
    + rewrite lookup_insert_ne by done. by exists d.
Qed.

Lemma wf_delete f p :
  wf f → (∀ n, f !! (p ++ [n]) = None) → wf (delete p f).
Proof.
  intros Hwf Hleaf x k [Hxp Hx]%lookup_delete_Some Hne.
  destruct (Hwf _ _ Hx Hne) as (d & Hd & Hdir). exists d. split; [|done].
  rewrite lookup_delete_ne; [done|]. intros Heq.
  destruct (snoc_Dir x Hne) as [n Hn]. rewrite <- Heq in Hn.
  rewrite Hn, Hleaf in Hx. done.
Qed.

Section KeepsWf.
Context `{Limits}.

Definition keeps_wf (w w' : World) : Prop := wf (w_fs w) → wf (w_fs w').

#[global] Instance keeps_wf_preorder : PreOrder keeps_wf.
Proof.
  split.
  - intros w Hwf. exact Hwf.
  - intros w1 w2 w3 H12 H23 Hwf. by apply H23, H12.
Qed.

Lemma parent_errno_None f p :
  parent_errno f p = None → p ≠ [] → ∃ d, f !! Dir p = Some d ∧ is_dir d = true.
Proof.
  unfold parent_errno, resolve. destruct p as [|x p]; [done|].
  intros Hpe _. destruct (f !! Dir (x :: p)) as [d|]; [|done].
  exists d. split; [done|]. by destruct (is_dir d).
Qed.

Lemma Mkdir_wf p perm w : keeps_wf w (snd (Mkdir p perm w)).
Proof.
  intros Hwf. unfold Mkdir. kernel_cases; try done.
  all: apply wf_insert; [done|congruence|].
  all: intros _ Hne; by apply parent_errno_None.
Qed.

Lemma OpenFile_wf p perm w : keeps_wf w (snd (OpenFile_create_trunc p perm w)).
Proof.
  intros Hwf. unfold OpenFile_create_trunc. kernel_cases; try done.
  - apply wf_insert; [done| |congruence]. intros j Hj Hd. congruence.
  - apply wf_insert; [done|congruence|]. intros _ Hne. by apply parent_errno_None.
Qed.

Lemma write_data_wf df data w : keeps_wf w (snd (write_data df data w)).
Proof.
  intros Hwf. unfold write_data. kernel_cases; try done.
  apply wf_insert; [done| |congruence]. intros j Hj Hd. unfold is_dir in *. cbn. congruence.
Qed.

Lemma io_Copy_wf df sf w : keeps_wf w (snd (io_Copy df sf w)).
Proof.
  intros Hwf. unfold io_Copy, write_data. kernel_cases; try done.
  all: apply wf_insert; [done| |congruence].
  all: intros j Hj Hd; unfold is_dir in *; cbn; congruence.
Qed.

Lemma Chtimes_wf p a m w : keeps_wf w (snd (Chtimes p a m w)).
Proof.
  intros Hwf. unfold Chtimes, resolve. kernel_cases; try done.
  apply wf_insert; [done| |congruence].
  intros j Hj Hd; unfold is_dir in *; cbn; congruence.
Qed.

Lemma Remove_wf p w : keeps_wf w (snd (Remove p w)).
Proof.
  intros Hwf. unfold Remove, resolve. kernel_cases; try done.
  - apply wf_delete; [done|]. intros n.
    destruct (w_fs w !! (p ++ [n])) as [j|] eqn:Hj; [|done].
    apply elem_of_entries in Hj.
    match goal with He : entries _ _ = [] |- _ => rewrite He in Hj end.
    by apply elem_of_nil in Hj.
  - apply wf_delete; [done|]. intros n. by eapply wf_leaf.
Qed.

Lemma wf_rename f old new i :
  wf f → f !! old = Some i → is_dir i = false →
  (∀ j, f !! new = Some j → is_dir j = false) →
  (f !! new = None → new ≠ [] → ∃ d, f !! Dir new = Some d ∧ is_dir d = true) →
  wf (<[new := i]> (delete old f)).
Proof.
  intros Hwf Hold Hi Hnew Hpar. apply wf_insert.
  - apply wf_delete; [done|]. intros n. by eapply wf_leaf.
  - intros j [_ Hj]%lookup_delete_Some Hd. apply Hnew in Hj. congruence.
  - intros _ Hne.
    assert (∃ d, f !! Dir new = Some d ∧ is_dir d = true) as (d & Hd & Hdir).
    { destruct (f !! new) as [j|] eqn:Hj; [by eapply Hwf|by apply Hpar]. }
    exists d. split; [|done]. rewrite lookup_delete_ne; [done|].
    intros Heq. rewrite <- Heq in Hd. congruence.
Qed.

Lemma Rename_wf old new w : keeps_wf w (snd (Rename old new w)).
Proof.
  intros Hwf. unfold Rename, resolve. kernel_cases; try done.
  - apply wf_rename; try done; [congruence..].
  - apply wf_rename; try done; [congruence|].
    intros _ Hne. by apply parent_errno_None.
Qed.

Lemma keeps_wf_faults w fl : keeps_wf w (set_faults fl w).
Proof. by intros Hwf. Qed.

Lemma Printf_wf format args w : keeps_wf w (snd (Printf format args w)).
Proof. by intros Hwf. Qed.

Lemma mirror_wf opt p v rep w :
  wf (w_fs w) → wf (w_fs (snd (mirror opt p v rep w))).
Proof.
  apply (mirror_lift keeps_wf (λ w0, keeps_wf_faults w0 _) Printf_wf Mkdir_wf OpenFile_wf
           io_Copy_wf Chtimes_wf Rename_wf Remove_wf).
Qed.

Lemma prune_wf opt p v rep w :
  wf (w_fs w) → wf (w_fs (snd (prune opt p v rep w))).
Proof. apply (prune_lift keeps_wf (λ w0, keeps_wf_faults w0 _) Printf_wf Remove_wf). Qed.

Lemma WalkDir_mirror_wf opt fuel root rep w e rep' w' :
  wf (w_fs w) → WalkDir fuel root (mirror opt) rep w = Some (e, rep', w') → wf (w_fs w').
Proof.
  intros Hwf Hw. revert Hwf. change (keeps_wf w w').
  eapply (WalkDir_lift keeps_wf keeps_wf_faults); [|exact Hw].
  intros. split; [apply mirror_no_error|]. intros ?. by apply mirror_wf.
Qed.

Lemma WalkDir_prune_wf opt fuel root rep w e rep' w' :
  wf (w_fs w) → WalkDir fuel root (prune opt) rep w = Some (e, rep', w') → wf (w_fs w').
Proof.
  intros Hwf Hw. revert Hwf. change (keeps_wf w w').
  eapply (WalkDir_lift keeps_wf keeps_wf_faults); [|exact Hw].
  intros. split; [apply prune_no_error|]. intros ?. by apply prune_wf.
Qed.

(** A run leaves a well-formed tree well-formed. *)
Lemma Sync_wf opt w rep w' :
  wf (w_fs w) → Sync opt w = Some (rep, w') → wf (w_fs w').
Proof.
  intros Hwf Hs. revert Hwf. change (keeps_wf w w').
  apply (Sync_lift keeps_wf (λ w0, keeps_wf_faults w0 _) keeps_wf_faults Printf_wf Mkdir_wf
           OpenFile_wf io_Copy_wf Chtimes_wf Rename_wf Remove_wf opt w rep w' Hs).
Qed.

End KeepsWf.

(** ** One visit of the forward pass that goes well *)

Section Short.
Context `{Limits}.
Local Open Scope io_scope.

(** A call that succeeds was given a path the kernel accepts. *)
Lemma Mkdir_short p perm w : fst (Mkdir p perm w) = None → too_long p = false.
Proof. unfold Mkdir. kernel_cases; done. Qed.

Lemma Rename_short old new w : fst (Rename old new w) = None → too_long new = false.
Proof. unfold Rename. kernel_cases; done. Qed.

Lemma MkdirAll_short p perm w : fst (MkdirAll p perm w) = None → too_long p = false.
Proof.
  unfold MkdirAll. generalize (length p) as n. intros n.
  assert (∀ w0,
    fst ((let* err := Mkdir p perm in
     match err with
     | None => ret None
     | Some err =>
       let* st1 := Lstat p in
       match st1 with
       | inr dir => if IsDir (Mode dir) then ret None else ret (Some err)
       | inl _ => ret (Some err)
       end
     end) w0) = None → too_long p = false) as Htail.
  { intros w0. unfold bind at 1.
    pose proof (Mkdir_short p perm w0) as Hok.
    destruct (Mkdir p perm w0) as [[err|] w1]; cbn [fst snd] in Hok; [|by intros _; apply Hok].
    unfold bind. pose proof (stat_as_inr "lstat" p w1) as Hin. fold (Lstat p w1) in Hin.
    destruct (Lstat p w1) as [[e1|d1] w2]; cbn [fst snd] in *; [done|].
    destruct (Hin _ eq_refl) as (i & Hi & -> & Hl). done. }
  destruct n as [|n]; cbn [MkdirAll_rec]; unfold bind at 1.
  all: pose proof (stat_as_inr "stat" p w) as Hin; fold (Stat p w) in Hin;
    destruct (Stat p w) as [[e|dir] w1]; cbn [fst snd] in *.
  2,4: destruct (Hin _ eq_refl) as (i & Hi & -> & Hl); done.
  - unfold bind at 1, ret at 1. apply Htail.
  - unfold bind at 1.
    destruct ((if bool_decide (1 < length p)%nat
               then MkdirAll_rec n (Dir p) perm else ret None) w1) as [[perr|] w1'];
      [done|]. apply Htail.
Qed.

Lemma copyFile_short src dst info w :
  fst (copyFile src dst info w) = None → too_long dst = false.
Proof.
  unfold copyFile. unfold bind at 1.
  destruct (MkdirAll (Dir dst) 493 w) as [[err|] w1]; [done|].
  unfold bind at 1. destruct (Open src w1) as [[err|sf] w2]; [done|].
  unfold bind at 1. unfold bind at 1.
  destruct (OpenFile_create_trunc _ _ _) as [[err|df] w3].
  { unfold ret at 1. unfold bind at 1. destruct (Close sf w3). done. }
  unfold bind at 1. destruct (io_Copy df sf w3) as [[n cErr] w4]. cbn [snd].
  unfold bind at 1. destruct (Close df w4) as [cCloseErr w5].
  assert (∀ (r0 : error) w6,
    fst (let '(a, w7) := bind (Remove (tmp_path dst)) (λ _, ret (Some r0)) w6 in
         bind (Close sf) (λ _, ret a) w7) = None → too_long dst = false) as Hcleanup.
  { intros r0 w6. unfold bind, ret. destruct (Remove _ w6). destruct (Close sf _). done. }
  destruct cErr as [cErr|]; [apply Hcleanup|].
  destruct cCloseErr as [cCloseErr|]; [apply Hcleanup|].
  unfold bind at 1. unfold Now at 1, gets at 1. unfold bind at 1.
  destruct (Chtimes _ _ _ _) as [[err|] w6]; [apply Hcleanup|].
  unfold bind at 1.
  pose proof (Rename_short (tmp_path dst) dst w6) as Hrn.
  destruct (Rename (tmp_path dst) dst w6) as [[err|] w7]; [apply Hcleanup|].
  intros _. by apply Hrn.
Qed.

Lemma addErr_Errors err rep : Errors (addErr (Some err) rep) ≠ Errors rep.
Proof.
  cbn. intros Heq. apply (f_equal length) in Heq. rewrite length_app in Heq. cbn in Heq. lia.
Qed.

End Short.

Section Visit.
Context `{Limits}.
Local Open Scope io_scope.

(** Where the forward pass puts what it finds at [p]. *)
Definition dest (opt : Options) (p : path) : path :=
  Join (Target opt) (Rel (Source opt) p).

(** From [w] to [w'] the file [j] was written to [t]: any directories
    above [t] that were missing were made, [t] now holds the bytes of [j]
    and the modification time [os.Chtimes] makes of the one of [j], and
    the temporary file is gone. *)
Definition written (j : inode) (t : path) (w w' : World) : Prop :=
  ∃ w1 m, grows_dirs (Dir t) w w1 ∧ IsDir m = false ∧
    w_fs w' !! t = Some (mkInode m (set_mtime (i_mtime j) (w_now w)) (i_data j)) ∧
    w_fs w' !! tmp_path t = None ∧
    ∀ x, x ≠ t → x ≠ tmp_path t → w_fs w' !! x = w_fs w1 !! x.

(** What a visit of the forward pass that records no error has done with
    the node [j] it found at [p]. *)
Inductive mirrored (opt : Options) (p : path) (j : inode)
    (rep : Report) (w : World) (rep' : Report) (w' : World) : Prop :=
| mirrored_dir :
    is_dir j = true → rep' = rep → w_log w' = w_log w →
    grows_dirs (dest opt p) w w' → too_long (dest opt p) = false →
    (∃ i, w_fs w' !! dest opt p = Some i ∧ is_dir i = true) →
    mirrored opt p j rep w rep' w'
| mirrored_irregular :
    is_dir j = false → is_regular j = false → too_long p = false →
    w_fs w' = w_fs w → rep' = incSkipped rep →
    w_log w' = w_log w ++
      [mkLog "SKIP: nieregularny plik %s (mode=%v)" [APath p; AMode (i_mode j)]] →
    mirrored opt p j rep w rep' w'
| mirrored_copy :
    is_dir j = false → is_regular j = true → too_long p = false →
    too_long (dest opt p) = false →
    w_fs w !! dest opt p = None → written j (dest opt p) w w' →
    rep' = incCopied rep →
    w_log w' = w_log w ++ [mkLog "COPY: %s -> %s" [APath p; APath (dest opt p)]] →
    mirrored opt p j rep w rep' w'
| mirrored_overwrite i :
    is_dir j = false → is_regular j = true → too_long p = false →
    too_long (dest opt p) = false →
    w_fs w !! dest opt p = Some i → differ (info_of j) (info_of i) = true →
    written j (dest opt p) w w' →
    rep' = incOverwritten rep →
    w_log w' = w_log w ++ [mkLog "OVERWRITE: %s -> %s" [APath p; APath (dest opt p)]] →
    mirrored opt p j rep w rep' w'
| mirrored_same i :
    is_dir j = false → is_regular j = true → too_long p = false →
    too_long (dest opt p) = false →
    w_fs w !! dest opt p = Some i → differ (info_of j) (info_of i) = false →
    w_fs w' = w_fs w → rep' = incSkipped rep →
    w_log w' = w_log w ++ [mkLog "SKIP: %s (identical)" [APath (Rel (Source opt) p)]] →
    mirrored opt p j rep w rep' w'.

Lemma copyFile_written src dst j w :
  w_faults w = [] → src ≠ tmp_path dst → w_fs w !! src = Some j →
  fst (copyFile src dst (info_of j) w) = None →
  written j dst w (snd (copyFile src dst (info_of j) w)) ∧
  w_log (snd (copyFile src dst (info_of j) w)) = w_log w ∧
  w_faults (snd (copyFile src dst (info_of j) w)) = [] ∧
  too_long dst = false.
Proof.
  intros Hf Hsrc Hj Hok.
  destruct (copyFile_quiet src dst (info_of j) w) as (Hlog & _ & Hfl).
  split_and!; [|done|by apply Hfl|by eapply copyFile_short].
  destruct (copyFile_ok src dst (info_of j) w Hsrc Hok)
    as (w1 & s & m & Hg & Hs & Hds & Hm & Hdst & Htmp & Hfr).
  exists w1, m. split_and!; try done.
  destruct Hg as (_ & _ & _ & Hg). destruct (Hg src) as [Heq|(Hnone & _)]; [|congruence].
  rewrite Heq, Hj in Hs. by simplify_eq.
Qed.

Lemma stat_pure_inl_not_exist op f p err :
  stat_pure op f p = inl err → Is_ErrNotExist err = true → f !! p = None ∧ too_long p = false.
Proof.
  unfold stat_pure, resolve. destruct (too_long p); [by intros [= <-]|].
  destruct (f !! p); [done|]. done.
Qed.

Lemma stat_pure_inr op f p info :
  stat_pure op f p = inr info → ∃ i, f !! p = Some i ∧ info = info_of i ∧ too_long p = false.
Proof.
  unfold stat_pure, resolve. destruct (too_long p); [done|].
  destruct (f !! p) as [i|]; [|done]. intros [= <-]. by exists i.
Qed.

Lemma mirror_entry_ok opt p d j rep w :
  w_faults w = [] → p ≠ Source opt →
  w_fs w !! p = Some j → d_IsDir d = is_dir j → de_info d = None →
  p ≠ tmp_path (dest opt p) →
  Errors (snd (fst (mirror opt p (Entry d) rep w))) = Errors rep →
  w_faults (snd (mirror opt p (Entry d) rep w)) = [] ∧
  mirrored opt p j rep w (snd (fst (mirror opt p (Entry d) rep w)))
    (snd (mirror opt p (Entry d) rep w)).
Proof.
  intros Hf Hne Hj Hd Hinfo Htmp.
  destruct (mirror opt p (Entry d) rep w) as [[e rep'] w'] eqn:E. cbn [fst snd]. intros Herr.
  revert E. unfold mirror. rewrite bool_decide_eq_false_2 by done. cbv zeta.
  change (Join (Target opt) (Rel (Source opt) p)) with (dest opt p).
  rewrite Hd. destruct (is_dir j) eqn:Hdir.
  - unfold bind at 1.
    pose proof (MkdirAll_grows (dest opt p) 493 w) as Hg.
    pose proof (MkdirAll_ok (dest opt p) 493 w) as Hok.
    pose proof (MkdirAll_short (dest opt p) 493 w) as Hsh.
    destruct (MkdirAll (dest opt p) 493 w) as [[err|] w1]; cbn [fst snd] in *.
    + unfold bind, Printf, modify, ret. intros [= <- <- <-]. by apply addErr_Errors in Herr.
    + unfold ret. intros [= <- <- <-]. split; [by apply Hg|].
      apply mirrored_dir; try done; [apply Hg|by apply Hsh|by apply Hok].
  - unfold d_Info. rewrite Hinfo. unfold bind at 1. unfold Lstat.
    rewrite stat_as_no_fault by done.
    unfold stat_pure at 1, resolve at 1. rewrite Hj. destruct (too_long p) eqn:Hlp.
    { unfold bind, Printf, modify, ret. intros [= <- <- <-]. by apply addErr_Errors in Herr. }
    change (Mode (info_of j)) with (i_mode j). change (IsRegular (i_mode j)) with (is_regular j).
    destruct (is_regular j) eqn:Hreg; cbn [negb].
    2:{ unfold bind, Printf, modify, ret. intros [= <- <- <-]. split; [done|].
        by apply mirrored_irregular. }
    unfold bind at 1. unfold Stat. rewrite stat_as_no_fault by done.
    pose proof (copyFile_written p (dest opt p) j w Hf Htmp Hj) as Hcw.
    destruct (stat_pure "stat" (w_fs w) (dest opt p)) as [err|tst] eqn:Est.
    + destruct (Is_ErrNotExist err) eqn:Hnx.
      2:{ unfold bind, Printf, modify, ret. intros [= <- <- <-].
          by apply addErr_Errors in Herr. }
      destruct (stat_pure_inl_not_exist _ _ _ _ Est Hnx) as [Hnone Hlt].
      unfold bind at 1.
      destruct (copyFile p (dest opt p) (info_of j) w) as [[cerr|] w3]; cbn [fst snd] in Hcw.
      { unfold bind, Printf, modify, ret. intros [= <- <- <-].
        by apply addErr_Errors in Herr. }
      destruct (Hcw eq_refl) as (Hwr & Hlog & Hfl & Hsh).
      unfold bind, Printf, modify, ret. intros [= <- <- <-]. split; [done|].
      apply mirrored_copy; try done. cbn [w_log]. by rewrite Hlog.
    + destruct (stat_pure_inr _ _ _ _ Est) as (i & Hi & -> & Hlt).
      destruct (differ (info_of j) (info_of i)) eqn:Hdf.
      2:{ unfold bind, Printf, modify, ret. intros [= <- <- <-]. split; [done|].
          by eapply mirrored_same. }
      unfold bind at 1.
      destruct (copyFile p (dest opt p) (info_of j) w) as [[cerr|] w3]; cbn [fst snd] in Hcw.
      { unfold bind, Printf, modify, ret. intros [= <- <- <-].
        by apply addErr_Errors in Herr. }
      destruct (Hcw eq_refl) as (Hwr & Hlog & Hfl & Hsh).
      unfold bind, Printf, modify, ret. intros [= <- <- <-]. split; [done|].
      eapply mirrored_overwrite; try done. cbn [w_log]. by rewrite Hlog.
Qed.

End Visit.

(** ** The forward pass of a run that records no error *)

Section Forward.
Context `{Limits}.
Variable opt : Options.
Variable w0 : World.
Hypothesis Hap : roots_apart opt.
Hypothesis Hwf : wf (w_fs w0).
Hypothesis HT : is_Some (w_fs w0 !! Target opt).

(** No fault is pending, and since [w0] nothing changed outside the
    target tree. *)
Definition steady (w : World) : Prop :=
  w_faults w = [] ∧ confined (below_target opt) w0 w.

Lemma steady_source w x :
  steady w → Source opt `prefix_of` x → w_fs w !! x = w_fs w0 !! x.
Proof.
  intros [_ [Hfr _]] Hx. apply Hfr. unfold below_target.
  by rewrite apart_not_below.
Qed.

Lemma dest_app r : dest opt (Source opt ++ r) = Target opt ++ r.
Proof. unfold dest, Join. by rewrite Rel_app. Qed.

(** The calls are at nodes of the source tree of [w0]. *)
Definition of_source (l : list (path * visit)) : Prop :=
  ∀ q d, (q, Entry d) ∈ l →
    Source opt `prefix_of` q ∧
    (q = Source opt ∨
     (q ≠ Source opt ∧ ∃ j, w_fs w0 !! q = Some j ∧ d = entry_of (de_name d) j)).

Lemma of_source_cons a l : of_source (a :: l) → of_source l.
Proof. intros Hl q d Hin. apply Hl. by right. Qed.

(** The run of the forward pass over a list of calls, visit by visit. *)
Inductive fwd_run : list (path * visit) → Report → World → Report → World → Prop :=
| fwd_nil rep w : fwd_run [] rep w rep w
| fwd_root d l rep w rep' w' :
    fwd_run l rep w rep' w' → fwd_run ((Source opt, Entry d) :: l) rep w rep' w'
| fwd_step p d j l rep w rep1 w1 rep' w' :
    p ≠ Source opt → Source opt `prefix_of` p → w_fs w0 !! p = Some j →
    steady w → mirrored opt p j rep w rep1 w1 → steady w1 →
    fwd_run l rep1 w1 rep' w' →
    fwd_run ((p, Entry d) :: l) rep w rep' w'.

Lemma run_visits_mirror_le l rep w :
  report_le rep (fst (run_visits (mirror opt) l rep w)).
Proof.
  revert rep w. induction l as [|[p v] l IH]; intros rep w; cbn [run_visits fst]; [done|].
  pose proof (mirror_report_le opt p v rep w) as Hle.
  destruct (mirror opt p v rep w) as [[e rep1] w1]. cbn [fst snd] in Hle.
  etrans; [exact Hle|apply IH].
Qed.

Lemma source_not_tmp p : Source opt `prefix_of` p → p ≠ Source opt → p ≠ tmp_path (dest opt p).
Proof.
  intros Hp Hne Heq. destruct (below_root _ _ Hp Hne) as (r & Hr & ->).
  rewrite dest_app in Heq.
  pose proof (tmp_path_below (Target opt) r Hr) as Hb. rewrite <- Heq in Hb.
  rewrite apart_not_below in Hb; done.
Qed.

Lemma forward_run l rep w :
  of_source l → steady w →
  Errors (fst (run_visits (mirror opt) l rep w)) = Errors rep →
  fwd_run l rep w (fst (run_visits (mirror opt) l rep w))
                  (snd (run_visits (mirror opt) l rep w)) ∧
  steady (snd (run_visits (mirror opt) l rep w)).
Proof.
  revert rep w. induction l as [|[p v] l IH]; intros rep w Hl Hst Herr; cbn [run_visits].
  { split; [constructor|done]. }
  cbn [run_visits] in Herr.
  pose proof (mirror_report_le opt p v rep w) as Hle.
  pose proof (mirror_entry_ok opt p) as Hok.
  pose proof (mirror_below_target opt w0 p v rep w) as Hbelow.
  destruct (mirror opt p v rep w) as [[e rep1] w1] eqn:E. cbn [fst snd] in *.
  pose proof (run_visits_mirror_le l rep1 w1) as Hle'.
  assert (Errors rep1 = Errors rep) as Herr1.
  { symmetry. apply prefix_length_eq; [apply Hle|].
    destruct Hle' as (_ & _ & _ & _ & Hp). apply prefix_length in Hp.
    rewrite Herr in Hp. done. }
  assert (Errors (fst (run_visits (mirror opt) l rep1 w1)) = Errors rep1) as Herr'
    by congruence.
  destruct v as [d|dd err].
  2:{ exfalso. unfold mirror in E. unfold bind, Printf, modify, ret in E.
      simplify_eq. by apply addErr_Errors in Herr1. }
  destruct (Hl p d) as [Hp Hcase]; [by left|].
  destruct Hcase as [->|(Hne & j & Hj & Hd)].
  - unfold mirror in E. rewrite bool_decide_eq_true_2 in E by done. unfold ret in E.
    simplify_eq. destruct (IH rep1 w1) as [Hrun Hst']; [by eapply of_source_cons|done..|].
    split; [by constructor|done].
  - destruct (Hok d j rep w) as [Hf1 Hm].
    { apply Hst. }
    { done. }
    { by rewrite steady_source. }
    { rewrite Hd. apply entry_of_IsDir. }
    { by rewrite Hd. }
    { by apply source_not_tmp. }
    { by rewrite E. }
    rewrite E in Hf1, Hm. cbn [fst snd] in Hf1, Hm.
    assert (steady w1) as Hst1.
    { split; [done|]. destruct Hst as [Hf Hc].
      eapply confined_trans; [exact Hc|]. apply Hbelow; [|done..].
      intros q Hq. by eapply wf_prefix. }
    destruct (IH rep1 w1) as [Hrun Hst']; [by eapply of_source_cons|done..|].
    split; [|done]. by eapply (fwd_step p d j).
Qed.

End Forward.

(** ** Modification times that survive a copy *)

(** An instant [os.Chtimes] can hand to the kernel unchanged: its
    nanoseconds since 1970 fit an [int64] (1677-09-21 to 2262-04-11).
    The zero time lies outside. *)
Definition representable (t : Time) : Prop :=
  - 2 ^ 63 ≤ t - unix_epoch < 2 ^ 63.

#[global] Instance representable_dec t : Decision (representable t).
Proof. unfold representable. apply _. Defined.

Lemma wrap_int64_id (z : Z) : - 2 ^ 63 ≤ z < 2 ^ 63 → wrap_int64 z = z.
Proof. intros Hz. unfold wrap_int64. rewrite Z.mod_small; lia. Qed.

Lemma representable_not_zero t : representable t → IsZero t = false.
Proof.
  unfold representable, IsZero, unix_epoch, Second, Nanosecond.
  intros Hr. apply Z.eqb_neq. lia.
Qed.

Lemma set_mtime_representable t old : representable t → set_mtime t old = t.
Proof.
  intros Hr. unfold set_mtime. rewrite representable_not_zero by done.
  unfold Unix, UnixNano. rewrite wrap_int64_id by exact Hr. lia.
Qed.

(** Every regular file below [root] has a modification time that
    [os.Chtimes] can represent. *)
Definition timely (f : FS) (root : path) : Prop :=
  ∀ q j, f !! q = Some j → strictly_below root q = true → is_regular j = true →
    representable (i_mtime j).

Definition timelyb (f : FS) (root : path) : bool :=
  forallb (λ qj : path * inode,
             implb (strictly_below root qj.1 && is_regular qj.2)
                   (bool_decide (representable (i_mtime qj.2))))
          (map_to_list f).

Lemma timelyb_timely (f : FS) (root : path) : timelyb f root = true → timely f root.
Proof.
  unfold timelyb. rewrite forallb_forall. intros Hall q j Hq Hb Hr.
  specialize (Hall (q, j)). cbn [fst snd] in Hall. rewrite Hb, Hr in Hall.
  eapply bool_decide_eq_true_1, Hall, list_elem_of_In. by apply elem_of_map_to_list.
Qed.

(** ** What a visit that went well leaves behind *)

Section Mirrored.
Context `{Limits}.

(** The node at [p] and the target tree are in step: a directory has its
    directory, a regular file has a counterpart that [differ] takes for
    the same. *)
Definition synced (opt : Options) (f : FS) (p : path) (j : inode) : Prop :=
  if is_dir j
  then too_long (dest opt p) = false ∧ ∃ i, f !! dest opt p = Some i ∧ is_dir i = true
  else too_long p = false ∧
       (is_regular j = true →
        too_long (dest opt p) = false ∧
        ∃ i, f !! dest opt p = Some i ∧ differ (info_of j) (info_of i) = false).

Lemma differ_copy j m now :
  representable (i_mtime j) →
  differ (info_of j) (info_of (mkInode m (set_mtime (i_mtime j) now) (i_data j))) = false.
Proof.
  intros Hr. rewrite set_mtime_representable by done.
  unfold differ, info_of. cbn [Size ModTime i_data i_mtime].
  rewrite Z.eqb_refl. cbn [negb]. unfold Equal. by rewrite Z.eqb_refl.
Qed.

Lemma mirrored_synced opt p j rep w rep' w' :
  (is_regular j = true → representable (i_mtime j)) →
  mirrored opt p j rep w rep' w' → synced opt (w_fs w') p j.
Proof.
  unfold synced. intros Hrep.
  intros [Hd _ _ _ Hl Hi|Hd Hr Hl _ _ _|Hd Hr Hl Hlt _ Hwr _ _|i Hd Hr Hl Hlt _ _ Hwr _ _
          |i Hd Hr Hl Hlt Hi Hdf Hfs _ _]; rewrite Hd.
  - done.
  - split; [done|]. congruence.
  - split; [done|]. intros _. split; [done|].
    destruct Hwr as (w1 & m & _ & _ & Ht & _). eexists.
    split; [exact Ht|by apply differ_copy, Hrep].
  - split; [done|]. intros _. split; [done|].
    destruct Hwr as (w1 & m & _ & _ & Ht & _). eexists.
    split; [exact Ht|by apply differ_copy, Hrep].
  - split; [done|]. intros _. split; [done|]. exists i. by rewrite Hfs.
Qed.

(** A visit leaves alone what is there, but for its destination and its
    temporary file. *)
Lemma mirrored_keeps opt p j rep w rep' w' y i :
  mirrored opt p j rep w rep' w' →
  w_fs w !! y = Some i → y ≠ dest opt p → y ≠ tmp_path (dest opt p) →
  w_fs w' !! y = Some i.
Proof.
  intros Hm Hy Hne Htmp.
  assert (∀ t w1, grows_dirs t w w1 → w_fs w1 !! y = Some i) as Hgrow.
  { intros t w1 (_ & _ & _ & Hg). destruct (Hg y) as [->|[? _]]; congruence. }
  destruct Hm as [_ _ _ Hg _ _|_ _ _ Hfs _ _|_ _ _ _ _ Hwr _ _|i' _ _ _ _ _ _ Hwr _ _
                  |i' _ _ _ _ _ _ Hfs _ _]; try by rewrite Hfs.
  - by eapply Hgrow.
  - destruct Hwr as (w1 & m & Hg & _ & _ & _ & Hfr). rewrite Hfr by done. by eapply Hgrow.
  - destruct Hwr as (w1 & m & Hg & _ & _ & _ & Hfr). rewrite Hfr by done. by eapply Hgrow.
Qed.

(** What is not there stays away, unless it is the destination or lies
    above it. *)
Lemma mirrored_absent opt p j rep w rep' w' y :
  mirrored opt p j rep w rep' w' →
  w_fs w !! y = None → ¬ y `prefix_of` dest opt p →
  w_fs w' !! y = None.
Proof.
  intros Hm Hy Hpre.
  assert (∀ t w1, t `prefix_of` dest opt p → grows_dirs t w w1 → w_fs w1 !! y = None) as Hgrow.
  { intros t w1 Ht (_ & _ & _ & Hg). destruct (Hg y) as [->|(_ & Hyt & _)]; [done|].
    destruct Hpre. by etrans. }
  assert (y ≠ dest opt p) as Hne by (by intros ->).
  destruct Hm as [_ _ _ Hg _ _|_ _ _ Hfs _ _|_ _ _ _ _ Hwr _ _|i' _ _ _ _ _ _ Hwr _ _
                  |i' _ _ _ _ _ _ Hfs _ _]; try by rewrite Hfs.
  - by eapply Hgrow.
  - destruct Hwr as (w1 & m & Hg & _ & _ & Htmp & Hfr).
    destruct (decide (y = tmp_path (dest opt p))) as [->|Hyt]; [done|].
    rewrite Hfr by done. eapply Hgrow; [apply Dir_prefix|done].
  - destruct Hwr as (w1 & m & Hg & _ & _ & Htmp & Hfr).
    destruct (decide (y = tmp_path (dest opt p))) as [->|Hyt]; [done|].
    rewrite Hfr by done. eapply Hgrow; [apply Dir_prefix|done].
Qed.

(** The lines a visit logs, and what it counts. *)
Definition copy_line (opt : Options) (p : path) : logline :=
  mkLog "COPY: %s -> %s" [APath p; APath (dest opt p)].

Definition is_copy_line (l : logline) : bool := bool_decide (l_format l = "COPY: %s -> %s"%string).

Lemma filter_copy_line_other fmt args :
  fmt ≠ "COPY: %s -> %s"%string → filter is_copy_line [mkLog fmt args] = [].
Proof.
  intros Hne. rewrite filter_cons_False; [done|].
  unfold is_copy_line. cbn [l_format]. rewrite bool_decide_eq_false_2 by done. by intros [].
Qed.

Lemma filter_copy_line_copy args :
  filter is_copy_line [mkLog "COPY: %s -> %s" args] = [mkLog "COPY: %s -> %s" args].
Proof. by rewrite filter_cons_True. Qed.

Lemma mirrored_log opt p j rep w rep' w' :
  mirrored opt p j rep w rep' w' →
  ∃ lines, w_log w' = w_log w ++ lines ∧
    Copied rep' = Copied rep + Z.of_nat (length (filter is_copy_line lines)) ∧
    (∀ l, l ∈ lines → is_copy_line l = true → l = copy_line opt p) ∧
    (w_fs w !! dest opt p = None → is_dir j = false → is_regular j = true →
     lines = [copy_line opt p]).
Proof.
  intros [Hd -> Hlog _ _ _|Hd Hr _ _ -> Hlog|Hd Hr _ _ Hn _ -> Hlog|i Hd Hr _ _ Hi _ _ -> Hlog
          |i Hd Hr _ _ Hi _ _ -> Hlog].
  - exists []. rewrite app_nil_r. split_and!; [done|cbn; lia| |congruence].
    by intros ? ?%elem_of_nil.
  - eexists. split; [exact Hlog|]. rewrite filter_copy_line_other by done.
    split_and!; [cbn; lia| |congruence].
    by intros ? ->%list_elem_of_singleton.
  - eexists. split; [exact Hlog|]. rewrite filter_copy_line_copy.
    split_and!; [cbn; lia| |done].
    by intros ? ->%list_elem_of_singleton.
  - eexists. split; [exact Hlog|]. rewrite filter_copy_line_other by done.
    split_and!; [cbn; lia| |congruence].
    by intros ? ->%list_elem_of_singleton.
  - eexists. split; [exact Hlog|]. rewrite filter_copy_line_other by done.
    split_and!; [cbn; lia| |congruence].
    by intros ? ->%list_elem_of_singleton.
Qed.

End Mirrored.

Lemma filter_none {A} (P : A → Prop) `{!∀ x, Decision (P x)} (l : list A) :
  (∀ x, x ∈ l → ¬ P x) → filter P l = [].
Proof.
  intros Hno. destruct (filter P l) as [|y k] eqn:E; [done|].
  assert (y ∈ filter P l) as [Hy Hin]%list_elem_of_filter by (rewrite E; by left).
  by destruct (Hno y Hin).
Qed.

Lemma wf_above_dir f p q i :
  wf f → f !! p = Some i → q `prefix_of` p → q ≠ p →
  ∃ d, f !! q = Some d ∧ is_dir d = true.
Proof.
  intros Hwf. revert i. induction p as [|x p IH] using rev_ind; intros i Hp Hq Hne.
  - apply prefix_nil_inv in Hq. done.
  - destruct (Hwf _ _ Hp) as (d & Hd & Hdir); [by destruct p|].
    rewrite Dir_snoc in Hd.
    destruct Hq as [k Hk]. destruct k as [|y k _] using rev_ind.
    { rewrite app_nil_r in Hk. by subst. }
    rewrite app_assoc in Hk. apply app_inj_tail in Hk as [-> _].
    destruct (decide (q = q ++ k)) as [Heq|Hneq].
    + rewrite <- Heq in Hd. by exists d.
    + eapply IH; [exact Hd|by apply prefix_app_r|done].
Qed.

Section ForwardFacts.
Context `{Limits}.
Variable opt : Options.
Variable w0 : World.
Hypothesis Hap : roots_apart opt.
Hypothesis Hwf : wf (w_fs w0).

Lemma dest_inj p q :
  Source opt `prefix_of` p → Source opt `prefix_of` q → dest opt p = dest opt q → p = q.
Proof.
  intros [r ->] [r' ->]. rewrite !dest_app. intros Heq. apply app_inv_head in Heq. by subst.
Qed.

Lemma dest_tmp p q :
  Source opt `prefix_of` p → Source opt `prefix_of` q → q ≠ Source opt →
  dest opt p = tmp_path (dest opt q) → p = add_suffix q tmp_suffix.
Proof.
  intros [r ->] Hq Hne. destruct (below_root _ _ Hq Hne) as (r' & Hr' & ->).
  rewrite !dest_app. unfold tmp_path. rewrite !add_suffix_app by done.
  intros Heq. apply app_inv_head in Heq. by subst.
Qed.

Lemma clear_dest p v q d :
  Source opt `prefix_of` p → Source opt `prefix_of` q → q ≠ Source opt →
  clear_of (p, v) (q, Entry d) →
  dest opt p ≠ dest opt q ∧ dest opt p ≠ tmp_path (dest opt q).
Proof.
  intros Hp Hq Hne Hcl. destruct (Hcl d eq_refl) as [H1 H2]. cbn [fst] in *. split.
  - intros Heq. by apply dest_inj in Heq.
  - intros Heq. by apply dest_tmp in Heq.
Qed.

Lemma fwd_keeps l rep w rep' w' y i :
  fwd_run opt w0 l rep w rep' w' →
  w_fs w !! y = Some i →
  (∀ q d, (q, Entry d) ∈ l → q ≠ Source opt → y ≠ dest opt q ∧ y ≠ tmp_path (dest opt q)) →
  w_fs w' !! y = Some i.
Proof.
  intros Hrun. induction Hrun as [rep w|d l rep w rep' w' Hrun IH
                                  |p d j l rep w rep1 w1 rep' w' Hne Hp Hj Hst Hm Hst1 Hrun IH];
    intros Hy Hcl; [done|..].
  - apply IH; [done|]. intros q d' Hin. apply (Hcl q d'). by right.
  - apply IH.
    + destruct (Hcl p d) as [H1 H2]; [by left|done|]. by eapply mirrored_keeps.
    + intros q d' Hin. apply (Hcl q d'). by right.
Qed.

Lemma fwd_absent l rep w rep' w' y :
  fwd_run opt w0 l rep w rep' w' →
  w_fs w !! y = None →
  (∀ q d, (q, Entry d) ∈ l → q ≠ Source opt → ¬ y `prefix_of` dest opt q) →
  w_fs w' !! y = None.
Proof.
  intros Hrun. induction Hrun as [rep w|d l rep w rep' w' Hrun IH
                                  |p d j l rep w rep1 w1 rep' w' Hne Hp Hj Hst Hm Hst1 Hrun IH];
    intros Hy Hcl; [done|..].
  - apply IH; [done|]. intros q d' Hin. apply (Hcl q d'). by right.
  - apply IH.
    + eapply mirrored_absent; [exact Hm|done|]. apply (Hcl p d); [by left|done].
    + intros q d' Hin. apply (Hcl q d'). by right.
Qed.

Lemma fwd_log l rep w rep' w' :
  fwd_run opt w0 l rep w rep' w' →
  ∃ lines, w_log w' = w_log w ++ lines ∧
    Copied rep' = Copied rep + Z.of_nat (length (filter is_copy_line lines)) ∧
    ∀ l0, l0 ∈ lines → is_copy_line l0 = true →
      ∃ q d, (q, Entry d) ∈ l ∧ q ≠ Source opt ∧ l0 = copy_line opt q.
Proof.
  intros Hrun. induction Hrun as [rep w|d l rep w rep' w' Hrun IH
                                  |p d j l rep w rep1 w1 rep' w' Hne Hp Hj Hst Hm Hst1 Hrun IH].
  - exists []. rewrite app_nil_r. split_and!; [done|cbn; lia|]. by intros ? ?%elem_of_nil.
  - destruct IH as (lines & Hlog & Hc & Hl). exists lines. split_and!; [done..|].
    intros l0 Hin Hcp. destruct (Hl l0 Hin Hcp) as (q & d' & Hq & ?). exists q, d'.
    split; [by right|done].
  - destruct IH as (lines & Hlog & Hc & Hl).
    destruct (mirrored_log _ _ _ _ _ _ _ Hm) as (lines1 & Hlog1 & Hc1 & Hl1 & _).
    exists (lines1 ++ lines). split_and!.
    + by rewrite Hlog, Hlog1, app_assoc.
    + rewrite filter_app, length_app. lia.
    + intros l0 [Hin|Hin]%elem_of_app Hcp.
      * exists p, d. split_and!; [by left|done|by apply Hl1].
      * destruct (Hl l0 Hin Hcp) as (q & d' & Hq & ?). exists q, d'. split; [by right|done].
Qed.

Lemma synced_keep f f' p j :
  synced opt f p j → (∀ i, f !! dest opt p = Some i → f' !! dest opt p = Some i) →
  synced opt f' p j.
Proof.
  unfold synced. intros Hs Hk. destruct (is_dir j).
  - destruct Hs as (Hl & i & Hi & Hd). split; [done|]. exists i. split; [by apply Hk|done].
  - destruct Hs as [Hl Hs]. split; [done|]. intros Hr.
    destruct (Hs Hr) as (Hlt & i & Hi & Hd). split; [done|]. exists i. split; [by apply Hk|done].
Qed.

(** What the head of a list of calls has written, the calls after it
    leave alone. *)
Lemma fwd_keeps_head p v l rep w rep' w' i :
  Source opt `prefix_of` p →
  Forall (clear_of (p, v)) l → of_source opt w0 l →
  fwd_run opt w0 l rep w rep' w' →
  w_fs w !! dest opt p = Some i → w_fs w' !! dest opt p = Some i.
Proof.
  intros Hp Hcl Hsrc Hrun Hi. eapply fwd_keeps; [exact Hrun|exact Hi|].
  intros q d Hin Hne. destruct (Hsrc q d Hin) as [Hq _].
  eapply clear_dest; [done..|]. rewrite Forall_forall in Hcl. by apply Hcl.
Qed.

(** After the pass, every node it has shown is in step with the target. *)
Lemma fwd_synced l rep w rep' w' :
  fwd_run opt w0 l rep w rep' w' →
  StronglySorted clear_of l → of_source opt w0 l →
  ∀ q d j, (q, Entry d) ∈ l → q ≠ Source opt → w_fs w0 !! q = Some j →
    (is_regular j = true → representable (i_mtime j)) →
    synced opt (w_fs w') q j.
Proof.
  intros Hrun. induction Hrun as [rep w|d l rep w rep' w' Hrun IH
                                  |p d j l rep w rep1 w1 rep' w' Hne Hp Hj Hst Hm Hst1 Hrun IH];
    intros [Hcl Hss]%StronglySorted_cons Hsrc q d0 j0 Hin Hq Hj0 Hrep0 ||
    intros _ _ q d0 j0 Hin Hq Hj0 Hrep0.
  - by apply elem_of_nil in Hin.
  - apply elem_of_cons in Hin as [Heq|Hin]; [by simplify_eq|].
    eapply IH; [done|by eapply of_source_cons|done..].
  - apply elem_of_cons in Hin as [Heq|Hin].
    + simplify_eq. eapply synced_keep; [by eapply mirrored_synced|].
      intros i Hi. eapply fwd_keeps_head; [exact Hp|exact Hcl|by eapply of_source_cons|done..].
    + eapply IH; [done|by eapply of_source_cons|done..].
Qed.

Lemma copy_line_inj p q : copy_line opt p = copy_line opt q → p = q.
Proof. unfold copy_line. by intros [= ->]. Qed.

Lemma is_copy_line_copy p : is_copy_line (copy_line opt p) = true.
Proof. done. Qed.

(** A regular file of the source that the target does not have is
    written once, and one line of the log says so. *)
Lemma fwd_copied l rep w rep' w' :
  fwd_run opt w0 l rep w rep' w' →
  StronglySorted clear_of l → of_source opt w0 l →
  ∀ q d j, (q, Entry d) ∈ l → q ≠ Source opt → w_fs w0 !! q = Some j →
    is_dir j = false → is_regular j = true → representable (i_mtime j) →
    w_fs w !! dest opt q = None →
    ∃ m lines, IsDir m = false ∧
      w_fs w' !! dest opt q = Some (mkInode m (i_mtime j) (i_data j)) ∧
      w_log w' = w_log w ++ lines ∧
      filter (λ l0, l0 = copy_line opt q) lines = [copy_line opt q].
Proof.
  intros Hrun. induction Hrun as [rep w|d l rep w rep' w' Hrun IH
                                  |p d j l rep w rep1 w1 rep' w' Hne Hp Hj Hst Hm Hst1 Hrun IH];
    intros [Hcl Hss]%StronglySorted_cons Hsrc q d0 j0 Hin Hq Hj0 Hd0 Hr0 Hrep0 Hn0 ||
    intros _ _ q d0 j0 Hin Hq Hj0 Hd0 Hr0 Hrep0 Hn0.
  - by apply elem_of_nil in Hin.
  - apply elem_of_cons in Hin as [Heq|Hin]; [by simplify_eq|].
    eapply IH; [done|by eapply of_source_cons|done..].
  - pose proof (of_source_cons _ _ _ _ Hsrc) as Hsrc'.
    destruct (mirrored_log _ _ _ _ _ _ _ Hm) as (lines1 & Hlog1 & _ & Hl1 & Hone).
    apply elem_of_cons in Hin as [Heq|Hin].
    + simplify_eq. specialize (Hone Hn0 Hd0 Hr0). subst lines1.
      assert (∃ m, IsDir m = false ∧
                w_fs w1 !! dest opt p = Some (mkInode m (i_mtime j) (i_data j)))
        as (m & Hm1 & Hw1).
      { destruct Hm as [Hd _ _ _ _ _|_ Hr _ _ _ _|_ _ _ _ _ Hwr _ _|i _ _ _ _ Hi _ _ _ _
                        |i _ _ _ _ Hi _ _ _ _]; try congruence.
        destruct Hwr as (w2 & m & _ & Hm1 & Ht & _).
        rewrite set_mtime_representable in Ht by done. by exists m. }
      destruct (fwd_log _ _ _ _ _ Hrun) as (lines & Hlog & _ & Hl).
      exists m, ([copy_line opt p] ++ lines). split_and!; [done| | |].
      * eapply fwd_keeps_head; [exact Hp|exact Hcl|done..].
      * by rewrite Hlog, Hlog1, app_assoc.
      * rewrite filter_app, filter_cons_True by done. rewrite filter_nil.
        assert (filter (λ l0, l0 = copy_line opt p) lines = []) as ->; [|done].
        apply filter_none. intros l0 Hl0 ->.
        destruct (Hl _ Hl0 (is_copy_line_copy p)) as (q & d' & Hin & _ & Heq).
        apply copy_line_inj in Heq. subst q.
        rewrite Forall_forall in Hcl. destruct (Hcl _ Hin d' eq_refl) as [Hpp _]. done.
    + destruct (Hsrc' q d0 Hin) as [Hqs [->|(_ & j' & Hj' & _)]]; [done|].
      assert (p ≠ q) as Hpq.
      { rewrite Forall_forall in Hcl. by destruct (Hcl _ Hin d0 eq_refl) as [Hpp _]. }
      destruct (IH Hss Hsrc' q d0 j0 Hin Hq Hj0 Hd0 Hr0 Hrep0)
        as (m & lines & Hm2 & Hw' & Hlog & Hf).
      { eapply mirrored_absent; [exact Hm|done|].
        intros Hpre.
        assert (q `prefix_of` p) as Hqp.
        { destruct Hqs as [r ->], Hp as [r' ->]. rewrite !dest_app in Hpre.
          apply prefix_app_inv in Hpre. by apply prefix_app. }
        destruct (wf_above_dir _ _ _ _ Hwf Hj Hqp) as (dn & Hdn & Hdir); [by intros ->|].
        congruence. }
      exists m, (lines1 ++ lines). split_and!; [done..| |].
      * by rewrite Hlog, Hlog1, app_assoc.
      * rewrite filter_app, Hf.
        assert (filter (λ l0, l0 = copy_line opt q) lines1 = []) as ->; [|done].
        apply filter_none. intros l0 Hl0 ->.
        apply Hl1 in Hl0; [|done]. by apply copy_line_inj in Hl0.
Qed.

End ForwardFacts.

(** ** Runs without faults *)

Section Calm.
Context `{Limits}.

(** No fault comes up that was not pending. *)
Definition calm (w w' : World) : Prop := w_faults w = [] → w_faults w' = [].

#[global] Instance calm_preorder : PreOrder calm.
Proof.
  split.
  - intros w Hf. exact Hf.
  - intros w1 w2 w3 H12 H23 Hf. by apply H23, H12.
Qed.

Lemma calm_tail w : calm w (set_faults (tail (w_faults w)) w).
Proof. intros Hf. cbn. by rewrite Hf. Qed.

Lemma quiet_calm w w' : quiet w w' → calm w w'.
Proof. by intros (_ & _ & Hq). Qed.

Lemma mirror_calm opt p v rep w : calm w (snd (mirror opt p v rep w)).
Proof.
  apply (mirror_lift calm calm_tail).
  - by intros ??? Hf.
  - intros. apply quiet_calm, Mkdir_quiet.
  - intros. apply quiet_calm, OpenFile_quiet.
  - intros. apply quiet_calm, io_Copy_quiet.
  - intros. apply quiet_calm, Chtimes_quiet.
  - intros. apply quiet_calm, Rename_quiet.
  - intros. apply quiet_calm, Remove_quiet.
Qed.

Lemma prune_calm opt p v rep w : calm w (snd (prune opt p v rep w)).
Proof.
  apply (prune_lift calm calm_tail).
  - by intros ??? Hf.
  - intros. apply quiet_calm, Remove_quiet.
Qed.

End Calm.

(** ** Trees that agree at and below a path are walked alike *)

Section Agree.
Context `{Limits}.

Lemma readdir_pure_ext f f' p :
  (∀ x, p `prefix_of` x → f !! x = f' !! x) → is_Some (f !! p) →
  readdir_pure f p = readdir_pure f' p.
Proof.
  intros Hag [i Hi]. unfold readdir_pure, resolve.
  rewrite <- (Hag p) by done. rewrite Hi.
  rewrite (listing_agree f f' p); [done|].
  intros n. apply Hag. by apply prefix_app_r.
Qed.

Lemma visits_ext fuel f f' p d :
  (∀ x, p `prefix_of` x → f !! x = f' !! x) → is_Some (f !! p) →
  visits fuel f p d = visits fuel f' p d.
Proof.
  revert p d. induction fuel as [|fuel IH]; intros p d Hag Hp; [done|].
  cbn [visits]. rewrite <- (readdir_pure_ext f f' p Hag Hp).
  f_equal. destruct (d_IsDir d); [|done]. f_equal.
  assert (∀ ds, (∀ d1, d1 ∈ ds → is_Some (f !! (p ++ [de_name d1]))) →
    flat_map (λ d1, visits fuel f (Join p [de_name d1]) d1) ds =
    flat_map (λ d1, visits fuel f' (Join p [de_name d1]) d1) ds) as Hfm.
  { induction ds as [|d1 ds IHds]; intros Hex; [done|]. cbn [flat_map]. f_equal.
    - apply IH; [|apply Hex; by left].
      intros x Hx. apply Hag. etrans; [|exact Hx]. by apply prefix_app_r.
    - apply IHds. intros d2 Hd2. apply Hex. by right. }
  apply Hfm. intros d1 Hd1. apply readdir_pure_entries in Hd1 as (_ & i & Hi & _). by eexists.
Qed.

Lemma root_visits_ext fuel f f' root :
  (∀ x, root `prefix_of` x → f !! x = f' !! x) → is_Some (f !! root) →
  root_visits fuel f root = root_visits fuel f' root.
Proof.
  intros Hag [i Hi]. unfold root_visits, stat_pure, resolve.
  rewrite <- (Hag root) by done. rewrite Hi. destruct (too_long root); [done|].
  apply visits_ext; [done|by eexists].
Qed.

End Agree.

(** ** The forward pass of a run without faults, as a list of visits *)

Section ForwardWalk.
Context `{Limits}.
Variable opt : Options.
Variable w0 : World.
Hypothesis Hap : roots_apart opt.
Hypothesis Hwf : wf (w_fs w0).
Hypothesis HT : is_Some (w_fs w0 !! Target opt).

Lemma steady_refl : w_faults w0 = [] → steady opt w0 w0.
Proof. intros Hf. split; [done|apply confined_refl]. Qed.

Lemma steady_mirror q v rep w :
  Source opt `prefix_of` q → steady opt w0 w → steady opt w0 (snd (mirror opt q v rep w)).
Proof.
  intros Hq [Hf Hc]. split; [by apply mirror_calm|].
  eapply confined_trans; [exact Hc|]. apply (mirror_below_target opt w0); [|done..].
  intros x Hx. by eapply wf_prefix.
Qed.

Lemma steady_prune q v rep w :
  Target opt `prefix_of` q → steady opt w0 w → steady opt w0 (snd (prune opt q v rep w)).
Proof.
  intros Hq [Hf Hc]. split; [by apply prune_calm|].
  eapply confined_trans; [exact Hc|]. by apply prune_below_target.
Qed.

Lemma forward_static fuel rep e rep' w' :
  w_faults w0 = [] →
  WalkDir fuel (Source opt) (mirror opt) rep w0 = Some (e, rep', w') →
  e = None ∧
  (rep', w') = run_visits (mirror opt) (root_visits fuel (w_fs w0) (Source opt)) rep w0 ∧
  steady opt w0 w'.
Proof.
  intros Hf Hw.
  eapply (WalkDir_static (Source opt) (w_fs w0) (mirror opt) (steady opt w0));
    [..|by apply steady_refl|done|exact Hw].
  - intros. apply mirror_no_error.
  - by intros w [? _].
  - intros q v r w Hq Hst. split; [by apply steady_mirror|].
    intros x Hx _.
    pose proof (steady_mirror q v r w Hq Hst) as Hst'.
    by rewrite (steady_source opt w0 Hap _ x Hst'), (steady_source opt w0 Hap _ x Hst).
Qed.

Lemma root_visits_of_source fuel : of_source opt w0 (root_visits fuel (w_fs w0) (Source opt)).
Proof. intros q d Hin. by apply root_visits_sound in Hin. Qed.

(** The forward pass of a run that records no error. *)
Lemma forward_pass rep e rep' w' :
  w_faults w0 = [] →
  WalkDir walk_fuel (Source opt) (mirror opt) rep w0 = Some (e, rep', w') →
  Errors rep' = Errors rep →
  fwd_run opt w0 (root_visits walk_fuel (w_fs w0) (Source opt)) rep w0 rep' w' ∧
  steady opt w0 w'.
Proof.
  intros Hf Hw Herr. destruct (forward_static _ _ _ _ _ Hf Hw) as (_ & Hrun & _).
  pose proof (forward_run opt w0 Hap Hwf HT (root_visits walk_fuel (w_fs w0) (Source opt))
                rep w0 (root_visits_of_source _) (steady_refl Hf)) as Hfr.
  rewrite <- Hrun in Hfr. cbn [fst snd] in Hfr. by apply Hfr.
Qed.

Lemma fwd_run_entries l rep w rep' w' q v :
  fwd_run opt w0 l rep w rep' w' → (q, v) ∈ l → ∃ d, v = Entry d.
Proof.
  intros Hrun. induction Hrun as [rep w|d l rep w rep' w' Hrun IH
                                  |p d j l rep w rep1 w1 rep' w' Hne Hp Hj Hst Hm Hst1 Hrun IH];
    [by intros ?%elem_of_nil|..].
  all: intros [Heq|Hin]%elem_of_cons; [simplify_eq; by eexists|by apply IH].
Qed.

(** The pass has shown every node of the source tree. *)
Lemma forward_complete rep rep' w' q :
  fwd_run opt w0 (root_visits walk_fuel (w_fs w0) (Source opt)) rep w0 rep' w' →
  Source opt `prefix_of` q → is_Some (w_fs w0 !! q) →
  ∃ d, (q, Entry d) ∈ root_visits walk_fuel (w_fs w0) (Source opt).
Proof.
  intros Hrun Hq Hex. apply root_visits_complete; [done| |done..].
  intros x dd e Hin. by destruct (fwd_run_entries _ _ _ _ _ _ _ Hrun Hin).
Qed.

End ForwardWalk.

(** ** The delete pass of a run that records no error *)

Section Pruned.
Context `{Limits}.
Local Open Scope io_scope.

(** The source path the delete pass asks for at [q]. *)
Definition src_of (opt : Options) (q : path) : path :=
  Join (Source opt) (Rel (Target opt) q).

(** What a visit of the delete pass that records no error has done. *)
Inductive pruned (opt : Options) (q : path) (d : DirEntry)
    (rep : Report) (w : World) (rep' : Report) (w' : World) : Prop :=
| pruned_keep :
    rep' = rep → w' = w →
    (q = Target opt ∨ d_IsDir d = true ∨
     (is_Some (w_fs w !! src_of opt q) ∧ too_long (src_of opt q) = false)) →
    pruned opt q d rep w rep' w'
| pruned_remove :
    q ≠ Target opt → d_IsDir d = false →
    w_fs w !! src_of opt q = None →
    w_fs w' = delete q (w_fs w) → rep' = incDeleted rep →
    w_log w' = w_log w ++ [mkLog "DELETE: %s (missing in source)" [APath q]] →
    w_faults w' = [] →
    pruned opt q d rep w rep' w'.

Lemma prune_entry_ok opt q d rep w :
  w_faults w = [] →
  Errors (snd (fst (prune opt q (Entry d) rep w))) = Errors rep →
  pruned opt q d rep w (snd (fst (prune opt q (Entry d) rep w)))
    (snd (prune opt q (Entry d) rep w)).
Proof.
  intros Hf.
  destruct (prune opt q (Entry d) rep w) as [[e rep'] w'] eqn:E. cbn [fst snd]. intros Herr.
  revert E. unfold prune. case_bool_decide as Hq.
  { unfold ret. intros [= <- <- <-]. apply pruned_keep; auto. }
  cbv zeta. change (Join (Source opt) (Rel (Target opt) q)) with (src_of opt q).
  destruct (d_IsDir d) eqn:Hd.
  { unfold ret. intros [= <- <- <-]. apply pruned_keep; auto. }
  unfold bind at 1. unfold Stat. rewrite stat_as_no_fault by done.
  destruct (stat_pure "stat" (w_fs w) (src_of opt q)) as [err|st] eqn:Est.
  2:{ unfold ret. intros [= <- <- <-]. apply pruned_keep; [done..|].
      destruct (stat_pure_inr _ _ _ _ Est) as (i & Hi & _ & Hl). right; right.
      split; [by eexists|done]. }
  destruct (Is_ErrNotExist err) eqn:Hnx.
  2:{ unfold bind, Printf, modify, ret. intros [= <- <- <-]. by apply addErr_Errors in Herr. }
  destruct (stat_pure_inl_not_exist _ _ _ _ Est Hnx) as [Hnone Hlt].
  unfold bind at 1.
  pose proof (Remove_ok q w) as Hrm. pose proof (Remove_quiet q w) as (Hlog & _ & Hfl).
  destruct (Remove q w) as [[rmErr|] w1]; cbn [fst snd] in *.
  { unfold bind, Printf, modify, ret. intros [= <- <- <-]. by apply addErr_Errors in Herr. }
  unfold bind, Printf, modify, ret. intros [= <- <- <-].
  apply pruned_remove; try done.
  - cbn [w_fs]. by apply Hrm.
  - cbn [w_log]. by rewrite Hlog.
  - cbn [w_faults]. by apply Hfl.
Qed.

(** The run of the delete pass over a list of calls, visit by visit. *)
Inductive del_run (opt : Options) :
    list (path * visit) → Report → World → Report → World → Prop :=
| del_nil rep w : del_run opt [] rep w rep w
| del_step q d l rep w rep1 w1 rep' w' :
    pruned opt q d rep w rep1 w1 → del_run opt l rep1 w1 rep' w' →
    del_run opt ((q, Entry d) :: l) rep w rep' w'.

Lemma run_visits_prune_le opt l rep w :
  report_le rep (fst (run_visits (prune opt) l rep w)).
Proof.
  revert rep w. induction l as [|[p v] l IH]; intros rep w; cbn [run_visits fst]; [done|].
  pose proof (prune_report_le opt p v rep w) as Hle.
  destruct (prune opt p v rep w) as [[e rep1] w1]. cbn [fst snd] in Hle.
  etrans; [exact Hle|apply IH].
Qed.

Lemma pruned_faults opt q d rep w rep' w' :
  pruned opt q d rep w rep' w' → w_faults w = [] → w_faults w' = [].
Proof. intros [_ -> _|_ _ _ _ _ _ Hf]; done. Qed.

Lemma delete_run opt l rep w :
  w_faults w = [] →
  Errors (fst (run_visits (prune opt) l rep w)) = Errors rep →
  del_run opt l rep w (fst (run_visits (prune opt) l rep w))
                      (snd (run_visits (prune opt) l rep w)) ∧
  w_faults (snd (run_visits (prune opt) l rep w)) = [].
Proof.
  revert rep w. induction l as [|[p v] l IH]; intros rep w Hf Herr; cbn [run_visits].
  { split; [constructor|done]. }
  cbn [run_visits] in Herr.
  pose proof (prune_report_le opt p v rep w) as Hle.
  pose proof (prune_entry_ok opt p) as Hok.
  destruct (prune opt p v rep w) as [[e rep1] w1] eqn:E. cbn [fst snd] in *.
  pose proof (run_visits_prune_le opt l rep1 w1) as Hle'.
  assert (Errors rep1 = Errors rep) as Herr1.
  { symmetry. apply prefix_length_eq; [apply Hle|].
    destruct Hle' as (_ & _ & _ & _ & Hp). apply prefix_length in Hp.
    rewrite Herr in Hp. done. }
  assert (Errors (fst (run_visits (prune opt) l rep1 w1)) = Errors rep1) as Herr'
    by congruence.
  destruct v as [d|dd err].
  2:{ exfalso. unfold prune in E. unfold bind, Printf, modify, ret in E.
      simplify_eq. by apply addErr_Errors in Herr1. }
  specialize (Hok d rep w Hf). rewrite E in Hok. cbn [fst snd] in Hok.
  specialize (Hok Herr1).
  destruct (IH rep1 w1) as [Hrun Hf']; [by eapply pruned_faults|done|].
  split; [|done]. by eapply del_step.
Qed.

(** Whatever happens, a visit of the delete pass takes away at most the
    entry it is shown, and only when that is not a directory. *)
Lemma prune_fs opt q v rep w :
  w_fs (snd (prune opt q v rep w)) = w_fs w ∨
  (∃ d, v = Entry d ∧ d_IsDir d = false ∧
     w_fs (snd (prune opt q v rep w)) = delete q (w_fs w)).
Proof.
  destruct (prune opt q v rep w) as [[e rep'] w'] eqn:E. cbn [snd]. revert E.
  unfold prune. destruct v as [d|dd err].
  2:{ unfold bind, Printf, modify, ret. intros [= <- <- <-]. by left. }
  case_bool_decide; [unfold ret; intros [= <- <- <-]; by left|].
  destruct (d_IsDir d) eqn:Hd; [unfold ret; intros [= <- <- <-]; by left|].
  unfold bind at 1. pose proof (stat_as_fs "stat" (src_of opt q) w) as Hs.
  fold (Stat (src_of opt q) w) in Hs. unfold src_of in Hs.
  destruct (Stat _ w) as [[err|st] w1]; cbn [fst snd] in *;
    [|unfold ret; intros [= <- <- <-]; by left].
  destruct (Is_ErrNotExist err).
  2:{ unfold bind, Printf, modify, ret. intros [= <- <- <-]. by left. }
  unfold bind at 1.
  pose proof (Remove_ok q w1) as Hok. pose proof (Remove_failed q w1) as Hfail.
  destruct (Remove q w1) as [[rmErr|] w2]; cbn [fst snd] in *.
  - unfold bind, Printf, modify, ret. intros [= <- <- <-]. left. cbn [w_fs].
    transitivity (w_fs w1); [by apply (Hfail rmErr)|done].
  - unfold bind, Printf, modify, ret. intros [= <- <- <-]. right. exists d.
    split_and!; [done..|]. cbn [w_fs].
    transitivity (delete q (w_fs w1)); [by apply Hok|by rewrite Hs].
Qed.

Section DelFacts.
Variable opt : Options.
Hypothesis Hap : roots_apart opt.

Lemma src_of_app r : src_of opt (Target opt ++ r) = Source opt ++ r.
Proof. unfold src_of, Join. by rewrite Rel_app. Qed.

Lemma src_of_dest p : Source opt `prefix_of` p → src_of opt (dest opt p) = p.
Proof. intros [r ->]. by rewrite dest_app, src_of_app. Qed.

Lemma src_of_not_target y q : Target opt `prefix_of` q → src_of opt y ≠ q.
Proof.
  intros Hq Heq. destruct Hap as [_ HTS].
  assert (Source opt `prefix_of` q) as Hs by (rewrite <- Heq; by apply prefix_app_r).
  destruct (prefix_weak_total _ _ _ Hq Hs) as [?|?]; [done|].
  destruct Hap. done.
Qed.

Definition in_target (l : list (path * visit)) : Prop :=
  ∀ q v, (q, v) ∈ l → Target opt `prefix_of` q.

Lemma in_target_cons a l : in_target (a :: l) → in_target l.
Proof. intros Hl q v Hin. apply (Hl q v). by right. Qed.

(** The pass only takes nodes away. *)
Lemma del_mono l rep w rep' w' y i :
  del_run opt l rep w rep' w' → w_fs w' !! y = Some i → w_fs w !! y = Some i.
Proof.
  intros Hrun. induction Hrun as [rep w|q d l rep w rep1 w1 rep' w' Hp Hrun IH]; [done|].
  intros Hy%IH. destruct Hp as [_ -> _|_ _ _ Hfs _ _ _]; [done|].
  rewrite Hfs in Hy. by apply lookup_delete_Some in Hy as [_ ?].
Qed.

(** What has a counterpart in the source stays. *)
Lemma del_keeps l rep w rep' w' y :
  del_run opt l rep w rep' w' → in_target l →
  is_Some (w_fs w !! src_of opt y) → w_fs w' !! y = w_fs w !! y.
Proof.
  intros Hrun. induction Hrun as [rep w|q d l rep w rep1 w1 rep' w' Hp Hrun IH]; [done|].
  intros Hl Hy. pose proof (in_target_cons _ _ Hl) as Hl'.
  destruct Hp as [_ -> _|_ _ Hn Hfs _ _ _]; [by apply IH|].
  rewrite IH; [|done|].
  - rewrite Hfs. apply lookup_delete_ne. intros ->. rewrite Hn in Hy. by destruct Hy.
  - rewrite Hfs, lookup_delete_ne; [done|]. apply not_eq_sym, src_of_not_target.
    apply (Hl q (Entry d)). by left.
Qed.

(** The source tree stays as it is. *)
Lemma del_source l rep w rep' w' x :
  del_run opt l rep w rep' w' → in_target l →
  Source opt `prefix_of` x → w_fs w' !! x = w_fs w !! x.
Proof.
  intros Hrun. induction Hrun as [rep w|q d l rep w rep1 w1 rep' w' Hp Hrun IH]; [done|].
  intros Hl Hx. pose proof (in_target_cons _ _ Hl) as Hl'.
  destruct Hp as [_ -> _|_ _ Hn Hfs _ _ _]; [by apply IH|].
  rewrite IH by done. rewrite Hfs. apply lookup_delete_ne. intros <-.
  destruct Hap as [HST HTS].
  destruct (prefix_weak_total _ _ _ Hx (Hl q (Entry d) ltac:(by left))); done.
Qed.

(** After the pass, an entry it has shown that is not a directory is
    gone, or has its counterpart in the source. *)
Lemma del_post l rep w rep' w' :
  del_run opt l rep w rep' w' → in_target l →
  ∀ q d, (q, Entry d) ∈ l → q ≠ Target opt → d_IsDir d = false →
    w_fs w' !! q = None ∨
    (is_Some (w_fs w' !! src_of opt q) ∧ too_long (src_of opt q) = false).
Proof.
  intros Hrun. induction Hrun as [rep w|q d l rep w rep1 w1 rep' w' Hp Hrun IH];
    intros Hl q0 d0 Hin Hq0 Hd0; [by apply elem_of_nil in Hin|].
  pose proof (in_target_cons _ _ Hl) as Hl'.
  apply elem_of_cons in Hin as [Heq|Hin]; [|by eapply IH].
  injection Heq as Hq' Hd'. subst q0 d0. destruct Hp as [_ -> Hc|_ _ Hn Hfs _ _ _].
  - destruct Hc as [?|[?|[Hs Hlt]]]; [done|congruence|]. right. split; [|done].
    rewrite (del_source _ _ _ _ _ _ Hrun Hl'); [done|]. by apply prefix_app_r.
  - left. destruct (w_fs w' !! q) as [i|] eqn:Hi; [|done].
    apply (del_mono _ _ _ _ _ _ _ Hrun) in Hi. by rewrite Hfs, lookup_delete_eq in Hi.
Qed.

(** The pass copies nothing and says so. *)
Lemma del_log l rep w rep' w' :
  del_run opt l rep w rep' w' →
  Copied rep' = Copied rep ∧ Overwritten rep' = Overwritten rep ∧
  Skipped rep' = Skipped rep ∧ Errors rep' = Errors rep ∧
  ∃ lines, w_log w' = w_log w ++ lines ∧ filter is_copy_line lines = [].
Proof.
  intros Hrun. induction Hrun as [rep w|q d l rep w rep1 w1 rep' w' Hp Hrun IH].
  { split_and!; [done..|]. exists []. by rewrite app_nil_r. }
  destruct IH as (Hc & Ho & Hs & He & lines & Hlog & Hfl).
  destruct Hp as [-> -> _|_ _ _ _ -> Hlog1 _].
  - split_and!; [done..|]. by exists lines.
  - split_and!; [done..|]. eexists (_ ++ lines). split.
    + by rewrite Hlog, Hlog1, <- app_assoc.
    + rewrite filter_app, Hfl, filter_copy_line_other; done.
Qed.

End DelFacts.

End Pruned.

(** ** A run without faults that records no error, taken apart *)

Section DeleteWalk.
Context `{Limits}.
Variable opt : Options.
Variable w0 : World.
Hypothesis Hap : roots_apart opt.

Lemma root_visits_prefix fuel f root q v :
  (q, v) ∈ root_visits fuel f root → root `prefix_of` q.
Proof.
  unfold root_visits. destruct (stat_pure "lstat" f root).
  - by intros [= -> _]%list_elem_of_singleton.
  - by intros [? _]%visits_sound.
Qed.

Lemma root_visits_in_target fuel f : in_target opt (root_visits fuel f (Target opt)).
Proof. intros q v Hin. by eapply root_visits_prefix. Qed.

Lemma delete_static fuel rep wA e rep' w' :
  steady opt w0 wA →
  WalkDir fuel (Target opt) (prune opt) rep wA = Some (e, rep', w') →
  e = None ∧
  (rep', w') = run_visits (prune opt) (root_visits fuel (w_fs wA) (Target opt)) rep wA ∧
  steady opt w0 w'.
Proof.
  intros Hst Hw.
  eapply (WalkDir_static (Target opt) (w_fs wA) (prune opt) (steady opt w0));
    [..|exact Hst|done|exact Hw].
  - intros. apply prune_no_error.
  - by intros w [? _].
  - intros q v r w Hq Hsw. split; [by apply steady_prune|].
    intros x Hx Hleaf.
    destruct (prune_fs opt q v r w) as [->|(d & -> & Hd & ->)]; [done|].
    apply lookup_delete_ne. destruct Hleaf as [?|Hl]; [done|].
    cbn in Hl. by rewrite Hd in Hl.
Qed.

Lemma delete_pass rep wA e rep' w' :
  steady opt w0 wA →
  WalkDir walk_fuel (Target opt) (prune opt) rep wA = Some (e, rep', w') →
  Errors rep' = Errors rep →
  del_run opt (root_visits walk_fuel (w_fs wA) (Target opt)) rep wA rep' w' ∧
  steady opt w0 w'.
Proof.
  intros Hst Hw Herr. destruct (delete_static _ _ _ _ _ _ Hst Hw) as (_ & Hrun & Hst').
  split; [|done].
  pose proof (delete_run opt (root_visits walk_fuel (w_fs wA) (Target opt)) rep wA) as Hdr.
  rewrite <- Hrun in Hdr. cbn [fst snd] in Hdr. apply Hdr; [apply Hst|done].
Qed.

End DeleteWalk.

Section CleanRun.
Context `{Limits}.
Variable opt : Options.
Variable w0 : World.
Hypothesis Hap : roots_apart opt.
Hypothesis Hwf : wf (w_fs w0).
Hypothesis HT : is_Some (w_fs w0 !! Target opt).
Hypothesis Hf : w_faults w0 = [].

(** The two passes of a run that records no error. *)
Lemma Sync_clean rep1 w1 :
  Sync opt w0 = Some (rep1, w1) → Errors rep1 = [] →
  ∃ repA wA,
    fwd_run opt w0 (root_visits walk_fuel (w_fs w0) (Source opt)) empty_report w0 repA wA ∧
    steady opt w0 wA ∧ wf (w_fs wA) ∧ Errors repA = [] ∧ steady opt w0 w1 ∧
    if DeleteMissing opt
    then del_run opt (root_visits walk_fuel (w_fs wA) (Target opt)) repA wA rep1 w1
    else rep1 = repA ∧ w1 = wA.
Proof.
  intros (repA & wA & HwA & Hw1)%Sync_inv Herr. exists repA, wA.
  assert (Errors repA = []) as HerrA.
  { destruct (DeleteMissing opt); [|by destruct Hw1 as [-> _]].
    apply WalkDir_prune_report_le in Hw1 as [_ (_ & _ & _ & _ & Hp)].
    rewrite Herr in Hp. by apply prefix_nil_inv in Hp. }
  destruct (forward_pass opt w0 Hap Hwf HT _ _ _ _ Hf HwA) as [Hfwd HstA]; [done|].
  assert (wf (w_fs wA)) as HwfA by (by eapply WalkDir_mirror_wf).
  split_and!; try done.
  - destruct (DeleteMissing opt); [|by destruct Hw1 as [_ ->]].
    eapply delete_pass; [exact HstA|exact Hw1|congruence].
  - destruct (DeleteMissing opt); [|done].
    eapply delete_pass; [exact HstA|exact Hw1|congruence].
Qed.

End CleanRun.

(** ** A file the target lacks is copied *)

Lemma regular_not_dir (m : FileMode) : IsRegular m = true → IsDir m = false.
Proof.
  unfold IsRegular, IsDir. intros Hr%Z.eqb_eq.
  replace ModeDir with (Z.land ModeType ModeDir) by (vm_compute; reflexivity).
  rewrite Z.land_assoc, Hr. done.
Qed.

Lemma filter_copy_line_none opt q lines :
  filter is_copy_line lines = [] → filter (λ l0, l0 = copy_line opt q) lines = [].
Proof.
  intros Hno. apply filter_none. intros l0 Hin ->.
  eapply (filter_nil_not_elem_of (λ l, is_copy_line l)); [exact Hno| |exact Hin]. done.
Qed.

Section Copied.
Context `{Limits}.

(** C7, as amended.  In a run without faults that records no error
    (well-formed tree without symbolic links, target root present, roots
    apart), a regular file
    of the source that the target lacks, and whose modification time
    [os.Chtimes] can represent, is in the target afterwards, with the
    bytes and the modification time of the source file; the log has
    exactly one COPY line for it, [Copied] is the number of COPY lines of
    the run, and the source file is as it was. *)
Theorem missing_file_copied_once opt w0 rep1 w1 q j :
  wf (w_fs w0) → link_free (w_fs w0) →
  is_Some (w_fs w0 !! Target opt) → roots_apart opt →
  w_faults w0 = [] →
  Sync opt w0 = Some (rep1, w1) → Errors rep1 = [] →
  strictly_below (Source opt) q = true →
  w_fs w0 !! q = Some j → is_regular j = true →
  representable (i_mtime j) →
  w_fs w0 !! dest opt q = None →
  ∃ m lines,
    IsDir m = false ∧
    w_fs w1 !! dest opt q = Some (mkInode m (i_mtime j) (i_data j)) ∧
    w_fs w1 !! q = Some j ∧
    w_log w1 = w_log w0 ++ lines ∧
    filter (λ l0, l0 = copy_line opt q) lines = [copy_line opt q] ∧
    Copied rep1 = Z.of_nat (length (filter is_copy_line lines)).
Proof.
  intros Hwf _ HT Hap Hf Hs Herr Hq Hj Hreg Hrep Hnone.
  assert (is_dir j = false) as Hdir by (by apply regular_not_dir).
  pose proof (strictly_below_prefix _ _ Hq) as Hpre.
  assert (q ≠ Source opt) as Hne.
  { apply strictly_below_spec in Hq as (r & Hr & ->). intros Heq.
    apply (f_equal length) in Heq. rewrite length_app in Heq. destruct r; [done|cbn in Heq; lia]. }
  destruct (Sync_clean opt w0 Hap Hwf HT Hf _ _ Hs Herr)
    as (repA & wA & Hfwd & HstA & HwfA & HerrA & Hst1 & Hdel).
  destruct (forward_complete opt w0 Hwf _ _ _ q Hfwd Hpre) as [d Hin]; [by eexists|].
  destruct (fwd_copied opt w0 Hwf _ _ _ _ _ Hfwd (root_visits_clear _ _ _)
              (root_visits_of_source opt w0 _) q d j Hin Hne Hj Hdir Hreg Hrep Hnone)
    as (m & lines & Hm & HwA & Hlog & Hone).
  destruct (fwd_log opt w0 _ _ _ _ _ Hfwd) as (lines' & Hlog' & Hcount & _).
  assert (lines' = lines) as -> by (rewrite Hlog in Hlog'; by apply app_inv_head in Hlog').
  cbn [Copied empty_report] in Hcount.
  destruct (DeleteMissing opt).
  - destruct (del_log opt _ _ _ _ _ Hdel) as (Hc & _ & _ & _ & linesD & HlogD & HD).
    exists m, (lines ++ linesD). split_and!; [done| | | | |].
    + rewrite (del_keeps opt Hap _ _ _ _ _ _ Hdel (root_visits_in_target opt _ _)); [done|].
      rewrite src_of_dest by done. rewrite (steady_source opt w0 Hap _ _ HstA Hpre). by eexists.
    + by rewrite (steady_source opt w0 Hap _ _ Hst1 Hpre).
    + by rewrite HlogD, Hlog, app_assoc.
    + by rewrite filter_app, Hone, (filter_copy_line_none _ _ _ HD).
    + rewrite filter_app, HD, app_nil_r. lia.
  - destruct Hdel as [-> ->]. exists m, lines. split_and!; try done; try lia.
    by rewrite (steady_source opt w0 Hap _ _ HstA Hpre).
Qed.

End Copied.

Module MirrorExample.

(** A source with [a.txt] and [sub/b.txt]; the target has only
    [stale.txt]. *)
Definition start : World :=
  Examples.world_of
    [([], Examples.dir_node); (["s"], Examples.dir_node); (["t"], Examples.dir_node);
     (["s"; "a.txt"], Examples.file_node 63835596805000000000 [Byte.x61]);
     (["s"; "sub"], Examples.dir_node);
     (["s"; "sub"; "b.txt"], Examples.file_node 63835596806000000000 [Byte.x62]);
     (["t"; "stale.txt"], Examples.file_node 63835596807000000000 [Byte.x79])]%string.

Definition opts : Options := mkOptions ["s"] ["t"] true%string.

Definition run := @Sync Examples.limits opts start.

Lemma roots : roots_apart opts.
Proof. split; intros [k Hk]; discriminate. Qed.

End MirrorExample.

Lemma missing_file_copied_once_witness :
  wf (w_fs MirrorExample.start) ∧
  link_free (w_fs MirrorExample.start) ∧
  is_Some (w_fs MirrorExample.start !! Target MirrorExample.opts) ∧
  roots_apart MirrorExample.opts ∧
  w_faults MirrorExample.start = [] ∧
  @Sync Examples.limits MirrorExample.opts MirrorExample.start =
    Some (final_report MirrorExample.run,
          final_world MirrorExample.start MirrorExample.run) ∧
  Errors (final_report MirrorExample.run) = [] ∧
  strictly_below (Source MirrorExample.opts) ["s"; "sub"; "b.txt"]%string = true ∧
  w_fs MirrorExample.start !! ["s"; "sub"; "b.txt"]%string =
    Some (Examples.file_node 63835596806000000000 [Byte.x62]) ∧
  is_regular (Examples.file_node 63835596806000000000 [Byte.x62]) = true ∧
  representable (i_mtime (Examples.file_node 63835596806000000000 [Byte.x62])) ∧
  w_fs MirrorExample.start !! dest MirrorExample.opts ["s"; "sub"; "b.txt"]%string = None ∧
  ∃ m lines,
    IsDir m = false ∧
    w_fs (final_world MirrorExample.start MirrorExample.run)
      !! dest MirrorExample.opts ["s"; "sub"; "b.txt"]%string =
      Some (mkInode m 63835596806000000000 [Byte.x62]) ∧
    w_fs (final_world MirrorExample.start MirrorExample.run) !! ["s"; "sub"; "b.txt"]%string =
      Some (Examples.file_node 63835596806000000000 [Byte.x62]) ∧
    w_log (final_world MirrorExample.start MirrorExample.run) =
      w_log MirrorExample.start ++ lines ∧
    filter (λ l0, l0 = copy_line MirrorExample.opts ["s"; "sub"; "b.txt"]%string) lines =
      [copy_line MirrorExample.opts ["s"; "sub"; "b.txt"]%string] ∧
    Copied (final_report MirrorExample.run) =
      Z.of_nat (length (filter is_copy_line lines)).
Proof.
  assert (wf (w_fs MirrorExample.start)) as H1 by (apply wfb_wf; vm_compute; reflexivity).
  assert (link_free (w_fs MirrorExample.start)) as HL
    by (apply link_freeb_link_free; vm_compute; reflexivity).
  assert (is_Some (w_fs MirrorExample.start !! Target MirrorExample.opts)) as H2
    by (eexists; vm_compute; reflexivity).
  assert (w_faults MirrorExample.start = []) as H4 by reflexivity.
  assert (@Sync Examples.limits MirrorExample.opts MirrorExample.start =
    Some (final_report MirrorExample.run,
          final_world MirrorExample.start MirrorExample.run)) as H5
    by (vm_compute; reflexivity).
  assert (Errors (final_report MirrorExample.run) = []) as H6 by (vm_compute; reflexivity).
  assert (strictly_below (Source MirrorExample.opts) ["s"; "sub"; "b.txt"]%string = true)
    as H7 by (vm_compute; reflexivity).
  assert (w_fs MirrorExample.start !! ["s"; "sub"; "b.txt"]%string =
    Some (Examples.file_node 63835596806000000000 [Byte.x62])) as H8 by (vm_compute; reflexivity).
  assert (is_regular (Examples.file_node 63835596806000000000 [Byte.x62]) = true) as H9
    by (vm_compute; reflexivity).
  assert (representable (i_mtime (Examples.file_node 63835596806000000000 [Byte.x62])))
    as Hr by (vm_compute; split; [discriminate|reflexivity]).
  assert (w_fs MirrorExample.start !! dest MirrorExample.opts ["s"; "sub"; "b.txt"]%string =
    None) as H10 by (vm_compute; reflexivity).
  exact (conj H1 (conj HL (conj H2 (conj MirrorExample.roots (conj H4 (conj H5 (conj H6 (conj H7
    (conj H8 (conj H9 (conj Hr (conj H10
      (@missing_file_copied_once Examples.limits _ _ _ _ _ _
         H1 HL H2 MirrorExample.roots H4 H5 H6 H7 H8 H9 Hr H10))))))))))))).
Defined.

(** ** After a run, the target mirrors the source *)

Section Mirrors.
Context `{Limits}.

Lemma strictly_below_ne root q : strictly_below root q = true → q ≠ root.
Proof.
  intros (r & Hr & ->)%strictly_below_spec Heq.
  apply (f_equal length) in Heq. rewrite length_app in Heq. destruct r; [done|cbn in Heq; lia].
Qed.

(** At the end of a run without faults that records no error, every node
    of the source is in step with the target. *)
Lemma Sync_synced opt w0 rep1 w1 q j :
  wf (w_fs w0) → is_Some (w_fs w0 !! Target opt) → roots_apart opt →
  w_faults w0 = [] →
  Sync opt w0 = Some (rep1, w1) → Errors rep1 = [] →
  strictly_below (Source opt) q = true → w_fs w0 !! q = Some j →
  (is_regular j = true → representable (i_mtime j)) →
  synced opt (w_fs w1) q j.
Proof.
  intros Hwf HT Hap Hf Hs Herr Hq Hj Hrep.
  pose proof (strictly_below_prefix _ _ Hq) as Hpre.
  pose proof (strictly_below_ne _ _ Hq) as Hne.
  destruct (Sync_clean opt w0 Hap Hwf HT Hf _ _ Hs Herr)
    as (repA & wA & Hfwd & HstA & HwfA & HerrA & Hst1 & Hdel).
  destruct (forward_complete opt w0 Hwf _ _ _ q Hfwd Hpre) as [d Hin]; [by eexists|].
  pose proof (fwd_synced opt w0 _ _ _ _ _ Hfwd (root_visits_clear _ _ _)
                (root_visits_of_source opt w0 _) q d j Hin Hne Hj Hrep) as Hsy.
  destruct (DeleteMissing opt); [|by destruct Hdel as [_ ->]].
  eapply synced_keep; [exact Hsy|]. intros i Hi.
  rewrite (del_keeps opt Hap _ _ _ _ _ _ Hdel (root_visits_in_target opt _ _)); [done|].
  rewrite src_of_dest by done. rewrite (steady_source opt w0 Hap _ _ HstA Hpre). by eexists.
Qed.

(** After a run of [Sync] without faults that records no error
    (well-formed tree without symbolic links, target root present, roots
    apart), every directory
    of the source has a directory at its destination, and every regular
    file of the source whose modification time [os.Chtimes] can represent
    has a node at its destination of the same size that [differ] takes
    for unchanged; the source node is as it was. *)
Theorem Sync_mirrors_source opt w0 rep1 w1 q j :
  wf (w_fs w0) → link_free (w_fs w0) →
  is_Some (w_fs w0 !! Target opt) → roots_apart opt →
  w_faults w0 = [] →
  Sync opt w0 = Some (rep1, w1) → Errors rep1 = [] →
  strictly_below (Source opt) q = true → w_fs w0 !! q = Some j →
  w_fs w1 !! q = Some j ∧
  (is_dir j = true → ∃ i, w_fs w1 !! dest opt q = Some i ∧ is_dir i = true) ∧
  (is_regular j = true → representable (i_mtime j) →
   ∃ i, w_fs w1 !! dest opt q = Some i ∧
        differ (info_of j) (info_of i) = false ∧
        length (i_data i) = length (i_data j)).
Proof.
  intros Hwf _ HT Hap Hf Hs Herr Hq Hj.
  destruct (Sync_clean opt w0 Hap Hwf HT Hf _ _ Hs Herr)
    as (_ & _ & _ & _ & _ & _ & Hst1 & _).
  split_and!.
  - by rewrite (steady_source opt w0 Hap _ _ Hst1 (strictly_below_prefix _ _ Hq)).
  - intros Hd.
    assert (is_regular j = true → representable (i_mtime j)) as Hrep.
    { intros Hr%regular_not_dir. unfold is_dir in Hd. congruence. }
    pose proof (Sync_synced _ _ _ _ _ _ Hwf HT Hap Hf Hs Herr Hq Hj Hrep) as Hsy.
    unfold synced in Hsy. rewrite Hd in Hsy. apply Hsy.
  - intros Hr Hrep. assert (is_dir j = false) as Hd by (by apply regular_not_dir).
    pose proof (Sync_synced _ _ _ _ _ _ Hwf HT Hap Hf Hs Herr Hq Hj (λ _, Hrep)) as Hsy.
    unfold synced in Hsy. rewrite Hd in Hsy.
    destruct Hsy as [_ Hsy]. destruct (Hsy Hr) as (_ & i & Hi & Hdf).
    exists i. split_and!; [done..|].
    unfold differ, info_of in Hdf. cbn [Size ModTime] in Hdf.
    destruct (Z.of_nat (length (i_data j)) =? Z.of_nat (length (i_data i))) eqn:E; [|done].
    apply Z.eqb_eq in E. lia.
Qed.

End Mirrors.

Lemma Sync_mirrors_source_witness :
  wf (w_fs MirrorExample.start) ∧
  link_free (w_fs MirrorExample.start) ∧
  is_Some (w_fs MirrorExample.start !! Target MirrorExample.opts) ∧
  roots_apart MirrorExample.opts ∧
  w_faults MirrorExample.start = [] ∧
  @Sync Examples.limits MirrorExample.opts MirrorExample.start =
    Some (final_report MirrorExample.run,
          final_world MirrorExample.start MirrorExample.run) ∧
  Errors (final_report MirrorExample.run) = [] ∧
  strictly_below (Source MirrorExample.opts) ["s"; "a.txt"]%string = true ∧
  w_fs MirrorExample.start !! ["s"; "a.txt"]%string =
    Some (Examples.file_node 63835596805000000000 [Byte.x61]) ∧
  is_regular (Examples.file_node 63835596805000000000 [Byte.x61]) = true ∧
  representable (i_mtime (Examples.file_node 63835596805000000000 [Byte.x61])) ∧
  ∃ i, w_fs (final_world MirrorExample.start MirrorExample.run)
         !! dest MirrorExample.opts ["s"; "a.txt"]%string = Some i ∧
       differ (info_of (Examples.file_node 63835596805000000000 [Byte.x61])) (info_of i)
         = false ∧
       length (i_data i) =
         length (i_data (Examples.file_node 63835596805000000000 [Byte.x61])).
Proof.
  assert (wf (w_fs MirrorExample.start)) as H1 by (apply wfb_wf; vm_compute; reflexivity).
  assert (link_free (w_fs MirrorExample.start)) as HL
    by (apply link_freeb_link_free; vm_compute; reflexivity).
  assert (is_Some (w_fs MirrorExample.start !! Target MirrorExample.opts)) as H2
    by (eexists; vm_compute; reflexivity).
  assert (w_faults MirrorExample.start = []) as H4 by reflexivity.
  assert (@Sync Examples.limits MirrorExample.opts MirrorExample.start =
    Some (final_report MirrorExample.run,
          final_world MirrorExample.start MirrorExample.run)) as H5
    by (vm_compute; reflexivity).
  assert (Errors (final_report MirrorExample.run) = []) as H6 by (vm_compute; reflexivity).
  assert (strictly_below (Source MirrorExample.opts) ["s"; "a.txt"]%string = true)
    as H7 by (vm_compute; reflexivity).
  assert (w_fs MirrorExample.start !! ["s"; "a.txt"]%string =
    Some (Examples.file_node 63835596805000000000 [Byte.x61])) as H8
    by (vm_compute; reflexivity).
  assert (is_regular (Examples.file_node 63835596805000000000 [Byte.x61]) = true) as H9
    by (vm_compute; reflexivity).
  assert (representable (i_mtime (Examples.file_node 63835596805000000000 [Byte.x61])))
    as H10 by (vm_compute; split; [discriminate|reflexivity]).
  exact (conj H1 (conj HL (conj H2 (conj MirrorExample.roots (conj H4 (conj H5 (conj H6 (conj H7
    (conj H8 (conj H9 (conj H10
      (proj2 (proj2 (@Sync_mirrors_source Examples.limits _ _ _ _ _ _
         H1 HL H2 MirrorExample.roots H4 H5 H6 H7 H8)) H9 H10)))))))))))).
Defined.

(** ** Counting the entries a walk shows *)

(** A call that shows an entry below the root that is not a directory. *)
Definition file_visit (root : path) (pv : path * visit) : bool :=
  match pv.2 with
  | Entry d => negb (bool_decide (pv.1 = root)) && negb (d_IsDir d)
  | Failed _ _ => false
  end.

Lemma file_visit_spec root q v :
  file_visit root (q, v) = true ↔ ∃ d, v = Entry d ∧ q ≠ root ∧ d_IsDir d = false.
Proof.
  unfold file_visit. cbn [fst snd]. destruct v as [d|dd e].
  - rewrite andb_true_iff, !negb_true_iff, bool_decide_eq_false. split.
    + intros [? ?]. by exists d.
    + by intros (d' & [= <-] & ? & ?).
  - split; [done|]. by intros (? & ? & _).
Qed.

Lemma clear_NoDup root l :
  StronglySorted clear_of l → NoDup (fst <$> filter (file_visit root) l).
Proof.
  induction l as [|a l IH]; [constructor|].
  intros [Hcl Hss]%StronglySorted_cons. rewrite filter_cons.
  destruct (decide (file_visit root a)) as [Ha|Ha]; [|by apply IH].
  cbn [fmap list_fmap]. apply NoDup_cons. split; [|by apply IH].
  intros ([q v] & Heq & [Hb Hin]%list_elem_of_filter)%list_elem_of_fmap.
  apply Is_true_true, file_visit_spec in Hb as (d & -> & _ & _).
  rewrite Forall_forall in Hcl. destruct (Hcl _ Hin d eq_refl) as [Hne _]. done.
Qed.

Section Count.
Context `{Limits}.

Lemma elem_of_file_entries f root q i :
  (q, i) ∈ file_entries f root ↔
  f !! q = Some i ∧ strictly_below root q = true ∧ is_dir i = false.
Proof.
  unfold file_entries, below. rewrite list_elem_of_filter, elem_of_map_to_list.
  cbn [fst snd]. rewrite andb_True, !Is_true_true, negb_true_iff. tauto.
Qed.

Lemma NoDup_file_entries f root : NoDup (fst <$> file_entries f root).
Proof.
  unfold file_entries, below.
  assert ((filter (λ pi : path * inode, strictly_below root pi.1 && negb (is_dir pi.2))
             (map_to_list f)).*1 `sublist_of` (map_to_list f).*1) as Hs
    by apply fmap_sublist, sublist_filter.
  exact (sublist_NoDup _ _ (NoDup_fst_map_to_list f) Hs).
Qed.

(** A walk that meets no failure shows each entry of the tree once. *)
Lemma file_visits_count f root :
  wf f →
  (∀ q dd e, (q, Failed dd e) ∉ root_visits walk_fuel f root) →
  length (filter (file_visit root) (root_visits walk_fuel f root)) =
  length (file_entries f root).
Proof.
  intros Hwf Hnf.
  rewrite <- (length_fmap fst), <- (length_fmap fst (file_entries f root)).
  apply Permutation_length, NoDup_Permutation.
  - apply clear_NoDup, root_visits_clear.
  - apply NoDup_file_entries.
  - intros q. rewrite !list_elem_of_fmap. split.
    + intros ([q' v] & -> & [Hv Hin]%list_elem_of_filter). cbn [fst].
      apply Is_true_true, file_visit_spec in Hv as (d & -> & Hne & Hd).
      apply root_visits_sound in Hin as [Hpre [?|(_ & i & Hi & Hde)]]; [done|].
      exists (q', i). split; [done|]. apply elem_of_file_entries. split_and!; [done| |].
      * destruct (below_root _ _ Hpre Hne) as (r & Hr & ->). by apply strictly_below_app.
      * rewrite <- (entry_of_IsDir (de_name d)), <- Hde. done.
    + intros ([q' i] & -> & (Hi & Hb & Hd)%elem_of_file_entries). cbn [fst].
      destruct (root_visits_complete f root Hwf Hnf q') as [d Hin];
        [by apply strictly_below_prefix|by eexists|].
      exists (q', Entry d). split; [done|]. apply list_elem_of_filter. split; [|done].
      apply Is_true_true, file_visit_spec. exists d.
      pose proof (strictly_below_ne _ _ Hb) as Hne. split_and!; [done..|].
      apply root_visits_sound in Hin as [_ [?|(_ & i' & Hi' & ->)]]; [done|].
      rewrite entry_of_IsDir. congruence.
Qed.

End Count.

Section Accounting.
Context `{Limits}.




End Accounting.


(** ** A second run *)

Section Idle.
Context `{Limits}.
Local Open Scope io_scope.

(** A visit of the forward pass at a node that is in step with the
    target changes nothing in the tree and counts the node as skipped,
    unless it is a directory. *)
Lemma mirror_synced_skip opt p d j rep w :
  w_faults w = [] → p ≠ Source opt →
  w_fs w !! p = Some j → d_IsDir d = is_dir j → de_info d = None →
  synced opt (w_fs w) p j →
  fst (mirror opt p (Entry d) rep w) = (None, if is_dir j then rep else incSkipped rep) ∧
  w_fs (snd (mirror opt p (Entry d) rep w)) = w_fs w ∧
  w_faults (snd (mirror opt p (Entry d) rep w)) = [].
Proof.
  intros Hf Hne Hj Hd Hinfo Hsy.
  destruct (mirror opt p (Entry d) rep w) as [[e rep'] w'] eqn:E. cbn [fst snd].
  revert E. unfold mirror. rewrite bool_decide_eq_false_2 by done. cbv zeta.
  change (Join (Target opt) (Rel (Source opt) p)) with (dest opt p).
  unfold synced in Hsy. rewrite Hd. destruct (is_dir j) eqn:Hdir.
  - destruct Hsy as (Hl & i & Hi & Hdi).
    unfold bind at 1. rewrite (MkdirAll_existing _ _ _ _ Hf Hi Hdi Hl).
    unfold ret. by intros [= <- <- <-].
  - destruct Hsy as [Hl Hsy].
    unfold d_Info. rewrite Hinfo. unfold bind at 1. unfold Lstat.
    rewrite stat_as_no_fault by done.
    unfold stat_pure at 1, resolve at 1. rewrite Hj, Hl.
    change (Mode (info_of j)) with (i_mode j). change (IsRegular (i_mode j)) with (is_regular j).
    destruct (is_regular j) eqn:Hreg; cbn [negb].
    2:{ unfold bind, Printf, modify, ret. by intros [= <- <- <-]. }
    destruct (Hsy eq_refl) as (Hlt & i & Hi & Hdf).
    unfold bind at 1. unfold Stat. rewrite stat_as_no_fault by done.
    unfold stat_pure, resolve. rewrite Hlt, Hi, Hdf.
    unfold bind, Printf, modify, ret. by intros [= <- <- <-].
Qed.

Lemma mirror_failed_result opt p dd err rep w :
  mirror opt p (Failed dd err) rep w =
  ((None, addErr (Some err) rep),
   mkWorld (w_fs w) (w_faults w) (w_now w) (w_trace w)
     (w_log w ++ [mkLog "ERR: odczyt %s: %v" [APath p; AErr err]])).
Proof. done. Qed.

(** What a pass has done that only skipped [n] entries. *)
Definition skipped_by (n : nat) (rep : Report) (w : World) (r : Report * World) : Prop :=
  Copied r.1 = Copied rep ∧ Overwritten r.1 = Overwritten rep ∧
  Deleted r.1 = Deleted rep ∧ Errors r.1 = Errors rep ∧
  Skipped r.1 = Skipped rep + Z.of_nat n ∧
  w_fs r.2 = w_fs w ∧ w_faults r.2 = [].

(** The forward pass over nodes that are all in step with the target. *)
Lemma skip_run opt w0 l rep w :
  of_source opt w0 l →
  (∀ q dd e, (q, Failed dd e) ∉ l) →
  w_faults w = [] →
  (∀ x, Source opt `prefix_of` x → w_fs w !! x = w_fs w0 !! x) →
  (∀ q d j, (q, Entry d) ∈ l → q ≠ Source opt → w_fs w0 !! q = Some j →
            synced opt (w_fs w) q j) →
  skipped_by (length (filter (file_visit (Source opt)) l)) rep w
    (run_visits (mirror opt) l rep w).
Proof.
  revert rep w. induction l as [|[p v] l IH]; intros rep w Hsrc Hnf Hf Hag Hsy;
    cbn [run_visits].
  { unfold skipped_by. cbn. split_and!; try done. lia. }
  destruct v as [d|dd e]; [|by destruct (Hnf p dd e); left].
  assert (∃ rep1 w1 (n : nat),
    mirror opt p (Entry d) rep w = ((None, rep1), w1) ∧
    w_fs w1 = w_fs w ∧ w_faults w1 = [] ∧
    Copied rep1 = Copied rep ∧ Overwritten rep1 = Overwritten rep ∧
    Deleted rep1 = Deleted rep ∧ Errors rep1 = Errors rep ∧
    Skipped rep1 = Skipped rep + Z.of_nat n ∧
    length (filter (file_visit (Source opt)) ((p, Entry d) :: l)) =
      (n + length (filter (file_visit (Source opt)) l))%nat)
    as (rep1 & w1 & n & E & Hfs & Hf1 & Hc & Ho & Hd & He & Hs & Hn).
  { destruct (Hsrc p d) as [Hp [->|(Hne & j & Hj & Hde)]]; [by left|..].
    - exists rep, w, 0%nat. split_and!; try done.
      + unfold mirror. by rewrite bool_decide_eq_true_2.
      + lia.
      + rewrite filter_cons_False; [done|].
        unfold file_visit. cbn [fst snd]. rewrite bool_decide_eq_true_2 by done. by intros [].
    - assert (d_IsDir d = is_dir j) as Hdj by (rewrite Hde; apply entry_of_IsDir).
      destruct (mirror_synced_skip opt p d j rep w) as (Hres & Hfs & Hf1); try done.
      { by rewrite Hag. }
      { by rewrite Hde. }
      { apply (Hsy p d j); [by left|done..]. }
      destruct (mirror opt p (Entry d) rep w) as [[e rep1] w1] eqn:E.
      cbn [fst snd] in Hres, Hfs, Hf1. injection Hres as -> ->.
      exists (if is_dir j then rep else incSkipped rep), w1,
             (if is_dir j then 0%nat else 1%nat).
      destruct (is_dir j) eqn:Hdir; split_and!; try done; try (cbn; lia).
      + rewrite filter_cons_False; [done|].
        unfold file_visit. cbn [fst snd]. rewrite Hdj, andb_false_r. by intros [].
      + rewrite filter_cons_True; [done|].
        unfold file_visit. cbn [fst snd].
        rewrite Hdj, bool_decide_eq_false_2 by done. done. }
  rewrite E.
  destruct (IH rep1 w1) as (Hc' & Ho' & Hd' & He' & Hs' & Hfs' & Hf');
    [by eapply of_source_cons|intros q dd e Hin; apply (Hnf q dd e); by right|done
    |intros x Hx; rewrite Hfs; by apply Hag
    |intros q d' j Hin Hq Hj; rewrite Hfs; apply (Hsy q d' j); [by right|done..]|].
  unfold skipped_by. rewrite Hn. split_and!; try congruence. lia.
Qed.

(** A visit of the delete pass at the root, at a directory, or at an
    entry that has its counterpart in the source does nothing. *)
Lemma prune_sourced opt q d rep w :
  w_faults w = [] →
  (q = Target opt ∨ d_IsDir d = true ∨
   (is_Some (w_fs w !! src_of opt q) ∧ too_long (src_of opt q) = false)) →
  prune opt q (Entry d) rep w = ((None, rep), w).
Proof.
  intros Hf Hc. unfold prune. case_bool_decide as Hq; [done|].
  cbv zeta. change (Join (Source opt) (Rel (Target opt) q)) with (src_of opt q).
  destruct (d_IsDir d) eqn:Hd; [done|].
  destruct Hc as [?|[?|[[i Hi] Hl]]]; [done..|].
  unfold bind at 1. unfold Stat. rewrite stat_as_no_fault by done.
  unfold stat_pure, resolve. by rewrite Hl, Hi.
Qed.

(** What a pass has done that left the tree and the counters alone. *)
Definition idle (rep : Report) (w : World) (r : Report * World) : Prop :=
  Copied r.1 = Copied rep ∧ Overwritten r.1 = Overwritten rep ∧
  Deleted r.1 = Deleted rep ∧ Skipped r.1 = Skipped rep ∧
  w_fs r.2 = w_fs w ∧ w_faults r.2 = [].

Lemma idle_prune_run opt l rep w :
  w_faults w = [] →
  (∀ q d, (q, Entry d) ∈ l →
     q = Target opt ∨ d_IsDir d = true ∨
     (is_Some (w_fs w !! src_of opt q) ∧ too_long (src_of opt q) = false)) →
  idle rep w (run_visits (prune opt) l rep w).
Proof.
  revert rep w. induction l as [|[p v] l IH]; intros rep w Hf Hc; cbn [run_visits].
  { by unfold idle. }
  destruct v as [d|dd e].
  - rewrite prune_sourced; [|done|apply (Hc p d); by left].
    apply IH; [done|]. intros q d' Hin. apply (Hc q d'). by right.
  - unfold prune. unfold bind, Printf, modify, ret.
    match goal with |- idle _ _ (run_visits _ _ ?r ?w1) =>
      destruct (IH r w1) as (Hc' & Ho' & Hd' & Hs' & Hfs' & Hf') end.
    + done.
    + intros q d' Hin. apply (Hc q d'). by right.
    + unfold idle. split_and!; done.
Qed.

Lemma del_run_entries opt l rep w rep' w' q v :
  del_run opt l rep w rep' w' → (q, v) ∈ l → ∃ d, v = Entry d.
Proof.
  intros Hrun. induction Hrun as [rep w|q0 d l rep w rep1 w1 rep' w' Hp Hrun IH];
    [by intros ?%elem_of_nil|].
  intros [Heq|Hin]%elem_of_cons; [simplify_eq; by eexists|by apply IH].
Qed.

Lemma strictly_below_refl root : strictly_below root root = false.
Proof.
  unfold strictly_below. rewrite <- (app_nil_r root) at 2. by rewrite strip_prefix_app.
Qed.

Lemma steady_target opt w0 w :
  steady opt w0 w → w_fs w !! Target opt = w_fs w0 !! Target opt.
Proof.
  intros [_ [Hfr _]]. apply Hfr. unfold below_target. by rewrite strictly_below_refl.
Qed.

End Idle.

Section SecondRun.
Context `{Limits}.

Lemma fwd_root_present opt w0 fuel rep rep' w' :
  fwd_run opt w0 (root_visits fuel (w_fs w0) (Source opt)) rep w0 rep' w' →
  is_Some (w_fs w0 !! Source opt).
Proof.
  unfold root_visits. destruct (stat_pure "lstat" (w_fs w0) (Source opt)) as [e|info] eqn:E.
  - intros Hrun.
    destruct (fwd_run_entries _ _ _ _ _ _ _ (Source opt) (Failed None e) Hrun) as [d Hd];
      [by left|done].
  - intros _. by eapply stat_pure_Some.
Qed.

(** C4, as amended.  After a run of [Sync] without faults that records
    no error (well-formed tree without symbolic links, target root
    present, roots apart, the
    modification time of every regular file of the source one that
    [os.Chtimes] can represent), a second run on what the first one left
    copies, overwrites and deletes nothing, skips every entry of the
    source that is not a directory, and leaves the tree as it is. *)
Theorem second_run_changes_nothing opt w0 rep1 w1 :
  wf (w_fs w0) → link_free (w_fs w0) →
  is_Some (w_fs w0 !! Target opt) → roots_apart opt →
  w_faults w0 = [] → timely (w_fs w0) (Source opt) →
  Sync opt w0 = Some (rep1, w1) → Errors rep1 = [] →
  ∃ rep2 w2,
    Sync opt w1 = Some (rep2, w2) ∧
    Copied rep2 = 0 ∧ Overwritten rep2 = 0 ∧ Deleted rep2 = 0 ∧
    Skipped rep2 = Z.of_nat (length (file_entries (w_fs w0) (Source opt))) ∧
    w_fs w2 = w_fs w1.
Proof.
  intros Hwf _ HT Hap Hf Htm Hs Herr.
  destruct (Sync_clean opt w0 Hap Hwf HT Hf _ _ Hs Herr)
    as (repA & wA & Hfwd & HstA & HwfA & HerrA & Hst1 & Hdel).
  assert (wf (w_fs w1)) as Hwf1 by exact (Sync_wf opt w0 rep1 w1 Hwf Hs).
  assert (w_faults w1 = []) as Hf1 by apply Hst1.
  assert (is_Some (w_fs w1 !! Target opt)) as HT1.
  { rewrite (steady_target opt w0 w1 Hst1). exact HT. }
  assert (∀ q dd e, (q, Failed dd e) ∉ root_visits walk_fuel (w_fs w0) (Source opt)) as Hnf.
  { intros q dd e Hin. by destruct (fwd_run_entries _ _ _ _ _ _ _ _ _ Hfwd Hin). }
  destruct (Sync_total opt w1) as [[rep2 w2] Hs2]. exists rep2, w2. split; [done|].
  apply Sync_inv in Hs2 as (rep2A & w2A & Hw2A & Hw2).
  destruct (forward_static opt w1 Hap Hwf1 HT1 _ _ _ _ _ Hf1 Hw2A) as (_ & Hrun2 & Hst2A).
  rewrite (root_visits_ext _ (w_fs w1) (w_fs w0)) in Hrun2.
  2:{ intros x Hx. by apply (steady_source opt w0 Hap). }
  2:{ rewrite (steady_source opt w0 Hap _ _ Hst1) by done. by eapply fwd_root_present. }
  pose proof (skip_run opt w0 _ empty_report w1 (root_visits_of_source opt w0 _) Hnf Hf1)
    as Hskip.
  rewrite <- Hrun2 in Hskip.
  destruct Hskip as (Hc & Ho & Hd & He & Hsk & Hfs & Hf2).
  { intros x Hx. by apply (steady_source opt w0 Hap). }
  { intros q d j Hin Hq Hj.
    assert (strictly_below (Source opt) q = true) as Hb.
    { apply root_visits_sound in Hin as [Hpre _].
      destruct (below_root _ _ Hpre Hq) as (r & Hr & ->). by apply strictly_below_app. }
    apply (Sync_synced opt w0 rep1 w1 q j Hwf HT Hap Hf Hs Herr Hb Hj).
    intros Hr. by apply (Htm q j). }
  cbn [fst snd Copied Overwritten Deleted Skipped empty_report] in Hc, Ho, Hd, Hsk, Hfs, Hf2.
  rewrite file_visits_count in Hsk by done.
  destruct (DeleteMissing opt); [|destruct Hw2 as [-> ->]; split_and!; [done..|lia|done]].
  destruct (delete_static opt w1 _ _ _ _ _ _ Hst2A Hw2) as (_ & Hrun3 & _).
  pose proof (idle_prune_run opt (root_visits walk_fuel (w_fs w2A) (Target opt)) rep2A w2A Hf2)
    as Hidle.
  rewrite <- Hrun3 in Hidle.
  destruct Hidle as (Hc' & Ho' & Hd' & Hs' & Hfs' & _).
  2:{ cbn [fst snd] in *. split_and!; [congruence..|lia|congruence]. }
  intros q d Hin. apply root_visits_sound in Hin as [Hpre [->|(Hne & i & Hi & Hde)]]; [by left|].
  right. destruct (d_IsDir d) eqn:Hdd; [by left|right].
  rewrite Hfs in Hi |- *.
  assert (is_dir i = false) as Hdi by (by rewrite <- (entry_of_IsDir (de_name d)), <- Hde).
  pose proof (del_mono _ _ _ _ _ _ _ _ Hdel Hi) as HiA.
  destruct (root_visits_complete (w_fs wA) (Target opt) HwfA) with (q := q) as [d' Hin'];
    [|done|by eexists|].
  { intros x dd e Hin. by destruct (del_run_entries _ _ _ _ _ _ _ _ Hdel Hin). }
  assert (d_IsDir d' = false) as Hdd'.
  { apply root_visits_sound in Hin' as [_ [?|(_ & i' & Hi' & ->)]]; [done|].
    rewrite entry_of_IsDir. congruence. }
  destruct (del_post opt Hap _ _ _ _ _ Hdel (root_visits_in_target opt _ _) q d' Hin' Hne Hdd')
    as [Hgone|Hsrc]; [congruence|done].
Qed.

End SecondRun.

Lemma second_run_changes_nothing_witness :
  wf (w_fs MirrorExample.start) ∧
  link_free (w_fs MirrorExample.start) ∧
  is_Some (w_fs MirrorExample.start !! Target MirrorExample.opts) ∧
  roots_apart MirrorExample.opts ∧
  w_faults MirrorExample.start = [] ∧
  timely (w_fs MirrorExample.start) (Source MirrorExample.opts) ∧
  @Sync Examples.limits MirrorExample.opts MirrorExample.start =
    Some (final_report MirrorExample.run,
          final_world MirrorExample.start MirrorExample.run) ∧
  Errors (final_report MirrorExample.run) = [] ∧
  ∃ rep2 w2,
    @Sync Examples.limits MirrorExample.opts
      (final_world MirrorExample.start MirrorExample.run) = Some (rep2, w2) ∧
    Copied rep2 = 0 ∧ Overwritten rep2 = 0 ∧ Deleted rep2 = 0 ∧
    Skipped rep2 =
      Z.of_nat (length (file_entries (w_fs MirrorExample.start) (Source MirrorExample.opts))) ∧
    w_fs w2 = w_fs (final_world MirrorExample.start MirrorExample.run).
Proof.
  assert (wf (w_fs MirrorExample.start)) as H1 by (apply wfb_wf; vm_compute; reflexivity).
  assert (link_free (w_fs MirrorExample.start)) as HL
    by (apply link_freeb_link_free; vm_compute; reflexivity).
  assert (is_Some (w_fs MirrorExample.start !! Target MirrorExample.opts)) as H2
    by (eexists; vm_compute; reflexivity).
  assert (w_faults MirrorExample.start = []) as H4 by reflexivity.
  assert (@Sync Examples.limits MirrorExample.opts MirrorExample.start =
    Some (final_report MirrorExample.run,
          final_world MirrorExample.start MirrorExample.run)) as H5
    by (vm_compute; reflexivity).
  assert (Errors (final_report MirrorExample.run) = []) as H6 by (vm_compute; reflexivity).
  assert (timely (w_fs MirrorExample.start) (Source MirrorExample.opts)) as H7
    by (apply timelyb_timely; vm_compute; reflexivity).
  exact (conj H1 (conj HL (conj H2 (conj MirrorExample.roots (conj H4 (conj H7 (conj H5 (conj H6
      (@second_run_changes_nothing Examples.limits _ _ _ _
         H1 HL H2 MirrorExample.roots H4 H7 H5 H6))))))))).
Defined.

(** ** What the delete pass leaves *)

Section DeletePost.
Context `{Limits}.

(** After a delete pass that records no error, a node below the target
    root that is not a directory has its counterpart in the source. *)
Lemma del_run_post opt wA repA rep1 w1 r i :
  roots_apart opt → wf (w_fs wA) →
  del_run opt (root_visits walk_fuel (w_fs wA) (Target opt)) repA wA rep1 w1 →
  r ≠ [] → w_fs w1 !! (Target opt ++ r) = Some i → is_dir i = false →
  is_Some (w_fs wA !! (Source opt ++ r)).
Proof.
  intros Hap HwfA Hdel Hr Hi Hdi.
  pose proof (del_mono _ _ _ _ _ _ _ _ Hdel Hi) as HiA.
  destruct (root_visits_complete (w_fs wA) (Target opt) HwfA) with (q := Target opt ++ r)
    as [d' Hin']; [|by apply prefix_app_r|by eexists|].
  { intros x dd e Hin. by destruct (del_run_entries _ _ _ _ _ _ _ _ Hdel Hin). }
  assert (Target opt ++ r ≠ Target opt) as Hne.
  { apply strictly_below_ne. by apply strictly_below_app. }
  assert (d_IsDir d' = false) as Hdd'.
  { apply root_visits_sound in Hin' as [_ [?|(_ & i' & Hi' & ->)]]; [done|].
    rewrite entry_of_IsDir. congruence. }
  destruct (del_post opt Hap _ _ _ _ _ Hdel (root_visits_in_target opt _ _) _ d' Hin' Hne Hdd')
    as [Hgone|[Hsrc _]]; [congruence|].
  rewrite src_of_app in Hsrc.
  rewrite (del_source opt Hap _ _ _ _ _ _ Hdel (root_visits_in_target opt _ _)) in Hsrc;
    [done|by apply prefix_app_r].
Qed.


End DeletePost.

Module StaleExample.

(** The scene of [TestDeleteMissing], with delete-missing. *)
Definition opts : Options := mkOptions ["s"] ["t"] true%string.

Definition run := @Sync Examples.limits opts KeepExample.start.


End StaleExample.


(** ** A source root that is not there *)

Section MissingSource.
Context `{Limits}.

Lemma forward_missing_root opt w0 fuel rep e rep' w' :
  w_faults w0 = [] → w_fs w0 !! Source opt = None →
  WalkDir fuel (Source opt) (mirror opt) rep w0 = Some (e, rep', w') →
  ∃ err, rep' = addErr (Some err) rep ∧ w_fs w' = w_fs w0 ∧ steady opt w0 w'.
Proof.
  intros Hf Hnone Hw. unfold WalkDir in Hw. fold (stat_as "lstat" (Source opt) w0) in Hw.
  unfold Lstat in Hw. rewrite (stat_as_no_fault "lstat" _ w0 Hf) in Hw.
  assert (∃ err, stat_pure "lstat" (w_fs w0) (Source opt) = inl err) as [err Herr].
  { unfold stat_pure, resolve. rewrite Hnone. destruct (too_long (Source opt)); by eexists. }
  rewrite Herr, mirror_failed_result in Hw. simplify_eq. exists err.
  split_and!; [done..|]. split; [done|]. by apply confined_same.
Qed.

(** When the source has nothing, the delete pass removes every entry it
    is shown that is not a directory. *)
Lemma del_count_all opt l rep w rep' w' :
  roots_apart opt →
  del_run opt l rep w rep' w' → in_target opt l →
  (∀ x, Source opt `prefix_of` x → w_fs w !! x = None) →
  Deleted rep' = Deleted rep + Z.of_nat (length (filter (file_visit (Target opt)) l)).
Proof.
  intros Hap Hrun. induction Hrun as [rep w|q d l rep w rep1 w1 rep' w' Hp Hrun IH];
    intros Hl Hno; [cbn; lia|].
  pose proof (in_target_cons _ _ _ Hl) as Hl'.
  destruct Hp as [-> -> Hc|Hne Hd Hn Hfs -> _ _].
  - rewrite IH by done. rewrite filter_cons_False; [done|].
    unfold file_visit. cbn [fst snd]. destruct Hc as [->|[->|[[i Hi] _]]].
    + rewrite bool_decide_eq_true_2 by done. by intros [].
    + rewrite andb_false_r. by intros [].
    + rewrite Hno in Hi; [done|]. by apply prefix_app_r.
  - rewrite IH; [|done|].
    + rewrite filter_cons_True; [cbn; lia|].
      unfold file_visit. cbn [fst snd]. rewrite Hd, bool_decide_eq_false_2 by done. done.
    + intros x Hx. rewrite Hfs. apply lookup_delete_None. right. by apply Hno.
Qed.

(** [Sync] does not check that the source root is there.  When it is
    not, and delete-missing is set, a run without faults whose only
    recorded error is the one for the source root removes every file of
    the target: nothing but directories is left below the target root,
    and [Deleted] is the number of entries the target had that were not
    directories. *)
Theorem missing_source_empties_target opt w0 rep1 w1 :
  wf (w_fs w0) → is_Some (w_fs w0 !! Target opt) → roots_apart opt →
  w_faults w0 = [] →
  w_fs w0 !! Source opt = None → DeleteMissing opt = true →
  Sync opt w0 = Some (rep1, w1) → length (Errors rep1) = 1%nat →
  (∀ r i, r ≠ [] → w_fs w1 !! (Target opt ++ r) = Some i → is_dir i = true) ∧
  Copied rep1 = 0 ∧ Overwritten rep1 = 0 ∧ Skipped rep1 = 0 ∧
  Deleted rep1 = Z.of_nat (length (file_entries (w_fs w0) (Target opt))).
Proof.
  intros Hwf HT Hap Hf Hnone Hdm (repA & wA & HwA & Hw1)%Sync_inv Herr.
  rewrite Hdm in Hw1.
  destruct (forward_missing_root _ _ _ _ _ _ _ Hf Hnone HwA) as (err & -> & HfsA & HstA).
  assert (Errors rep1 = Errors (addErr (Some err) empty_report)) as Herr1.
  { symmetry. apply prefix_length_eq.
    - apply WalkDir_prune_report_le in Hw1 as [_ (_ & _ & _ & _ & Hp)]. exact Hp.
    - rewrite Herr. cbn. lia. }
  destruct (delete_pass opt w0 _ _ _ _ _ HstA Hw1 Herr1) as [Hdel Hst1].
  assert (wf (w_fs wA)) as HwfA by (by rewrite HfsA).
  assert (∀ x, Source opt `prefix_of` x → w_fs wA !! x = None) as Hno.
  { intros x Hx. rewrite HfsA. destruct (w_fs w0 !! x) as [i|] eqn:Hi; [|done].
    destruct (wf_prefix _ _ _ Hwf (mk_is_Some _ _ Hi) Hx) as [? ?]. congruence. }
  destruct (del_log opt _ _ _ _ _ Hdel) as (Hc & Ho & Hs & _).
  split_and!; [|done..|].
  - intros r i Hr Hi. destruct (is_dir i) eqn:Hdi; [done|].
    destruct (del_run_post opt wA _ rep1 w1 r i Hap HwfA Hdel Hr Hi Hdi) as [j Hj].
    rewrite Hno in Hj; [done|by apply prefix_app_r].
  - rewrite (del_count_all opt _ _ _ _ _ Hap Hdel (root_visits_in_target opt _ _) Hno).
    rewrite file_visits_count; [by rewrite HfsA|done|].
    intros x dd e Hin. by destruct (del_run_entries _ _ _ _ _ _ _ _ Hdel Hin).
Qed.

End MissingSource.

Module WipeExample.

(** A target with files, and no source at all. *)
Definition start : World :=
  Examples.world_of
    [([], Examples.dir_node); (["t"], Examples.dir_node);
     (["t"; "a.txt"], Examples.file_node 63835596805000000000 [Byte.x61]);
     (["t"; "d"], Examples.dir_node);
     (["t"; "d"; "b.txt"], Examples.file_node 63835596806000000000 [Byte.x62])]%string.

Definition opts : Options := mkOptions ["s"] ["t"] true%string.

Definition run := @Sync Examples.limits opts start.

Lemma wipe_roots : roots_apart opts.
Proof. split; intros [k Hk]; discriminate. Qed.

End WipeExample.

Lemma missing_source_empties_target_witness :
  wf (w_fs WipeExample.start) ∧
  is_Some (w_fs WipeExample.start !! Target WipeExample.opts) ∧
  roots_apart WipeExample.opts ∧
  w_faults WipeExample.start = [] ∧
  w_fs WipeExample.start !! Source WipeExample.opts = None ∧
  DeleteMissing WipeExample.opts = true ∧
  @Sync Examples.limits WipeExample.opts WipeExample.start =
    Some (final_report WipeExample.run, final_world WipeExample.start WipeExample.run) ∧
  length (Errors (final_report WipeExample.run)) = 1%nat ∧
  ((∀ r i, r ≠ [] →
      w_fs (final_world WipeExample.start WipeExample.run)
        !! (Target WipeExample.opts ++ r) = Some i → is_dir i = true) ∧
   Copied (final_report WipeExample.run) = 0 ∧
   Overwritten (final_report WipeExample.run) = 0 ∧
   Skipped (final_report WipeExample.run) = 0 ∧
   Deleted (final_report WipeExample.run) =
     Z.of_nat (length (file_entries (w_fs WipeExample.start) (Target WipeExample.opts)))).
Proof.
  assert (wf (w_fs WipeExample.start)) as H1 by (apply wfb_wf; vm_compute; reflexivity).
  assert (is_Some (w_fs WipeExample.start !! Target WipeExample.opts)) as H2
    by (eexists; vm_compute; reflexivity).
  assert (w_faults WipeExample.start = []) as H4 by reflexivity.
  assert (w_fs WipeExample.start !! Source WipeExample.opts = None) as H5
    by (vm_compute; reflexivity).
  assert (DeleteMissing WipeExample.opts = true) as H6 by reflexivity.
  assert (@Sync Examples.limits WipeExample.opts WipeExample.start =
    Some (final_report WipeExample.run, final_world WipeExample.start WipeExample.run))
    as H7 by (vm_compute; reflexivity).
  assert (length (Errors (final_report WipeExample.run)) = 1%nat) as H8
    by (vm_compute; reflexivity).
  exact (conj H1 (conj H2 (conj WipeExample.wipe_roots (conj H4 (conj H5 (conj H6 (conj H7
    (conj H8
      (@missing_source_empties_target Examples.limits _ _ _ _
         H1 H2 WipeExample.wipe_roots H4 H5 H6 H7 H8))))))))).
Defined.

(** ** [copyFile], taken by itself *)

Section CopyFile.
Context `{Limits}.
Local Open Scope io_scope.

(** In a tree without symbolic links: when [copyFile] returns no error,
    the destination holds the bytes of
    the source file and is not a directory; its modification time is the
    one [os.Chtimes] makes of the modification time of [srcInfo]: that
    time itself when its nanoseconds since 1970 fit an [int64], the
    wrapped-around time otherwise, and the time of writing when it is
    the zero time.  The temporary file is gone, and nothing else has
    changed but for the directories above the destination that were
    missing and have been made.  This holds whatever faults are pending. *)
Theorem copyFile_success_installs_copy src dst info w :
  src ≠ tmp_path dst →
  link_free (w_fs w) →
  fst (copyFile src dst info w) = None →
  ∃ s m,
    w_fs w !! src = Some s ∧ is_dir s = false ∧ IsDir m = false ∧
    w_fs (snd (copyFile src dst info w)) !! dst =
      Some (mkInode m (set_mtime (ModTime info) (w_now w)) (i_data s)) ∧
    (representable (ModTime info) → set_mtime (ModTime info) (w_now w) = ModTime info) ∧
    (IsZero (ModTime info) = true → set_mtime (ModTime info) (w_now w) = w_now w) ∧
    w_fs (snd (copyFile src dst info w)) !! tmp_path dst = None ∧
    ∀ x, x ≠ dst → x ≠ tmp_path dst →
      w_fs (snd (copyFile src dst info w)) !! x = w_fs w !! x ∨
      (w_fs w !! x = None ∧ x `prefix_of` Dir dst ∧
       ∃ i, w_fs (snd (copyFile src dst info w)) !! x = Some i ∧ is_dir i = true).
Proof.
  intros Hsrc _ Hok.
  destruct (copyFile_ok src dst info w Hsrc Hok)
    as (w1 & s & m & (_ & _ & _ & Hg) & Hs & Hds & Hm & Hdst & Htmp & Hfr).
  exists s, m. split_and!; [|done|done|done| | |done|].
  - destruct (Hg src) as [Heq|(_ & _ & i & Hi & Hdi)]; [by rewrite <- Heq|congruence].
  - apply set_mtime_representable.
  - intros Hz. unfold set_mtime. by rewrite Hz.
  - intros x Hx1 Hx2. rewrite (Hfr x Hx1 Hx2). apply Hg.
Qed.

Lemma Open_missing p w :
  w_fs w !! p = None → ∃ e, fst (Open p w) = inl (PathError "open" p e).
Proof. intros Hp. unfold Open, resolve. kernel_cases; by eexists. Qed.

Lemma tmp_not_prefix_of_Dir (dst : path) : ¬ tmp_path dst `prefix_of` Dir dst.
Proof.
  intros Hp%prefix_length. unfold tmp_path in Hp. rewrite add_suffix_length in Hp.
  unfold Dir in Hp. destruct dst as [|x dst _] using rev_ind; [cbn in Hp; lia|].
  rewrite removelast_last, length_app in Hp. cbn in Hp. lia.
Qed.

(** [copyFile] makes the directories of the destination before it opens
    the source.  When the source is not there (and does not lie above
    the destination), the call fails, at the directories or with
    "open src"; it leaves the destination and the temporary path as they
    were, and in the second case the directory of the destination is
    there afterwards, made if it was missing. *)
Theorem copyFile_missing_source src dst info w :
  w_fs w !! src = None → ¬ src `prefix_of` Dir dst →
  w_fs (snd (copyFile src dst info w)) !! src = None ∧
  w_fs (snd (copyFile src dst info w)) !! dst = w_fs w !! dst ∧
  w_fs (snd (copyFile src dst info w)) !! tmp_path dst = w_fs w !! tmp_path dst ∧
  ((∃ e, fst (copyFile src dst info w) = Some (Errorf "mkdir %s: %w" [Dir dst] e)) ∨
   (∃ e i, fst (copyFile src dst info w) =
             Some (Errorf "open src: %w" [] (PathError "open" src e)) ∧
           w_fs (snd (copyFile src dst info w)) !! Dir dst = Some i ∧ is_dir i = true)).
Proof.
  intros Hsrc Hpre.
  destruct (copyFile src dst info w) as [r w'] eqn:E. cbn [fst snd].
  revert E. unfold copyFile. unfold bind at 1.
  pose proof (MkdirAll_frame (Dir dst) 493 w src (or_introl Hpre)) as Hf1.
  pose proof (MkdirAll_frame (Dir dst) 493 w dst) as Hf2.
  pose proof (MkdirAll_frame (Dir dst) 493 w (tmp_path dst)
                (or_introl (tmp_not_prefix_of_Dir dst))) as Hf3.
  pose proof (MkdirAll_ok (Dir dst) 493 w) as Hok.
  destruct (MkdirAll (Dir dst) 493 w) as [[err|] w1]; cbn [fst snd] in *.
  { unfold ret. intros [= <- <-]. split_and!; [congruence| |done|left; by eexists].
    apply Hf2. destruct (dst_not_prefix_of_Dir dst); auto. }
  unfold bind at 1.
  pose proof (Open_missing src w1) as Hop. pose proof (Open_world src w1) as Hw2.
  destruct (Open src w1) as [[err|sf] w2]; cbn [fst snd] in *.
  2:{ destruct Hop as [e He]; [congruence|done]. }
  destruct Hop as [e He]; [congruence|]. injection He as ->. subst w2.
  unfold ret. intros [= <- <-]. cbn [set_faults w_fs].
  split_and!; [congruence| |done|].
  - apply Hf2. destruct (dst_not_prefix_of_Dir dst); auto.
  - right. destruct (Hok eq_refl) as (i & Hi & Hdi). by exists e, i.
Qed.

End CopyFile.

Module CopyExample.

(** A file [d/src.txt]; the directory [d/new] of the destination is not
    there yet. *)
Definition start : World :=
  Examples.world_of
    [([], Examples.dir_node); (["d"], Examples.dir_node);
     (["d"; "src.txt"],
      Examples.file_node 63835596805000000000 [Byte.x64; Byte.x61; Byte.x74; Byte.x61])]%string.

Definition src : path := ["d"; "src.txt"]%string.
Definition gone : path := ["d"; "gone.txt"]%string.
Definition dst : path := ["d"; "new"; "dst.txt"]%string.

End CopyExample.

Lemma copyFile_success_installs_copy_witness :
  CopyExample.src ≠ tmp_path CopyExample.dst ∧
  link_free (w_fs CopyExample.start) ∧
  fst (@copyFile Examples.limits CopyExample.src CopyExample.dst
         Examples.src_info CopyExample.start) = None ∧
  ∃ s m,
    w_fs CopyExample.start !! CopyExample.src = Some s ∧ is_dir s = false ∧
    IsDir m = false ∧
    w_fs (snd (@copyFile Examples.limits CopyExample.src CopyExample.dst
                 Examples.src_info CopyExample.start)) !! CopyExample.dst =
      Some (mkInode m (set_mtime (ModTime Examples.src_info) (w_now CopyExample.start))
                    (i_data s)) ∧
    (representable (ModTime Examples.src_info) →
     set_mtime (ModTime Examples.src_info) (w_now CopyExample.start) =
       ModTime Examples.src_info) ∧
    (IsZero (ModTime Examples.src_info) = true →
     set_mtime (ModTime Examples.src_info) (w_now CopyExample.start) =
       w_now CopyExample.start) ∧
    w_fs (snd (@copyFile Examples.limits CopyExample.src CopyExample.dst
                 Examples.src_info CopyExample.start)) !! tmp_path CopyExample.dst = None ∧
    ∀ x, x ≠ CopyExample.dst → x ≠ tmp_path CopyExample.dst →
      w_fs (snd (@copyFile Examples.limits CopyExample.src CopyExample.dst
                   Examples.src_info CopyExample.start)) !! x =
        w_fs CopyExample.start !! x ∨
      (w_fs CopyExample.start !! x = None ∧ x `prefix_of` Dir CopyExample.dst ∧
       ∃ i, w_fs (snd (@copyFile Examples.limits CopyExample.src CopyExample.dst
                         Examples.src_info CopyExample.start)) !! x = Some i ∧
            is_dir i = true).
Proof.
  assert (CopyExample.src ≠ tmp_path CopyExample.dst) as H1 by discriminate.
  assert (fst (@copyFile Examples.limits CopyExample.src CopyExample.dst
         Examples.src_info CopyExample.start) = None) as H2 by (vm_compute; reflexivity).
  assert (link_free (w_fs CopyExample.start)) as HL
    by (apply link_freeb_link_free; vm_compute; reflexivity).
  exact (conj H1 (conj HL (conj H2
    (@copyFile_success_installs_copy Examples.limits _ _ _ _ H1 HL H2)))).
Defined.

Lemma copyFile_missing_source_witness :
  w_fs CopyExample.start !! CopyExample.gone = None ∧
  ¬ CopyExample.gone `prefix_of` Dir CopyExample.dst ∧
  (w_fs (snd (@copyFile Examples.limits CopyExample.gone CopyExample.dst
                Examples.src_info CopyExample.start)) !! CopyExample.gone = None ∧
   w_fs (snd (@copyFile Examples.limits CopyExample.gone CopyExample.dst
                Examples.src_info CopyExample.start)) !! CopyExample.dst =
     w_fs CopyExample.start !! CopyExample.dst ∧
   w_fs (snd (@copyFile Examples.limits CopyExample.gone CopyExample.dst
                Examples.src_info CopyExample.start)) !! tmp_path CopyExample.dst =
     w_fs CopyExample.start !! tmp_path CopyExample.dst ∧
   ((∃ e, fst (@copyFile Examples.limits CopyExample.gone CopyExample.dst
                 Examples.src_info CopyExample.start) =
            Some (Errorf "mkdir %s: %w" [Dir CopyExample.dst] e)) ∨
    (∃ e i, fst (@copyFile Examples.limits CopyExample.gone CopyExample.dst
                   Examples.src_info CopyExample.start) =
              Some (Errorf "open src: %w" [] (PathError "open" CopyExample.gone e)) ∧
            w_fs (snd (@copyFile Examples.limits CopyExample.gone CopyExample.dst
                         Examples.src_info CopyExample.start)) !! Dir CopyExample.dst =
              Some i ∧ is_dir i = true))).
Proof.
  assert (w_fs CopyExample.start !! CopyExample.gone = None) as H1
    by (vm_compute; reflexivity).
  assert (¬ CopyExample.gone `prefix_of` Dir CopyExample.dst) as H2.
  { intros [k Hk]. vm_compute in Hk. discriminate. }
  exact (conj H1 (conj H2
    (@copyFile_missing_source Examples.limits _ _ Examples.src_info _ H1 H2))).
Defined.

(** ** The validator of the command (internal/validators) *)

(** What [MustDir] hands back when it fails: the error [os.Stat]
    returned, as it is, or an error made by [fmt.Errorf] from a format and
    the path, which wraps no other error. *)
Inductive failure :=
| Returned (err : error)
| Formatted (format : string) (args : list path).

Section Validators.
Context `{Limits}.
Local Open Scope io_scope.

(** [func MustDir(path string) error] *)
Definition MustDir (p : path) : IO (option failure) :=
  let* st := Stat p in
  match st with
  | inl err => ret (Some (Returned err))
  | inr st =>
    if negb (IsDir (Mode st)) then ret (Some (Formatted "%s is not directory" [p]))
    else ret None
  end.

(** [MustDir] only looks: it leaves the world as it is but for the fault
    it may have used up, and it answers [nil] only for a path that holds
    a directory. *)
Lemma MustDir_sound p w :
  snd (MustDir p w) = set_faults (tail (w_faults w)) w ∧
  (fst (MustDir p w) = None →
   too_long p = false ∧ ∃ i, w_fs w !! p = Some i ∧ is_dir i = true).
Proof.
  unfold MustDir. unfold bind at 1 2.
  pose proof (stat_as_world "stat" p w) as Hw. pose proof (stat_as_inr "stat" p w) as Hin.
  fold (Stat p w) in Hw, Hin.
  destruct (Stat p w) as [[err|st] w1]; cbn [fst snd] in *; subst w1; [done|].
  destruct (Hin _ eq_refl) as (i & Hi & -> & Hl).
  change (IsDir (Mode (info_of i))) with (is_dir i).
  destruct (is_dir i) eqn:Hd; cbn [negb]; split; try done.
  intros _. split; [done|]. by exists i.
Qed.

(** Without faults and in a tree without symbolic links, [MustDir]
    answers [nil] exactly for a path within the kernel's limit that holds
    a directory; for a node that is not a directory it answers the error
    "%s is not directory", for a path that is not there the error of
    [os.Stat]; and it changes nothing. *)
Theorem MustDir_accepts_directories_only p w :
  w_faults w = [] → link_free (w_fs w) →
  snd (MustDir p w) = w ∧
  (fst (MustDir p w) = None ↔
   too_long p = false ∧ ∃ i, w_fs w !! p = Some i ∧ is_dir i = true) ∧
  (too_long p = false → ∀ i, w_fs w !! p = Some i → is_dir i = false →
   fst (MustDir p w) = Some (Formatted "%s is not directory" [p])) ∧
  (w_fs w !! p = None →
   ∃ e, fst (MustDir p w) = Some (Returned (PathError "stat" p e))).
Proof.
  intros Hf _. unfold MustDir. unfold bind. unfold Stat.
  rewrite (stat_as_no_fault "stat" p w Hf). unfold stat_pure, resolve.
  destruct (too_long p) eqn:Hl.
  { split_and!; [done| |done|by eexists]. split; [done|]. by intros [? _]. }
  destruct (w_fs w !! p) as [i|] eqn:Hi.
  - change (IsDir (Mode (info_of i))) with (is_dir i).
    destruct (is_dir i) eqn:Hd; cbn [negb ret fst snd].
    + split_and!; [done| |intros _ i' [= <-]; congruence|done].
      split; [|done]. intros _. split; [done|]. by exists i.
    + split_and!; [done| |done|done].
      split; [done|]. intros [_ (i' & [= <-] & Hd')]. congruence.
  - split_and!; [done| |done|intros _; by eexists].
    split; [done|]. by intros [_ (i' & ? & _)].
Qed.

End Validators.

Lemma MustDir_accepts_directories_only_witness :
  w_faults CopyExample.start = [] ∧
  link_free (w_fs CopyExample.start) ∧
  (snd (@MustDir Examples.limits CopyExample.src CopyExample.start) = CopyExample.start ∧
   (fst (@MustDir Examples.limits CopyExample.src CopyExample.start) = None ↔
    @too_long Examples.limits CopyExample.src = false ∧
    ∃ i, w_fs CopyExample.start !! CopyExample.src = Some i ∧ is_dir i = true) ∧
   (@too_long Examples.limits CopyExample.src = false →
    ∀ i, w_fs CopyExample.start !! CopyExample.src = Some i → is_dir i = false →
    fst (@MustDir Examples.limits CopyExample.src CopyExample.start) =
      Some (Formatted "%s is not directory" [CopyExample.src])) ∧
   (w_fs CopyExample.start !! CopyExample.src = None →
    ∃ e, fst (@MustDir Examples.limits CopyExample.src CopyExample.start) =
           Some (Returned (PathError "stat" CopyExample.src e)))).
Proof.
  assert (w_faults CopyExample.start = []) as H1 by reflexivity.
  assert (link_free (w_fs CopyExample.start)) as H2
    by (apply link_freeb_link_free; vm_compute; reflexivity).
  exact (conj H1 (conj H2
    (@MustDir_accepts_directories_only Examples.limits CopyExample.src CopyExample.start
       H1 H2))).
Defined.

(** ** A file the target already has *)

Section Existing.
Context `{Limits}.

Lemma fwd_existing opt w0 l rep w rep' w' :
  fwd_run opt w0 l rep w rep' w' →
  StronglySorted clear_of l → of_source opt w0 l →
  ∀ q d j i, (q, Entry d) ∈ l → q ≠ Source opt → w_fs w0 !! q = Some j →
    is_regular j = true → w_fs w !! dest opt q = Some i →
    (∀ p d', (p, Entry d') ∈ l → p ≠ Source opt → dest opt q ≠ tmp_path (dest opt p)) →
    (differ (info_of j) (info_of i) = true → representable (i_mtime j) →
     ∃ m, IsDir m = false ∧
          w_fs w' !! dest opt q = Some (mkInode m (i_mtime j) (i_data j))) ∧
    (differ (info_of j) (info_of i) = false → w_fs w' !! dest opt q = Some i).
Proof.
  intros Hrun. induction Hrun as [rep w|d l rep w rep' w' Hrun IH
                                  |p d j l rep w rep1 w1 rep' w' Hne Hp Hj Hst Hm Hst1 Hrun IH];
    intros [Hcl Hss]%StronglySorted_cons Hsrc q d0 j0 i Hin Hq Hj0 Hr0 Hi Htmp ||
    intros _ _ q d0 j0 i Hin Hq Hj0 Hr0 Hi Htmp.
  - by apply elem_of_nil in Hin.
  - apply elem_of_cons in Hin as [Heq|Hin]; [by simplify_eq|].
    eapply IH; [done|by eapply of_source_cons|done..|].
    intros p d' Hp. apply (Htmp p d'). by right.
  - pose proof (of_source_cons _ _ _ _ Hsrc) as Hsrc'.
    apply elem_of_cons in Hin as [Heq|Hin].
    + injection Heq as -> ->. rewrite Hj in Hj0. injection Hj0 as ->.
      assert (is_dir j0 = false) as Hd0 by (by apply regular_not_dir).
      assert (∀ i1, w_fs w1 !! dest opt p = Some i1 → w_fs w' !! dest opt p = Some i1) as Hk.
      { intros i1 Hi1. by eapply fwd_keeps_head. }
      destruct Hm as [Hd _ _ _ _ _|_ Hr _ _ _ _|_ _ _ _ Hn _ _ _|i' _ _ _ _ Hi' Hdf Hwr _ _
                      |i' _ _ _ _ Hi' Hdf Hfs _ _]; try congruence.
      * rewrite Hi in Hi'. injection Hi' as <-. split; [|congruence]. intros _ Hrep.
        destruct Hwr as (w2 & m & _ & Hm1 & Ht & _).
        rewrite set_mtime_representable in Ht by done.
        exists m. split; [done|]. by apply Hk.
      * rewrite Hi in Hi'. injection Hi' as <-. split; [congruence|]. intros _.
        apply Hk. by rewrite Hfs.
    + destruct (Hsrc' q d0 Hin) as [Hqs _].
      assert (p ≠ q) as Hpq.
      { rewrite Forall_forall in Hcl. by destruct (Hcl _ Hin d0 eq_refl) as [Hpp _]. }
      eapply IH; [done..| |].
      * eapply mirrored_keeps; [exact Hm|done| |].
        -- intros Heq. by apply dest_inj in Heq.
        -- apply (Htmp p d); [by left|done].
      * intros p' d' Hp'. apply (Htmp p' d'). by right.
Qed.

(** In a run of [Sync] without faults that records no error
    (well-formed tree without symbolic links, target root present, roots
    apart), a regular file
    of the source whose destination is already there, and is not the
    temporary name of another entry of the source, is either rewritten or
    left alone: when [differ] reports a difference the destination holds
    the bytes of the source afterwards, and its modification time if
    [os.Chtimes] can represent it; when it does not, the destination is
    the very node it was, whatever its bytes. *)
Theorem existing_file_rewritten_or_kept opt w0 rep1 w1 q j i :
  wf (w_fs w0) → link_free (w_fs w0) →
  is_Some (w_fs w0 !! Target opt) → roots_apart opt →
  w_faults w0 = [] →
  Sync opt w0 = Some (rep1, w1) → Errors rep1 = [] →
  strictly_below (Source opt) q = true →
  w_fs w0 !! q = Some j → is_regular j = true →
  w_fs w0 !! dest opt q = Some i →
  (∀ p, is_Some (w_fs w0 !! p) → add_suffix p tmp_suffix ≠ q) →
  (differ (info_of j) (info_of i) = true → representable (i_mtime j) →
   ∃ m, IsDir m = false ∧
        w_fs w1 !! dest opt q = Some (mkInode m (i_mtime j) (i_data j))) ∧
  (differ (info_of j) (info_of i) = false → w_fs w1 !! dest opt q = Some i).
Proof.
  intros Hwf _ HT Hap Hf Hs Herr Hq Hj Hreg Hi Hstem.
  pose proof (strictly_below_prefix _ _ Hq) as Hpre.
  pose proof (strictly_below_ne _ _ Hq) as Hne.
  destruct (Sync_clean opt w0 Hap Hwf HT Hf _ _ Hs Herr)
    as (repA & wA & Hfwd & HstA & HwfA & HerrA & Hst1 & Hdel).
  destruct (forward_complete opt w0 Hwf _ _ _ q Hfwd Hpre) as [d Hin]; [by eexists|].
  destruct (fwd_existing opt w0 _ _ _ _ _ Hfwd (root_visits_clear _ _ _)
              (root_visits_of_source opt w0 _) q d j i Hin Hne Hj Hreg Hi) as [Hdiff Hsame].
  { intros p d' Hp Hpne Heq.
    apply root_visits_sound in Hp as [Hps [?|(_ & i' & Hi' & _)]]; [done|].
    apply (Hstem p); [by eexists|]. symmetry. by eapply dest_tmp. }
  assert (w_fs w1 !! dest opt q = w_fs wA !! dest opt q) as Hkeep.
  { destruct (DeleteMissing opt); [|by destruct Hdel as [_ ->]].
    apply (del_keeps opt Hap _ _ _ _ _ _ Hdel (root_visits_in_target opt _ _)).
    rewrite src_of_dest by done. rewrite (steady_source opt w0 Hap _ _ HstA Hpre).
    by eexists. }
  rewrite Hkeep. done.
Qed.

End Existing.

Module OverwriteExample.

(** The scene of [TestCopyNewAndOverwrite], before the second run: the
    target has an older [a.txt]. *)
Definition start : World :=
  Examples.world_of
    [([], Examples.dir_node); (["s"], Examples.dir_node); (["t"], Examples.dir_node);
     (["s"; "a.txt"], Examples.file_node 63835596805000000000 [Byte.x6e; Byte.x65; Byte.x77]);
     (["t"; "a.txt"], Examples.file_node 63835596801000000000 [Byte.x6f; Byte.x6c; Byte.x64])]%string.

Definition opts : Options := mkOptions ["s"] ["t"] false%string.

Definition run := @Sync Examples.limits opts start.

Lemma overwrite_roots : roots_apart opts.
Proof. split; intros [k Hk]; discriminate. Qed.

Lemma no_stem : ∀ p, is_Some (w_fs start !! p) → add_suffix p tmp_suffix ≠ ["s"; "a.txt"]%string.
Proof.
  intros p [x Hx] Heq. apply elem_of_map_to_list in Hx.
  vm_compute in Hx.
  repeat (apply elem_of_cons in Hx as [Hx|Hx];
          [injection Hx as -> ->; vm_compute in Heq; discriminate|]).
  by apply elem_of_nil in Hx.
Qed.

End OverwriteExample.

Lemma existing_file_rewritten_or_kept_witness :
  wf (w_fs OverwriteExample.start) ∧
  link_free (w_fs OverwriteExample.start) ∧
  is_Some (w_fs OverwriteExample.start !! Target OverwriteExample.opts) ∧
  roots_apart OverwriteExample.opts ∧
  w_faults OverwriteExample.start = [] ∧
  @Sync Examples.limits OverwriteExample.opts OverwriteExample.start =
    Some (final_report OverwriteExample.run,
          final_world OverwriteExample.start OverwriteExample.run) ∧
  Errors (final_report OverwriteExample.run) = [] ∧
  strictly_below (Source OverwriteExample.opts) ["s"; "a.txt"]%string = true ∧
  w_fs OverwriteExample.start !! ["s"; "a.txt"]%string =
    Some (Examples.file_node 63835596805000000000 [Byte.x6e; Byte.x65; Byte.x77]) ∧
  is_regular (Examples.file_node 63835596805000000000 [Byte.x6e; Byte.x65; Byte.x77]) = true ∧
  w_fs OverwriteExample.start !! dest OverwriteExample.opts ["s"; "a.txt"]%string =
    Some (Examples.file_node 63835596801000000000 [Byte.x6f; Byte.x6c; Byte.x64]) ∧
  (∀ p, is_Some (w_fs OverwriteExample.start !! p) →
        add_suffix p tmp_suffix ≠ ["s"; "a.txt"]%string) ∧
  differ (info_of (Examples.file_node 63835596805000000000 [Byte.x6e; Byte.x65; Byte.x77]))
         (info_of (Examples.file_node 63835596801000000000 [Byte.x6f; Byte.x6c; Byte.x64])) = true ∧
  representable
    (i_mtime (Examples.file_node 63835596805000000000 [Byte.x6e; Byte.x65; Byte.x77])) ∧
  ∃ m, IsDir m = false ∧
       w_fs (final_world OverwriteExample.start OverwriteExample.run)
         !! dest OverwriteExample.opts ["s"; "a.txt"]%string =
       Some (mkInode m 63835596805000000000 [Byte.x6e; Byte.x65; Byte.x77]).
Proof.
  assert (wf (w_fs OverwriteExample.start)) as H1 by (apply wfb_wf; vm_compute; reflexivity).
  assert (link_free (w_fs OverwriteExample.start)) as HL
    by (apply link_freeb_link_free; vm_compute; reflexivity).
  assert (is_Some (w_fs OverwriteExample.start !! Target OverwriteExample.opts)) as H2
    by (eexists; vm_compute; reflexivity).
  assert (w_faults OverwriteExample.start = []) as H4 by reflexivity.
  assert (@Sync Examples.limits OverwriteExample.opts OverwriteExample.start =
    Some (final_report OverwriteExample.run,
          final_world OverwriteExample.start OverwriteExample.run)) as H5
    by (vm_compute; reflexivity).
  assert (Errors (final_report OverwriteExample.run) = []) as H6
    by (vm_compute; reflexivity).
  assert (strictly_below (Source OverwriteExample.opts) ["s"; "a.txt"]%string = true)
    as H7 by (vm_compute; reflexivity).
  assert (w_fs OverwriteExample.start !! ["s"; "a.txt"]%string =
    Some (Examples.file_node 63835596805000000000 [Byte.x6e; Byte.x65; Byte.x77])) as H8
    by (vm_compute; reflexivity).
  assert (is_regular (Examples.file_node 63835596805000000000 [Byte.x6e; Byte.x65; Byte.x77]) = true)
    as H9 by (vm_compute; reflexivity).
  assert (w_fs OverwriteExample.start !! dest OverwriteExample.opts ["s"; "a.txt"]%string =
    Some (Examples.file_node 63835596801000000000 [Byte.x6f; Byte.x6c; Byte.x64])) as H10
    by (vm_compute; reflexivity).
  assert (differ (info_of (Examples.file_node 63835596805000000000 [Byte.x6e; Byte.x65; Byte.x77]))
         (info_of (Examples.file_node 63835596801000000000 [Byte.x6f; Byte.x6c; Byte.x64])) = true)
    as H11 by (vm_compute; reflexivity).
  assert (representable
    (i_mtime (Examples.file_node 63835596805000000000 [Byte.x6e; Byte.x65; Byte.x77])))
    as H12 by (vm_compute; split; [discriminate|reflexivity]).
  exact (conj H1 (conj HL (conj H2 (conj OverwriteExample.overwrite_roots (conj H4 (conj H5 (conj H6
    (conj H7 (conj H8 (conj H9 (conj H10 (conj OverwriteExample.no_stem (conj H11 (conj H12
      (proj1 (@existing_file_rewritten_or_kept Examples.limits _ _ _ _ _ _ _
         H1 HL H2 OverwriteExample.overwrite_roots H4 H5 H6 H7 H8 H9 H10
         OverwriteExample.no_stem) H11 H12))))))))))))))).
Defined.

(** ** [copyFile]: every failure spares the destination *)

Section CopyFails.
Context `{Limits}.
Local Open Scope io_scope.


End CopyFails.


Section CopySelf.
Context `{Limits}.
Local Open Scope io_scope.

(** [copyFile] opens the temporary file with [O_TRUNC] before it reads
    the source.  Asked, in a tree without symbolic links, to copy the file
    that has the temporary name of
    the destination itself, it therefore empties its own source: when the
    call returns no error, the destination is an empty file (under the
    modification time [os.Chtimes] makes of that of [srcInfo]) and the
    source path is gone. *)
Theorem copyFile_of_own_temporary_loses_content dst info w :
  link_free (w_fs w) →
  fst (copyFile (tmp_path dst) dst info w) = None →
  ∃ m, IsDir m = false ∧
    w_fs (snd (copyFile (tmp_path dst) dst info w)) !! dst =
      Some (mkInode m (set_mtime (ModTime info) (w_now w)) []) ∧
    w_fs (snd (copyFile (tmp_path dst) dst info w)) !! tmp_path dst = None.
Proof.
  intros _.
  destruct (copyFile (tmp_path dst) dst info w) as [r w'] eqn:E. cbn [fst snd]. intros ->.
  revert E. unfold copyFile. unfold bind at 1.
  pose proof (MkdirAll_quiet (Dir dst) 493 w) as (_ & Hn1 & _).
  destruct (MkdirAll (Dir dst) 493 w) as [[err|] w1]; cbn [snd] in Hn1; [done|].
  unfold bind at 1.
  pose proof (Open_ok (tmp_path dst) w1) as Hop. pose proof (Open_world (tmp_path dst) w1) as Hw2.
  destruct (Open (tmp_path dst) w1) as [[err|sf] w2]; cbn [fst snd] in *; [done|].
  destruct (Hop _ eq_refl) as [-> _]. clear Hop. subst w2.
  unfold bind at 1. unfold bind at 1.
  pose proof (OpenFile_ok (tmp_path dst) (Perm (Mode info))
                (set_faults (tail (w_faults w1)) w1)) as Hof.
  pose proof (OpenFile_handle (tmp_path dst) (Perm (Mode info))
                (set_faults (tail (w_faults w1)) w1)) as Hh.
  pose proof (OpenFile_quiet (tmp_path dst) (Perm (Mode info))
                (set_faults (tail (w_faults w1)) w1)) as (_ & Hn3 & _).
  destruct (OpenFile_create_trunc _ _ _) as [[err|df] w3]; cbn [fst snd] in *.
  { unfold ret at 1. unfold bind at 1. destruct (Close (tmp_path dst) w3). done. }
  destruct (Hof _ eq_refl) as (m & Hm & Hfs3). specialize (Hh _ eq_refl). subst df.
  clear Hof. cbn [set_faults w_fs w_now] in Hfs3, Hn3.
  assert (w_now w3 = w_now w) as Hnow by congruence.
  unfold bind at 1.
  pose proof (io_Copy_ok (tmp_path dst) (tmp_path dst) w3) as Hcp.
  destruct (io_Copy (tmp_path dst) (tmp_path dst) w3) as [[n cErr] w4]; cbn [fst snd] in *.
  unfold bind at 1.
  pose proof (Close_world (tmp_path dst) w4) as Hw5.
  destruct (Close (tmp_path dst) w4) as [cCloseErr w5]; cbn [fst snd] in *. subst w5.
  assert (∀ (r0 : error) w6,
    (let '(a, w7) := bind (Remove (tmp_path dst)) (λ _, ret (Some r0)) w6 in
     bind (Close (tmp_path dst)) (λ _, ret a) w7) = (None, w') → False) as Hcleanup.
  { intros r0 w6. unfold bind, ret. destruct (Remove _ w6). destruct (Close _ _). done. }
  destruct cErr as [cErr|]; [intros E; by apply Hcleanup in E|].
  destruct cCloseErr as [cCloseErr|]; [intros E; by apply Hcleanup in E|].
  destruct (Hcp _ eq_refl) as (s' & Hs' & Hds' & Hfs4). clear Hcp.
  rewrite Hfs3, lookup_insert_eq in Hs'. injection Hs' as <-.
  destruct Hfs4 as [(t & Ht & Hfs4)|[Ht _]];
    [|by rewrite Hfs3, lookup_insert_eq in Ht].
  rewrite Hfs3, lookup_insert_eq in Ht. injection Ht as <-. cbn [i_mode i_data] in Hfs4.
  unfold bind at 1. unfold Now at 1, gets at 1. unfold bind at 1.
  pose proof (Chtimes_ok (tmp_path dst) (w_now (set_faults (tail (w_faults w4)) w4))
                (ModTime info) (set_faults (tail (w_faults w4)) w4)) as Hch.
  destruct (Chtimes _ _ _ _) as [[err|] w6]; cbn [fst snd] in *;
    [intros E; by apply Hcleanup in E|].
  destruct (Hch eq_refl) as (t & Ht & Hfs6). clear Hch.
  cbn [set_faults w_fs] in Ht, Hfs6.
  rewrite Hfs4, lookup_insert_eq in Ht. injection Ht as <-. cbn [i_mode i_data] in Hfs6.
  unfold bind at 1.
  pose proof (Rename_ok (tmp_path dst) dst w6) as Hrn.
  destruct (Rename (tmp_path dst) dst w6) as [[err|] w7]; cbn [fst snd] in *;
    [intros E; by apply Hcleanup in E|].
  destruct (Hrn eq_refl) as (t & Ht & Hfs7). clear Hrn.
  rewrite Hfs6, lookup_insert_eq in Ht. injection Ht as <-.
  unfold ret at 1. unfold bind at 1.
  pose proof (Close_world (tmp_path dst) w7) as Hw8.
  destruct (Close (tmp_path dst) w7) as [cr w8]; cbn [snd] in Hw8. subst w8.
  unfold ret. intros [= <-]. cbn [set_faults w_fs].
  exists m. split_and!; [done| |].
  - by rewrite Hfs7, lookup_insert_eq, Hnow.
  - rewrite Hfs7, lookup_insert_ne by apply not_eq_sym, tmp_path_ne.
    by rewrite lookup_delete_eq.
Qed.

End CopySelf.

Module SelfExample.

(** A file that has the temporary name of the destination [d/a]. *)
Definition start : World :=
  Examples.world_of
    [([], Examples.dir_node); (["d"], Examples.dir_node);
     (["d"; "a.tmp~"],
      Examples.file_node 63835596805000000000 [Byte.x64; Byte.x61; Byte.x74; Byte.x61])]%string.

Definition dst : path := ["d"; "a"]%string.

End SelfExample.

Lemma copyFile_of_own_temporary_loses_content_witness :
  w_fs SelfExample.start !! tmp_path SelfExample.dst =
    Some (Examples.file_node 63835596805000000000 [Byte.x64; Byte.x61; Byte.x74; Byte.x61]) ∧
  link_free (w_fs SelfExample.start) ∧
  fst (@copyFile Examples.limits (tmp_path SelfExample.dst) SelfExample.dst
         Examples.src_info SelfExample.start) = None ∧
  ∃ m, IsDir m = false ∧
    w_fs (snd (@copyFile Examples.limits (tmp_path SelfExample.dst) SelfExample.dst
                 Examples.src_info SelfExample.start)) !! SelfExample.dst =
      Some (mkInode m (set_mtime (ModTime Examples.src_info) (w_now SelfExample.start)) []) ∧
    w_fs (snd (@copyFile Examples.limits (tmp_path SelfExample.dst) SelfExample.dst
                 Examples.src_info SelfExample.start)) !! tmp_path SelfExample.dst = None.
Proof.
  assert (w_fs SelfExample.start !! tmp_path SelfExample.dst =
    Some (Examples.file_node 63835596805000000000 [Byte.x64; Byte.x61; Byte.x74; Byte.x61])) as H0
    by (vm_compute; reflexivity).
  assert (fst (@copyFile Examples.limits (tmp_path SelfExample.dst) SelfExample.dst
         Examples.src_info SelfExample.start) = None) as H1 by (vm_compute; reflexivity).
  assert (link_free (w_fs SelfExample.start)) as HL
    by (apply link_freeb_link_free; vm_compute; reflexivity).
  exact (conj H0 (conj HL (conj H1
    (@copyFile_of_own_temporary_loses_content Examples.limits _ _ _ HL H1)))).
Defined.

(** ** The change detector and the report, taken by themselves *)

(** [truncateToSeconds] rounds down to a multiple of a second: it never
    moves a time forward, moves it back by less than a second, and does
    nothing to a time it has already rounded; this also holds for times
    before the epoch. *)
Theorem truncateToSeconds_rounds_down (t : Time) :
  truncateToSeconds t ≤ t < truncateToSeconds t + Second ∧
  truncateToSeconds t mod Second = 0 ∧
  truncateToSeconds (truncateToSeconds t) = truncateToSeconds t.
Proof.
  assert (∀ u, truncateToSeconds u = u - u mod 1000000000) as Htr.
  { intros u. unfold truncateToSeconds, Truncate, Second, Nanosecond.
    change (1000000000 * 1 <=? 0) with false. cbv iota. by rewrite Z.mul_1_r. }
  change Second with 1000000000.
  pose proof (Z.mod_pos_bound t 1000000000 ltac:(lia)) as Hb.
  assert ((t - t mod 1000000000) mod 1000000000 = 0) as Hz.
  { rewrite Zminus_mod, Z.mod_mod, Z.sub_diag by lia. done. }
  rewrite !Htr. split_and!; [lia|lia|done|]. rewrite Hz. lia.
Qed.

(** What [differ] takes for unchanged is an equivalence on file infos
    (reflexive, symmetric, transitive), and it never looks at the mode: a
    change of permissions alone is not a difference. *)
Theorem differ_equivalence_ignores_mode (a b c : FileInfo) (m : FileMode) :
  differ a a = false ∧
  differ a b = differ b a ∧
  (differ a b = false → differ b c = false → differ a c = false) ∧
  differ (mkFileInfo (Size a) (ModTime a) m) b = differ a b.
Proof.
  unfold differ, Equal. cbn [Size ModTime]. split_and!.
  - by rewrite !Z.eqb_refl.
  - rewrite (Z.eqb_sym (Size a)).
    by rewrite (Z.eqb_sym (truncateToSeconds (ModTime a))).
  - destruct (Size a =? Size b) eqn:E1; [|done]. cbn [negb].
    destruct (Size b =? Size c) eqn:E2; [|done]. cbn [negb].
    intros H1%negb_false_iff%Z.eqb_eq H2%negb_false_iff%Z.eqb_eq.
    apply Z.eqb_eq in E1, E2.
    replace (Size a =? Size c) with true by (symmetry; apply Z.eqb_eq; lia). cbn [negb].
    apply negb_false_iff, Z.eqb_eq. lia.
  - done.
Qed.

(** [addErr] over a sequence of errors, some of them [nil]: the report
    gains the errors that are not [nil], in the order they came, after
    the ones it had, and no counter moves. *)
Theorem addErr_sequence (errs : list (option error)) (r : Report) :
  Errors (foldl (λ r e, addErr e r) r errs) = Errors r ++ omap id errs ∧
  Copied (foldl (λ r e, addErr e r) r errs) = Copied r ∧
  Overwritten (foldl (λ r e, addErr e r) r errs) = Overwritten r ∧
  Deleted (foldl (λ r e, addErr e r) r errs) = Deleted r ∧
  Skipped (foldl (λ r e, addErr e r) r errs) = Skipped r.
Proof.
  revert r. induction errs as [|e errs IH]; intros r; cbn [foldl omap].
  { by rewrite app_nil_r. }
  destruct (IH (addErr e r)) as (He & Hc & Ho & Hd & Hs).
  rewrite He, Hc, Ho, Hd, Hs. destruct e as [e|]; cbn; [|done].
  by rewrite <- app_assoc.
Qed.

(** ** The report and the log agree *)

(** The number of lines of a log whose format starts with [pre]. *)
Definition count_lines (pre : string) (lines : list logline) : Z :=
  Z.of_nat (length (filter (λ l, String.prefix pre (l_format l) = true) lines)).

Lemma count_lines_app pre l1 l2 :
  count_lines pre (l1 ++ l2) = count_lines pre l1 + count_lines pre l2.
Proof. unfold count_lines. rewrite filter_app, length_app. lia. Qed.

Lemma count_lines_one pre fmt args :
  count_lines pre [mkLog fmt args] = if String.prefix pre fmt then 1 else 0.
Proof.
  unfold count_lines. destruct (String.prefix pre fmt) eqn:E.
  - by rewrite filter_cons_True.
  - rewrite filter_cons_False; [done|]. cbn [l_format]. congruence.
Qed.

(** The lines [lines] account for what changed from [rep] to [rep']. *)
Definition tallied (lines : list logline) (rep rep' : Report) : Prop :=
  Copied rep' = Copied rep + count_lines "COPY: " lines ∧
  Overwritten rep' = Overwritten rep + count_lines "OVERWRITE: " lines ∧
  Deleted rep' = Deleted rep + count_lines "DELETE: " lines ∧
  Skipped rep' = Skipped rep + count_lines "SKIP: " lines ∧
  Z.of_nat (length (Errors rep')) =
    Z.of_nat (length (Errors rep)) + count_lines "ERR: " lines.

Definition accounted (rw rw' : Report * World) : Prop :=
  ∃ lines, w_log rw'.2 = w_log rw.2 ++ lines ∧ tallied lines rw.1 rw'.1.

#[global] Instance accounted_preorder : PreOrder accounted.
Proof.
  split.
  - intros [rep w]. exists []. rewrite app_nil_r. split; [done|].
    unfold tallied, count_lines. cbn. split_and!; lia.
  - intros [r1 w1] [r2 w2] [r3 w3] (l1 & Hl1 & H1) (l2 & Hl2 & H2). cbn [fst snd] in *.
    exists (l1 ++ l2). cbn [fst snd]. split; [rewrite Hl2, Hl1; by rewrite app_assoc|].
    unfold tallied in *. rewrite !count_lines_app. split_and!; lia.
Qed.

Section Accounted.
Context `{Limits}.
Local Open Scope io_scope.

(** What a computation of a callback leaves, set against where it began. *)
Definition settles (rep : Report) (w : World)
    (r : option error * Report * World) : Prop :=
  accounted (rep, w) (snd (fst r), snd r).

Lemma settles_bind {A} (m : IO A) (k : A → IO (option error * Report)) rep w :
  quiet w (snd (m w)) →
  (∀ a w1, w_log w1 = w_log w → settles rep w1 (k a w1)) →
  settles rep w (bind m k w).
Proof.
  intros (Hlog & _) Hk. unfold bind. destruct (m w) as [a w1]. cbn [snd] in Hlog.
  destruct (Hk a w1 Hlog) as (lines & Hl & Ht). exists lines. split; [|done].
  cbn [fst snd] in *. congruence.
Qed.

Lemma settles_ret rep w : settles rep w (ret (None, rep) w).
Proof. unfold settles, ret. cbn [fst snd]. reflexivity. Qed.

Ltac settle_line :=
  unfold settles, bind, Printf, modify, ret; cbn [fst snd w_log];
  eexists [_]; split; [reflexivity|];
  unfold tallied; rewrite !count_lines_one; cbn;
  rewrite ?length_app; cbn; split_and!; lia.

Lemma mirror_settles opt p v rep w : settles rep w (mirror opt p v rep w).
Proof.
  unfold mirror. destruct v as [d|dd err]; [|settle_line].
  case_bool_decide; [apply settles_ret|]. cbv zeta. destruct (d_IsDir d).
  { apply settles_bind; [apply MkdirAll_quiet|]. intros [err|] w1 _;
      [settle_line|apply settles_ret]. }
  apply settles_bind.
  { unfold d_Info. destruct (de_info d); [reflexivity|apply stat_as_quiet]. }
  intros [err|info] w1 _; [settle_line|].
  destruct (negb (IsRegular (Mode info))); [settle_line|].
  apply settles_bind; [apply stat_as_quiet|]. intros [err|tst] w2 _.
  - destruct (Is_ErrNotExist err); [|settle_line].
    apply settles_bind; [apply copyFile_quiet|]. intros [cerr|] w3 _; settle_line.
  - destruct (differ info tst); [|settle_line].
    apply settles_bind; [apply copyFile_quiet|]. intros [cerr|] w3 _; settle_line.
Qed.

Lemma prune_settles opt p v rep w : settles rep w (prune opt p v rep w).
Proof.
  unfold prune. destruct v as [d|dd err]; [|settle_line].
  case_bool_decide; [apply settles_ret|]. cbv zeta.
  destruct (d_IsDir d); [apply settles_ret|].
  apply settles_bind; [apply stat_as_quiet|]. intros [err|st] w1 _; [|apply settles_ret].
  destruct (Is_ErrNotExist err); [|settle_line].
  apply settles_bind; [apply Remove_quiet|]. intros [rmErr|] w2 _; settle_line.
Qed.

Lemma WalkDir_accounted fuel root fn rep w e rep' w' :
  (∀ p v r w1, fst (fst (fn p v r w1)) = None ∧ settles r w1 (fn p v r w1)) →
  WalkDir fuel root fn rep w = Some (e, rep', w') → accounted (rep, w) (rep', w').
Proof.
  intros Hfn Hw.
  refine (proj2 (WalkDir_inv (λ r w1, accounted (rep, w) (r, w1)) fn _ _
                   fuel root rep w e rep' w' _ Hw)).
  - intros r w1 fl Ha. exact Ha.
  - intros p v r w1 Ha. destruct (Hfn p v r w1) as [He Hs]. split; [done|].
    etrans; [exact Ha|exact Hs].
  - reflexivity.
Qed.

(** Whatever happens in a run of [Sync], under whatever faults, its
    report and its log agree: the lines the run has logged hold as many
    COPY, OVERWRITE, DELETE and SKIP lines as the counters say, and one
    ERR line for every error recorded. *)
Theorem report_agrees_with_log opt w rep w' :
  Sync opt w = Some (rep, w') →
  ∃ lines, w_log w' = w_log w ++ lines ∧
    Copied rep = count_lines "COPY: " lines ∧
    Overwritten rep = count_lines "OVERWRITE: " lines ∧
    Deleted rep = count_lines "DELETE: " lines ∧
    Skipped rep = count_lines "SKIP: " lines ∧
    Z.of_nat (length (Errors rep)) = count_lines "ERR: " lines.
Proof.
  intros (rep1 & w1 & Hw1 & Hw2)%Sync_inv.
  assert (accounted (empty_report, w) (rep1, w1)) as Ha1.
  { eapply WalkDir_accounted; [|exact Hw1].
    intros. split; [apply mirror_no_error|apply mirror_settles]. }
  assert (accounted (empty_report, w) (rep, w')) as (lines & Hl & Ht).
  { destruct (DeleteMissing opt); [|by destruct Hw2 as [-> ->]].
    etrans; [exact Ha1|]. eapply WalkDir_accounted; [|exact Hw2].
    intros. split; [apply prune_no_error|apply prune_settles]. }
  exists lines. split; [done|]. unfold tallied in Ht. cbn in Ht. split_and!; lia.
Qed.

End Accounted.

Lemma report_agrees_with_log_witness :
  @Sync Examples.limits BlockedExample.opts BlockedExample.start =
    Some (final_report BlockedExample.run,
          final_world BlockedExample.start BlockedExample.run) ∧
  ∃ lines,
    w_log (final_world BlockedExample.start BlockedExample.run) =
      w_log BlockedExample.start ++ lines ∧
    Copied (final_report BlockedExample.run) = count_lines "COPY: " lines ∧
    Overwritten (final_report BlockedExample.run) = count_lines "OVERWRITE: " lines ∧
    Deleted (final_report BlockedExample.run) = count_lines "DELETE: " lines ∧
    Skipped (final_report BlockedExample.run) = count_lines "SKIP: " lines ∧
    Z.of_nat (length (Errors (final_report BlockedExample.run))) =
      count_lines "ERR: " lines.
Proof.
  assert (@Sync Examples.limits BlockedExample.opts BlockedExample.start =
    Some (final_report BlockedExample.run,
          final_world BlockedExample.start BlockedExample.run)) as H1
    by (vm_compute; reflexivity).
  exact (conj H1 (@report_agrees_with_log Examples.limits _ _ _ _ H1)).
Defined.

(** ** What a run never takes away *)

(** From [w] to [w'] the entry at [y], if there was one, is still there. *)
Definition keeps_entry (y : path) (w w' : World) : Prop :=
  is_Some (w_fs w !! y) → is_Some (w_fs w' !! y).

#[global] Instance keeps_entry_preorder y : PreOrder (keeps_entry y).
Proof.
  split.
  - intros w Hy. exact Hy.
  - intros w1 w2 w3 H12 H23 Hy. apply H23, H12, Hy.
Qed.

Lemma keeps_entry_same y w w' : w_fs w' !! y = w_fs w !! y → keeps_entry y w w'.
Proof. intros Heq Hy. by rewrite Heq. Qed.

Section Present.
Context `{Limits}.
Local Open Scope io_scope.

Lemma Rename_present old new w y :
  y ≠ old → keeps_entry y w (snd (Rename old new w)).
Proof.
  intros Ho. destruct (decide (y = new)) as [->|Hn].
  - unfold keeps_entry, Rename. kernel_cases; try done.
    all: intros _; by rewrite lookup_insert_eq.
  - apply keeps_entry_same. by apply Rename_frame.
Qed.

Lemma ret_present {A} (a : A) y w : keeps_entry y w (snd (ret a w)).
Proof. reflexivity. Qed.

Lemma Printf_present format args y w : keeps_entry y w (snd (Printf format args w)).
Proof. by apply keeps_entry_same. Qed.

Lemma log_present {A} format args (r : A) y w :
  keeps_entry y w (snd (bind (Printf format args) (λ _, ret r) w)).
Proof. by apply keeps_entry_same. Qed.

(** [copyFile] takes nothing away but the temporary file. *)
Lemma copyFile_present src dst info w y :
  y ≠ tmp_path dst → keeps_entry y w (snd (copyFile src dst info w)).
Proof.
  intros Hy. unfold copyFile.
  apply bind_rel; [apply _|intros [i Hi]; eexists; by apply MkdirAll_keeps|].
  intros [err|] w1 _; [apply ret_present|].
  apply bind_rel; [apply _|apply keeps_entry_same; by rewrite Open_world|].
  intros [err|sf] w2 _; [apply ret_present|].
  assert (∀ fl w0, keeps_entry y w0 (snd (Close fl w0))) as Hclose.
  { intros fl w0. apply keeps_entry_same. by rewrite Close_world. }
  apply bind_rel; [apply _| |].
  2:{ intros r w3 _. apply bind_rel; [apply _|apply Hclose|].
      intros ? ? _. apply ret_present. }
  apply bind_rel; [apply _|apply keeps_entry_same; by apply OpenFile_frame|].
  intros [err|df] w3 Hw3; [apply ret_present|].
  assert (df = tmp_path dst) as ->.
  { eapply OpenFile_handle. by rewrite Hw3. }
  apply bind_rel; [apply _|apply keeps_entry_same; by apply io_Copy_frame|].
  intros [n cErr] w4 _. cbn [snd].
  apply bind_rel; [apply _|apply Hclose|]. intros cCloseErr w5 _.
  assert (∀ (r : option error) w6,
    keeps_entry y w6 (snd (bind (Remove (tmp_path dst)) (λ _, ret r) w6))) as Hcleanup.
  { intros r w6. apply bind_rel; [apply _|apply keeps_entry_same; by apply Remove_frame|].
    intros ? ? _. apply ret_present. }
  destruct cErr; [apply Hcleanup|]. destruct cCloseErr; [apply Hcleanup|].
  apply bind_rel; [apply _|reflexivity|]. intros now w6 _.
  apply bind_rel; [apply _|apply keeps_entry_same; by apply Chtimes_frame|].
  intros [err|] w7 _; [apply Hcleanup|].
  apply bind_rel; [apply _|by apply Rename_present|].
  intros [err|] w8 _; [apply Hcleanup|apply ret_present].
Qed.

(** A visit of the forward pass takes nothing away but a temporary file. *)
Lemma mirror_present opt p v rep w y :
  (∀ x, y ≠ tmp_path x) → keeps_entry y w (snd (mirror opt p v rep w)).
Proof.
  intros Hy. unfold mirror. destruct v as [d|d err]; [|apply log_present].
  case_bool_decide as Hp; [apply ret_present|]. cbv zeta.
  assert (∀ op q w0, keeps_entry y w0 (snd (stat_as op q w0))) as Hstat.
  { intros. apply keeps_entry_same. by rewrite stat_as_fs. }
  destruct (d_IsDir d).
  - apply bind_rel; [apply _|intros [i Hi]; eexists; by apply MkdirAll_keeps|].
    intros [err|] w1 _; [apply log_present|apply ret_present].
  - apply bind_rel; [apply _| |].
    { unfold d_Info. destruct (de_info d); [apply ret_present|apply Hstat]. }
    intros [err|info] w1 _; [apply log_present|].
    destruct (negb (IsRegular (Mode info))); [apply log_present|].
    apply bind_rel; [apply _|apply Hstat|].
    intros [err|tst] w2 _.
    + destruct (Is_ErrNotExist err); [|apply log_present].
      apply bind_rel; [apply _|by apply copyFile_present|].
      intros [cerr|] w3 _; apply log_present.
    + destruct (differ info tst); [|apply log_present].
      apply bind_rel; [apply _|by apply copyFile_present|].
      intros [cerr|] w3 _; apply log_present.
Qed.

(** A visit of the delete pass, with no fault pending, takes nothing away
    that has its counterpart in the source. *)
Lemma prune_present opt q v rep w y :
  w_faults w = [] → is_Some (w_fs w !! src_of opt y) →
  keeps_entry y w (snd (prune opt q v rep w)).
Proof.
  intros Hf Hsrc. unfold prune. destruct v as [d|d err]; [|apply log_present].
  case_bool_decide as Hq; [apply ret_present|]. cbv zeta.
  destruct (d_IsDir d); [apply ret_present|].
  unfold Stat. unfold bind at 1. rewrite stat_as_no_fault by done.
  fold (src_of opt q).
  destruct (stat_pure "stat" (w_fs w) (src_of opt q)) as [err|st] eqn:Est;
    [|apply ret_present].
  destruct (Is_ErrNotExist err) eqn:Ene; [|apply log_present].
  apply stat_pure_inl_not_exist in Est as [Hnone _]; [|done].
  assert (y ≠ q) as Hne.
  { intros ->. rewrite Hnone in Hsrc. by destruct Hsrc. }
  apply bind_rel; [apply _|apply keeps_entry_same; by apply Remove_frame|].
  intros [rmErr|] w2 _; apply log_present.
Qed.

Lemma run_mirror_present opt l rep w y :
  (∀ x, y ≠ tmp_path x) →
  keeps_entry y w (snd (run_visits (mirror opt) l rep w)).
Proof.
  intros Hy. revert rep w. induction l as [|[p v] l IH]; intros rep w; cbn [run_visits].
  { reflexivity. }
  pose proof (mirror_present opt p v rep w y Hy) as Hm.
  destruct (mirror opt p v rep w) as [[e rep1] w1]. cbn [snd] in Hm.
  etrans; [exact Hm|apply IH].
Qed.

Lemma run_prune_present opt w0 l rep w y :
  roots_apart opt → in_target opt l → steady opt w0 w →
  is_Some (w_fs w0 !! src_of opt y) →
  keeps_entry y w (snd (run_visits (prune opt) l rep w)).
Proof.
  intros Hap Hl Hst Hsrc. revert rep w Hl Hst.
  induction l as [|[q v] l IH]; intros rep w Hl Hst; cbn [run_visits].
  { reflexivity. }
  assert (Target opt `prefix_of` q) as Hq by (apply (Hl q v); by left).
  pose proof (steady_prune opt w0 q v rep w Hq Hst) as Hst1.
  assert (keeps_entry y w (snd (prune opt q v rep w))) as Hp.
  { apply prune_present; [apply Hst|].
    rewrite (steady_source opt w0 Hap w _ Hst); [done|]. by apply prefix_app_r. }
  destruct (prune opt q v rep w) as [[e rep1] w1]. cbn [snd] in *.
  etrans; [exact Hp|]. apply IH; [by eapply in_target_cons|done].
Qed.

(** In a tree without symbolic links, a run of [Sync] with no injected
    fault never takes away an entry of the target that has its
    counterpart in the source, whatever errors the run records and with
    or without delete-missing, unless the entry bears the name of a
    temporary file. *)
Theorem sourced_entry_survives opt w0 rep w1 r :
  wf (w_fs w0) → link_free (w_fs w0) → roots_apart opt → w_faults w0 = [] →
  Sync opt w0 = Some (rep, w1) →
  is_Some (w_fs w0 !! (Target opt ++ r)) →
  is_Some (w_fs w0 !! (Source opt ++ r)) →
  (∀ x, Target opt ++ r ≠ tmp_path x) →
  is_Some (w_fs w1 !! (Target opt ++ r)).
Proof.
  intros Hwf _ Hap Hf (repA & wA & HwA & Hw1)%Sync_inv Hy Hsrc Htmp.
  assert (is_Some (w_fs w0 !! Target opt)) as HT.
  { eapply wf_prefix; [done|exact Hy|by apply prefix_app_r]. }
  destruct (forward_static opt w0 Hap Hwf HT _ _ _ _ _ Hf HwA) as (_ & HrunA & HstA).
  assert (is_Some (w_fs wA !! (Target opt ++ r))) as HyA.
  { pose proof (run_mirror_present opt
      (root_visits walk_fuel (w_fs w0) (Source opt)) empty_report w0 _ Htmp Hy) as Hk.
    by rewrite <- HrunA in Hk. }
  destruct (DeleteMissing opt); [|by destruct Hw1 as [_ ->]].
  destruct (delete_static opt w0 _ _ _ _ _ _ HstA Hw1) as (_ & Hrun1 & _).
  pose proof (run_prune_present opt w0
    (root_visits walk_fuel (w_fs wA) (Target opt)) repA wA (Target opt ++ r) Hap
    (root_visits_in_target opt _ _) HstA) as Hk.
  rewrite <- Hrun1 in Hk. apply Hk; [|done]. by rewrite src_of_app.
Qed.

End Present.

(** A name that does not end in the suffix of temporary files. *)
Lemma a_txt_not_temporary : ∀ x, ["t"; "a.txt"]%string ≠ tmp_path x.
Proof.
  intros x Heq. destruct x as [|n x _] using rev_ind; [discriminate|].
  unfold tmp_path in Heq. rewrite add_suffix_snoc in Heq.
  apply (f_equal last) in Heq. rewrite last_snoc in Heq. cbn in Heq. injection Heq as Heq.
  destruct n as [|c n]; [discriminate|].
  apply (f_equal String.length) in Heq. rewrite string_app_length in Heq.
  cbn in Heq. lia.
Qed.

Module SurviveExample.

(** A run with delete-missing that records an error: the file [b] of the
    source meets a directory [b] in the target, which the rename refuses.
    [a.txt] is on both sides, [old] in the target only. *)
Definition start : World :=
  Examples.world_of
    [([], Examples.dir_node); (["s"], Examples.dir_node); (["t"], Examples.dir_node);
     (["s"; "a.txt"], Examples.file_node 63835596805000000000 [Byte.x6e; Byte.x65; Byte.x77]);
     (["s"; "b"], Examples.file_node 63835596805000000000 [Byte.x62]);
     (["t"; "a.txt"], Examples.file_node 63835596801000000000 [Byte.x6f; Byte.x6c; Byte.x64]);
     (["t"; "b"], Examples.dir_node);
     (["t"; "old"], Examples.file_node 63835596801000000000 [Byte.x6f])]%string.

Definition opts : Options := mkOptions ["s"] ["t"] true%string.

Definition run := @Sync Examples.limits opts start.

Lemma survive_roots : roots_apart opts.
Proof. split; intros [k Hk]; discriminate. Qed.

End SurviveExample.

Lemma sourced_entry_survives_witness :
  wf (w_fs SurviveExample.start) ∧
  link_free (w_fs SurviveExample.start) ∧
  roots_apart SurviveExample.opts ∧
  w_faults SurviveExample.start = [] ∧
  @Sync Examples.limits SurviveExample.opts SurviveExample.start =
    Some (final_report SurviveExample.run,
          final_world SurviveExample.start SurviveExample.run) ∧
  Errors (final_report SurviveExample.run) ≠ [] ∧
  Deleted (final_report SurviveExample.run) = 1 ∧
  is_Some (w_fs SurviveExample.start !! (Target SurviveExample.opts ++ ["a.txt"]%string)) ∧
  is_Some (w_fs SurviveExample.start !! (Source SurviveExample.opts ++ ["a.txt"]%string)) ∧
  (∀ x, Target SurviveExample.opts ++ ["a.txt"]%string ≠ tmp_path x) ∧
  is_Some (w_fs (final_world SurviveExample.start SurviveExample.run)
             !! (Target SurviveExample.opts ++ ["a.txt"]%string)).
Proof.
  assert (wf (w_fs SurviveExample.start)) as H1 by (apply wfb_wf; vm_compute; reflexivity).
  assert (w_faults SurviveExample.start = []) as H3 by reflexivity.
  assert (@Sync Examples.limits SurviveExample.opts SurviveExample.start =
    Some (final_report SurviveExample.run,
          final_world SurviveExample.start SurviveExample.run)) as H4
    by (vm_compute; reflexivity).
  assert (Errors (final_report SurviveExample.run) ≠ []) as H5 by (vm_compute; discriminate).
  assert (Deleted (final_report SurviveExample.run) = 1) as H6 by (vm_compute; reflexivity).
  assert (is_Some (w_fs SurviveExample.start
                     !! (Target SurviveExample.opts ++ ["a.txt"]%string))) as H7
    by (eexists; vm_compute; reflexivity).
  assert (is_Some (w_fs SurviveExample.start
                     !! (Source SurviveExample.opts ++ ["a.txt"]%string))) as H8
    by (eexists; vm_compute; reflexivity).
  assert (link_free (w_fs SurviveExample.start)) as HL
    by (apply link_freeb_link_free; vm_compute; reflexivity).
  exact (conj H1 (conj HL (conj SurviveExample.survive_roots (conj H3 (conj H4 (conj H5
    (conj H6 (conj H7 (conj H8 (conj a_txt_not_temporary
      (@sourced_entry_survives Examples.limits _ _ _ _ _ H1 HL SurviveExample.survive_roots
         H3 H4 H7 H8 a_txt_not_temporary))))))))))).
Defined.

Section NoDeleteKeeps.
Context `{Limits}.

(** Without delete-missing a run of [Sync] takes no entry away, anywhere
    in the tree and whatever faults occur, unless the entry bears the name
    of a temporary file: what was at a path before the run may have been
    overwritten, but the path is still there. *)
Theorem no_delete_removes_temporaries_only opt w rep w' y :
  DeleteMissing opt = false →
  Sync opt w = Some (rep, w') →
  (∀ x, y ≠ tmp_path x) →
  is_Some (w_fs w !! y) →
  is_Some (w_fs w' !! y).
Proof.
  intros Hdel (rep1 & w1 & Hw1 & Hw2)%Sync_inv Htmp.
  rewrite Hdel in Hw2. destruct Hw2 as [-> ->].
  refine (proj2 (WalkDir_inv (λ _ w0, keeps_entry y w w0) (mirror opt) _ _
                   walk_fuel (Source opt) empty_report w None rep1 w1 _ Hw1)).
  - intros r w0 fl Hk. exact Hk.
  - intros p v r w0 Hk. split; [apply mirror_no_error|].
    etrans; [exact Hk|by apply mirror_present].
  - reflexivity.
Qed.

End NoDeleteKeeps.

Lemma no_delete_removes_temporaries_only_witness :
  DeleteMissing OverwriteExample.opts = false ∧
  @Sync Examples.limits OverwriteExample.opts OverwriteExample.start =
    Some (final_report OverwriteExample.run,
          final_world OverwriteExample.start OverwriteExample.run) ∧
  (∀ x, ["t"; "a.txt"]%string ≠ tmp_path x) ∧
  is_Some (w_fs OverwriteExample.start !! ["t"; "a.txt"]%string) ∧
  is_Some (w_fs (final_world OverwriteExample.start OverwriteExample.run)
             !! ["t"; "a.txt"]%string).
Proof.
  assert (@Sync Examples.limits OverwriteExample.opts OverwriteExample.start =
    Some (final_report OverwriteExample.run,
          final_world OverwriteExample.start OverwriteExample.run)) as H2
    by (vm_compute; reflexivity).
  assert (is_Some (w_fs OverwriteExample.start !! ["t"; "a.txt"]%string)) as H4
    by (eexists; vm_compute; reflexivity).
  exact (conj eq_refl (conj H2 (conj a_txt_not_temporary (conj H4
    (@no_delete_removes_temporaries_only Examples.limits OverwriteExample.opts _ _ _ _ eq_refl H2
       a_txt_not_temporary H4))))).
Defined.

(** ** Directories stay *)

(** From [w] to [w'] the directory at [y], if there was one, is still a
    directory. *)
Definition keeps_dir (y : path) (w w' : World) : Prop :=
  (∃ i, w_fs w !! y = Some i ∧ is_dir i = true) →
  ∃ i, w_fs w' !! y = Some i ∧ is_dir i = true.

#[global] Instance keeps_dir_preorder y : PreOrder (keeps_dir y).
Proof.
  split.
  - intros w Hy. exact Hy.
  - intros w1 w2 w3 H12 H23 Hy. apply H23, H12, Hy.
Qed.

Lemma keeps_dir_same y w w' : w_fs w' !! y = w_fs w !! y → keeps_dir y w w'.
Proof. intros Heq Hy. by rewrite Heq. Qed.

Section Directories.
Context `{Limits}.
Local Open Scope io_scope.

Lemma OpenFile_dir p perm w y : keeps_dir y w (snd (OpenFile_create_trunc p perm w)).
Proof.
  destruct (decide (y = p)) as [->|Hne]; [|apply keeps_dir_same; by apply OpenFile_frame].
  intros (i & Hi & Hd). unfold OpenFile_create_trunc. kernel_cases; eauto; congruence.
Qed.

Lemma Rename_dir old new w y : y ≠ old → keeps_dir y w (snd (Rename old new w)).
Proof.
  intros Ho. destruct (decide (y = new)) as [->|Hn];
    [|apply keeps_dir_same; by apply Rename_frame].
  intros (i & Hi & Hd). unfold Rename. kernel_cases; eauto; congruence.
Qed.

Lemma MkdirAll_dir p perm w y : keeps_dir y w (snd (MkdirAll p perm w)).
Proof. intros (i & Hi & Hd). exists i. split; [by apply MkdirAll_keeps|done]. Qed.

Lemma log_dir {A} format args (r : A) y w :
  keeps_dir y w (snd (bind (Printf format args) (λ _, ret r) w)).
Proof. by apply keeps_dir_same. Qed.

(** [copyFile] leaves every directory a directory: it opens its temporary
    file only where there is no directory, and the rename refuses one. *)
Lemma copyFile_dir src dst info w y : keeps_dir y w (snd (copyFile src dst info w)).
Proof.
  unfold copyFile.
  apply bind_rel; [apply _|apply MkdirAll_dir|].
  intros [err|] w1 _; [reflexivity|].
  apply bind_rel; [apply _|apply keeps_dir_same; by rewrite Open_world|].
  intros [err|sf] w2 _; [reflexivity|].
  assert (∀ fl w0, keeps_dir y w0 (snd (Close fl w0))) as Hclose.
  { intros fl w0. apply keeps_dir_same. by rewrite Close_world. }
  apply bind_rel; [apply _| |].
  2:{ intros r w3 _. apply bind_rel; [apply _|apply Hclose|]. intros ? ? _. reflexivity. }
  apply bind_rel; [apply _|apply OpenFile_dir|].
  intros [err|df] w3 Hw3; [reflexivity|].
  assert (df = tmp_path dst) as ->.
  { eapply OpenFile_handle. by rewrite Hw3. }
  destruct (decide (y = tmp_path dst)) as [->|Hy].
  { intros (i & Hi & Hd). exfalso.
    destruct (OpenFile_ok (tmp_path dst) (Perm (Mode info)) w2 (tmp_path dst))
      as (m & Hm & Hfs); [by rewrite Hw3|].
    rewrite Hw3 in Hfs. cbn [snd] in Hfs. rewrite Hfs, lookup_insert_eq in Hi.
    injection Hi as <-. unfold is_dir in Hd. cbn in Hd. congruence. }
  apply bind_rel; [apply _|apply keeps_dir_same; by apply io_Copy_frame|].
  intros [n cErr] w4 _. cbn [snd].
  apply bind_rel; [apply _|apply Hclose|]. intros cCloseErr w5 _.
  assert (∀ (r : option error) w6,
    keeps_dir y w6 (snd (bind (Remove (tmp_path dst)) (λ _, ret r) w6))) as Hcleanup.
  { intros r w6. apply bind_rel; [apply _|apply keeps_dir_same; by apply Remove_frame|].
    intros ? ? _. reflexivity. }
  destruct cErr; [apply Hcleanup|]. destruct cCloseErr; [apply Hcleanup|].
  apply bind_rel; [apply _|reflexivity|]. intros now w6 _.
  apply bind_rel; [apply _|apply keeps_dir_same; by apply Chtimes_frame|].
  intros [err|] w7 _; [apply Hcleanup|].
  apply bind_rel; [apply _|by apply Rename_dir|].
  intros [err|] w8 _; [apply Hcleanup|reflexivity].
Qed.

Lemma mirror_dir opt p v rep w y : keeps_dir y w (snd (mirror opt p v rep w)).
Proof.
  unfold mirror. destruct v as [d|d err]; [|apply log_dir].
  case_bool_decide as Hp; [reflexivity|]. cbv zeta.
  assert (∀ op q w0, keeps_dir y w0 (snd (stat_as op q w0))) as Hstat.
  { intros. apply keeps_dir_same. by rewrite stat_as_fs. }
  destruct (d_IsDir d).
  - apply bind_rel; [apply _|apply MkdirAll_dir|].
    intros [err|] w1 _; [apply log_dir|reflexivity].
  - apply bind_rel; [apply _| |].
    { unfold d_Info. destruct (de_info d); [reflexivity|apply Hstat]. }
    intros [err|info] w1 _; [apply log_dir|].
    destruct (negb (IsRegular (Mode info))); [apply log_dir|].
    apply bind_rel; [apply _|apply Hstat|].
    intros [err|tst] w2 _.
    + destruct (Is_ErrNotExist err); [|apply log_dir].
      apply bind_rel; [apply _|apply copyFile_dir|].
      intros [cerr|] w3 _; apply log_dir.
    + destruct (differ info tst); [|apply log_dir].
      apply bind_rel; [apply _|apply copyFile_dir|].
      intros [cerr|] w3 _; apply log_dir.
Qed.

Lemma run_mirror_dir opt l rep w y :
  keeps_dir y w (snd (run_visits (mirror opt) l rep w)).
Proof.
  revert rep w. induction l as [|[p v] l IH]; intros rep w; cbn [run_visits].
  { reflexivity. }
  pose proof (mirror_dir opt p v rep w y) as Hm.
  destruct (mirror opt p v rep w) as [[e rep1] w1]. cbn [snd] in Hm.
  etrans; [exact Hm|apply IH].
Qed.

Lemma prune_root opt v rep w :
  w_fs (snd (prune opt (Target opt) v rep w)) = w_fs w.
Proof.
  unfold prune. destruct v as [d|d err]; [|done].
  by rewrite bool_decide_eq_true_2.
Qed.

(** The delete pass over the calls of a walk of the tree [f] leaves
    whatever is a directory in [f]. *)
Lemma run_prune_dir (opt : Options) (f : FS) l rep w y i :
  (∀ q d, (q, Entry d) ∈ l →
     q = Target opt ∨ ∃ j, f !! q = Some j ∧ d = entry_of (de_name d) j) →
  f !! y = Some i → is_dir i = true →
  w_fs (snd (run_visits (prune opt) l rep w)) !! y = w_fs w !! y.
Proof.
  intros Hl Hy Hd. revert rep w Hl.
  induction l as [|[q v] l IH]; intros rep w Hl; cbn [run_visits]; [done|].
  assert (w_fs (snd (prune opt q v rep w)) !! y = w_fs w !! y) as Hp.
  { destruct (decide (q = Target opt)) as [->|Hq]; [by rewrite prune_root|].
    destruct (prune_fs opt q v rep w) as [->|(d & -> & Hdd & ->)]; [done|].
    apply lookup_delete_ne. intros ->.
    destruct (Hl y d) as [?|(j & Hj & Hdj)]; [by left|done|].
    rewrite Hdj, entry_of_IsDir in Hdd. congruence. }
  destruct (prune opt q v rep w) as [[e rep1] w1]. cbn [snd] in *.
  rewrite IH; [done|]. intros q' d' Hin. apply (Hl q' d'). by right.
Qed.

(** A run of [Sync] with no injected fault removes no directory and puts
    no file in the place of one, with or without delete-missing and
    whatever errors the run records: a directory of the target that the
    source does not have stays where it is. *)
Theorem directories_are_never_removed opt w0 rep w1 y i :
  wf (w_fs w0) → roots_apart opt → is_Some (w_fs w0 !! Target opt) →
  w_faults w0 = [] →
  Sync opt w0 = Some (rep, w1) →
  w_fs w0 !! y = Some i → is_dir i = true →
  ∃ i', w_fs w1 !! y = Some i' ∧ is_dir i' = true.
Proof.
  intros Hwf Hap HT Hf (repA & wA & HwA & Hw1)%Sync_inv Hy Hd.
  destruct (forward_static opt w0 Hap Hwf HT _ _ _ _ _ Hf HwA) as (_ & HrunA & HstA).
  assert (∃ iA, w_fs wA !! y = Some iA ∧ is_dir iA = true) as (iA & HyA & HdA).
  { pose proof (run_mirror_dir opt
      (root_visits walk_fuel (w_fs w0) (Source opt)) empty_report w0 y) as Hk.
    rewrite <- HrunA in Hk. apply Hk. by exists i. }
  destruct (DeleteMissing opt); [|destruct Hw1 as [_ ->]; by exists iA].
  destruct (delete_static opt w0 _ _ _ _ _ _ HstA Hw1) as (_ & Hrun1 & _).
  pose proof (run_prune_dir opt (w_fs wA)
    (root_visits walk_fuel (w_fs wA) (Target opt)) repA wA y iA) as Hk.
  rewrite <- Hrun1 in Hk. exists iA. split; [|done]. cbn [snd] in Hk.
  rewrite Hk; [done| |done..].
  intros q d Hin. apply root_visits_sound in Hin as [_ [?|[_ ?]]]; [by left|by right].
Qed.

End Directories.

Lemma directories_are_never_removed_witness :
  wf (w_fs SurviveExample.start) ∧
  roots_apart SurviveExample.opts ∧
  is_Some (w_fs SurviveExample.start !! Target SurviveExample.opts) ∧
  w_faults SurviveExample.start = [] ∧
  @Sync Examples.limits SurviveExample.opts SurviveExample.start =
    Some (final_report SurviveExample.run,
          final_world SurviveExample.start SurviveExample.run) ∧
  w_fs SurviveExample.start !! ["t"; "b"]%string = Some Examples.dir_node ∧
  is_dir Examples.dir_node = true ∧
  ∃ i', w_fs (final_world SurviveExample.start SurviveExample.run)
          !! ["t"; "b"]%string = Some i' ∧ is_dir i' = true.
Proof.
  assert (wf (w_fs SurviveExample.start)) as H1 by (apply wfb_wf; vm_compute; reflexivity).
  assert (is_Some (w_fs SurviveExample.start !! Target SurviveExample.opts)) as H2
    by (eexists; vm_compute; reflexivity).
  assert (w_faults SurviveExample.start = []) as H3 by reflexivity.
  assert (@Sync Examples.limits SurviveExample.opts SurviveExample.start =
    Some (final_report SurviveExample.run,
          final_world SurviveExample.start SurviveExample.run)) as H4
    by (vm_compute; reflexivity).
  assert (w_fs SurviveExample.start !! ["t"; "b"]%string = Some Examples.dir_node) as H5
    by (vm_compute; reflexivity).
  assert (is_dir Examples.dir_node = true) as H6 by (vm_compute; reflexivity).
  exact (conj H1 (conj SurviveExample.survive_roots (conj H2 (conj H3 (conj H4 (conj H5
    (conj H6 (@directories_are_never_removed Examples.limits SurviveExample.opts _ _ _ _ _
       H1 SurviveExample.survive_roots H2 H3 H4 H5 H6)))))))).
Defined.

(** ** No failure stops a run: it is recorded, and the walk goes on *)

Section Recording.
Context `{Limits}.
Local Open Scope io_scope.












End Recording.

Section NeverStops.
Context `{Limits}.


End NeverStops.

(** ** The system calls of a computation *)

(** From [w] to [w'] the trace has grown by calls of [K] only, whether
    they succeeded or not. *)
Definition adds (K : syscall → Prop) (w w' : World) : Prop :=
  ∃ evs, w_trace w' = w_trace w ++ evs ∧ ∀ ev, ev ∈ evs → K (ev_call ev).

#[global] Instance adds_preorder K : PreOrder (adds K).
Proof.
  split.
  - intros w. exists []. rewrite app_nil_r. split; [done|]. by intros ? ?%elem_of_nil.
  - intros w1 w2 w3 (e1 & H1 & K1) (e2 & H2 & K2). exists (e1 ++ e2).
    rewrite H2, H1, app_assoc. split; [done|]. intros ev [?|?]%elem_of_app; auto.
Qed.

Lemma adds_same K w w' : w_trace w' = w_trace w → adds K w w'.
Proof.
  intros Ht. exists []. rewrite app_nil_r. split; [done|]. by intros ? ?%elem_of_nil.
Qed.

Lemma adds_one K w w' c ok :
  w_trace w' = w_trace w ++ [mkEvent c ok] → K c → adds K w w'.
Proof.
  intros Ht Hc. exists [mkEvent c ok]. split; [done|].
  by intros ev ->%list_elem_of_singleton.
Qed.

Lemma adds_mono (K K' : syscall → Prop) w w' :
  (∀ c, K c → K' c) → adds K w w' → adds K' w w'.
Proof. intros HK (evs & Ht & He). exists evs. split; [done|]. auto. Qed.

(** What [copyFile] may ask of the file system for the destination
    [dst]: to make directories above it, to create, write, stamp and
    remove the temporary file [dst + ".tmp~"], and to rename that file to
    [dst]. *)
Definition copy_call (dst : path) (c : syscall) : Prop :=
  match c with
  | SysMkdir q => q `prefix_of` Dir dst
  | SysCreate q | SysWrite q | SysChtimes q | SysRemove q => q = tmp_path dst
  | SysRename old new => old = tmp_path dst ∧ new = dst
  end.

(** What the visit of an entry with the destination [dst] may ask: to
    make the directory [dst] and those above it, or what [copyFile] asks
    for [dst]. *)
Definition visit_call (dst : path) (c : syscall) : Prop :=
  match c with
  | SysMkdir q => q `prefix_of` dst
  | _ => copy_call dst c
  end.

(** What the forward pass may ask: what the visit of an entry at some
    relative path [r] below the source root asks for its destination. *)
Definition forward_call (opt : Options) (c : syscall) : Prop :=
  ∃ r, r ≠ [] ∧ visit_call (Target opt ++ r) c.

(** What the delete pass may ask: to remove an entry strictly below the
    target root. *)
Definition delete_call (opt : Options) (c : syscall) : Prop :=
  ∃ r, r ≠ [] ∧ c = SysRemove (Target opt ++ r).

Section Calls.
Context `{Limits}.
Local Open Scope io_scope.

Lemma set_faults_adds K w fl : adds K w (set_faults fl w).
Proof. by apply adds_same. Qed.

Lemma stat_as_adds K op p w : adds K w (snd (stat_as op p w)).
Proof. rewrite stat_as_world. apply set_faults_adds. Qed.

Lemma Open_adds K p w : adds K w (snd (Open p w)).
Proof. rewrite Open_world. apply set_faults_adds. Qed.

Lemma Close_adds K fl w : adds K w (snd (Close fl w)).
Proof. rewrite Close_world. apply set_faults_adds. Qed.

Lemma log_adds {A} K format args (r : A) w :
  adds K w (snd (bind (Printf format args) (λ _, ret r) w)).
Proof. by apply adds_same. Qed.

Lemma Mkdir_adds (K : syscall → Prop) p perm w :
  K (SysMkdir p) → adds K w (snd (Mkdir p perm w)).
Proof. intros HK. unfold Mkdir. kernel_cases; by eapply adds_one. Qed.

Lemma OpenFile_adds (K : syscall → Prop) p perm w :
  K (SysCreate p) → adds K w (snd (OpenFile_create_trunc p perm w)).
Proof. intros HK. unfold OpenFile_create_trunc. kernel_cases; by eapply adds_one. Qed.

Lemma io_Copy_adds (K : syscall → Prop) df sf w :
  K (SysWrite df) → adds K w (snd (io_Copy df sf w)).
Proof. intros HK. unfold io_Copy, write_data. kernel_cases; by eapply adds_one. Qed.

Lemma Chtimes_adds (K : syscall → Prop) p a m w :
  K (SysChtimes p) → adds K w (snd (Chtimes p a m w)).
Proof. intros HK. unfold Chtimes. kernel_cases; by eapply adds_one. Qed.

Lemma Rename_adds (K : syscall → Prop) old new w :
  K (SysRename old new) → adds K w (snd (Rename old new w)).
Proof. intros HK. unfold Rename. kernel_cases; by eapply adds_one. Qed.

Lemma Remove_adds (K : syscall → Prop) p w :
  K (SysRemove p) → adds K w (snd (Remove p w)).
Proof. intros HK. unfold Remove. kernel_cases; by eapply adds_one. Qed.

Lemma MkdirAll_adds (K : syscall → Prop) p perm w :
  (∀ q, q `prefix_of` p → K (SysMkdir q)) → adds K w (snd (MkdirAll p perm w)).
Proof.
  intros HK. apply (MkdirAll_rec_reach (adds K w)); [reflexivity|..].
  - intros w0 Hw0. etrans; [exact Hw0|apply set_faults_adds].
  - intros q w0 Hq Hw0. etrans; [exact Hw0|]. by apply Mkdir_adds, HK.
Qed.

(** The calls of [copyFile]. *)
Lemma copyFile_adds src dst info w :
  adds (copy_call dst) w (snd (copyFile src dst info w)).
Proof.
  unfold copyFile.
  apply bind_rel; [apply _|by apply MkdirAll_adds|].
  intros [err|] w1 _; [reflexivity|].
  apply bind_rel; [apply _|apply Open_adds|]. intros [err|sf] w2 _; [reflexivity|].
  apply bind_rel; [apply _| |].
  2:{ intros r w3 _. apply bind_rel; [apply _|apply Close_adds|]. intros ? ? _. reflexivity. }
  apply bind_rel; [apply _|by apply OpenFile_adds|].
  intros [err|df] w3 Hw3; [reflexivity|].
  assert (df = tmp_path dst) as ->.
  { eapply OpenFile_handle. by rewrite Hw3. }
  apply bind_rel; [apply _|by apply io_Copy_adds|]. intros [n cErr] w4 _. cbn [snd].
  apply bind_rel; [apply _|apply Close_adds|]. intros cCloseErr w5 _.
  assert (∀ (r : option error) w6,
    adds (copy_call dst) w6 (snd (bind (Remove (tmp_path dst)) (λ _, ret r) w6)))
    as Hcleanup.
  { intros r w6. apply bind_rel; [apply _|by apply Remove_adds|]. intros ? ? _. reflexivity. }
  destruct cErr; [apply Hcleanup|]. destruct cCloseErr; [apply Hcleanup|].
  apply bind_rel; [apply _|reflexivity|]. intros now w6 _.
  apply bind_rel; [apply _|by apply Chtimes_adds|]. intros [err|] w7 _; [apply Hcleanup|].
  apply bind_rel; [apply _|by apply Rename_adds|]. intros [err|] w8 _; [apply Hcleanup|].
  reflexivity.
Qed.

Lemma copy_visit_call dst c : copy_call dst c → visit_call dst c.
Proof.
  destruct c; cbn; try done. intros Hq. etrans; [exact Hq|apply Dir_prefix].
Qed.

(** The calls of a visit of the forward pass at a path below the source
    root. *)
Lemma mirror_adds opt r v rep w :
  adds (forward_call opt) w (snd (mirror opt (Source opt ++ r) v rep w)).
Proof.
  unfold mirror. destruct v as [d|d err]; [|apply log_adds].
  case_bool_decide as Hp; [reflexivity|]. cbv zeta.
  assert (r ≠ []) as Hr by (intros ->; by rewrite app_nil_r in Hp).
  rewrite Rel_app. unfold Join.
  assert (∀ c, visit_call (Target opt ++ r) c → forward_call opt c) as Hfc
    by (intros c Hc; by exists r).
  assert (∀ info w0, adds (forward_call opt) w0
            (snd (copyFile (Source opt ++ r) (Target opt ++ r) info w0))) as Hcopy.
  { intros info w0. eapply adds_mono; [|apply copyFile_adds].
    intros c Hc. by apply Hfc, copy_visit_call. }
  destruct (d_IsDir d).
  - apply bind_rel; [apply _| |].
    { apply MkdirAll_adds. intros q Hq. by apply Hfc. }
    intros [err|] w1 _; [apply log_adds|reflexivity].
  - apply bind_rel; [apply _| |].
    { unfold d_Info. destruct (de_info d); [reflexivity|apply stat_as_adds]. }
    intros [err|info] w1 _; [apply log_adds|].
    destruct (negb (IsRegular (Mode info))); [apply log_adds|].
    apply bind_rel; [apply _|apply stat_as_adds|].
    intros [err|tst] w2 _.
    + destruct (Is_ErrNotExist err); [|apply log_adds].
      apply bind_rel; [apply _|apply Hcopy|].
      intros [cerr|] w3 _; apply log_adds.
    + destruct (differ info tst); [|apply log_adds].
      apply bind_rel; [apply _|apply Hcopy|].
      intros [cerr|] w3 _; apply log_adds.
Qed.

(** The calls of a visit of the delete pass at a path below the target
    root. *)
Lemma prune_adds opt r v rep w :
  adds (delete_call opt) w (snd (prune opt (Target opt ++ r) v rep w)).
Proof.
  unfold prune. destruct v as [d|d err]; [|apply log_adds].
  case_bool_decide as Hp; [reflexivity|]. cbv zeta.
  assert (r ≠ []) as Hr by (intros ->; by rewrite app_nil_r in Hp).
  destruct (d_IsDir d); [reflexivity|].
  apply bind_rel; [apply _|apply stat_as_adds|].
  intros [err|st] w1 _; [|reflexivity].
  destruct (Is_ErrNotExist err); [|apply log_adds].
  apply bind_rel; [apply _| |].
  { apply Remove_adds. by exists r. }
  intros [rmErr|] w2 _; apply log_adds.
Qed.

(** The calls of a whole walk, of either pass. *)
Lemma WalkDir_adds K fn fuel root rep w e rep' w' :
  (∀ p v r w0, fst (fst (fn p v r w0)) = None) →
  (∀ r d rep0 w0, adds K w0 (snd (fn (root ++ r) (Entry d) rep0 w0))) →
  (∀ p dd e0 rep0 w0, adds K w0 (snd (fn p (Failed dd e0) rep0 w0))) →
  WalkDir fuel root fn rep w = Some (e, rep', w') → adds K w w'.
Proof.
  intros Hno Hfn Hfail Hw.
  refine (proj2 (WalkDir_visit_inv (λ _ w0, adds K w w0) (λ p _, root `prefix_of` p) fn
                   _ _ _ _ fuel root rep w e rep' w' _ _ Hw)).
  - intros r0 w0 fl Ha. etrans; [exact Ha|apply set_faults_adds].
  - intros p d r0 w0 Ha [k ->]. split; [apply Hno|]. etrans; [exact Ha|apply Hfn].
  - intros p d e0 r0 w0 Ha. split; [apply Hno|]. etrans; [exact Ha|apply Hfail].
  - intros p d r0 w0 d1 _ Hp _ _. unfold Join. by apply prefix_app_r.
  - done.
  - reflexivity.
Qed.

Lemma forward_adds opt fuel rep w e rep' w' :
  WalkDir fuel (Source opt) (mirror opt) rep w = Some (e, rep', w') →
  adds (forward_call opt) w w'.
Proof.
  apply WalkDir_adds; [apply mirror_no_error|intros; apply mirror_adds|].
  intros. apply log_adds.
Qed.

Lemma delete_adds opt fuel rep w e rep' w' :
  WalkDir fuel (Target opt) (prune opt) rep w = Some (e, rep', w') →
  adds (delete_call opt) w w'.
Proof.
  apply WalkDir_adds; [apply prune_no_error|intros; apply prune_adds|].
  intros. apply log_adds.
Qed.

End Calls.

(** ** The temporary file of the writer, in a copy and in a run *)

Section Temporary.
Context `{Limits}.
Local Open Scope io_scope.

Lemma OpenFile_created p perm w :
  ∀ df, fst (OpenFile_create_trunc p perm w) = inr df →
  w_trace (snd (OpenFile_create_trunc p perm w)) = w_trace w ++ [mkEvent (SysCreate p) true].
Proof. intros df. unfold OpenFile_create_trunc. kernel_cases; done. Qed.

Lemma Rename_renamed old new w :
  fst (Rename old new w) = None →
  w_trace (snd (Rename old new w)) = w_trace w ++ [mkEvent (SysRename old new) true].
Proof. unfold Rename. kernel_cases; done. Qed.

(** A copy that succeeds has created its temporary file and ends with
    the rename of it onto the destination. *)
Lemma copyFile_calls_ok src dst info w :
  fst (copyFile src dst info w) = None →
  ∃ pre mid,
    w_trace (snd (copyFile src dst info w)) =
      w_trace w ++ pre ++ [mkEvent (SysCreate (tmp_path dst)) true] ++ mid ++
      [mkEvent (SysRename (tmp_path dst) dst) true].
Proof.
  destruct (copyFile src dst info w) as [r w'] eqn:E. cbn [fst snd]. intros ->.
  revert E. unfold copyFile. unfold bind at 1.
  pose proof (MkdirAll_adds (λ _, True) (Dir dst) 493 w (λ _ _, I)) as (pre & Hpre & _).
  destruct (MkdirAll (Dir dst) 493 w) as [[err|] w1]; cbn [fst snd] in *; [done|].
  unfold bind at 1.
  pose proof (Open_adds (λ _, True) src w1) as (e2 & He2 & _).
  destruct (Open src w1) as [[err|sf] w2]; cbn [fst snd] in *; [done|].
  unfold bind at 1. unfold bind at 1.
  pose proof (OpenFile_created (tmp_path dst) (Perm (Mode info)) w2) as Hc.
  pose proof (OpenFile_handle (tmp_path dst) (Perm (Mode info)) w2) as Hh.
  destruct (OpenFile_create_trunc _ _ w2) as [[err|df] w3]; cbn [fst snd] in *.
  { unfold ret at 1. unfold bind at 1. by destruct (Close sf w3). }
  specialize (Hc _ eq_refl). specialize (Hh _ eq_refl). subst df.
  unfold bind at 1.
  pose proof (io_Copy_adds (λ _, True) (tmp_path dst) sf w3 I) as (e4 & He4 & _).
  destruct (io_Copy (tmp_path dst) sf w3) as [[n cErr] w4]; cbn [fst snd] in *.
  unfold bind at 1.
  pose proof (Close_adds (λ _, True) (tmp_path dst) w4) as (e5 & He5 & _).
  destruct (Close (tmp_path dst) w4) as [cCloseErr w5]; cbn [fst snd] in *.
  assert (∀ (r0 : error) w6 (P : Prop),
    (let '(a, w7) := bind (Remove (tmp_path dst)) (λ _, ret (Some r0)) w6 in
     bind (Close sf) (λ _, ret a) w7) = (None, w') → P) as Hbad.
  { intros r0 w6 P. unfold bind, ret. destruct (Remove _ w6). by destruct (Close sf _). }
  destruct cErr; [apply Hbad|]. destruct cCloseErr; [apply Hbad|].
  unfold bind at 1. unfold Now at 1. unfold gets at 1. unfold bind at 1.
  pose proof (Chtimes_adds (λ _, True) (tmp_path dst) (w_now w5) (ModTime info) w5 I)
    as (e6 & He6 & _).
  destruct (Chtimes _ _ _ w5) as [[err|] w6]; cbn [fst snd] in *; [apply Hbad|].
  unfold bind at 1.
  pose proof (Rename_renamed (tmp_path dst) dst w6) as Hr.
  destruct (Rename _ _ w6) as [[err|] w7]; cbn [fst snd] in *; [apply Hbad|].
  specialize (Hr eq_refl). unfold ret at 1. unfold bind at 1.
  pose proof (Close_world sf w7) as He8.
  destruct (Close sf w7) as [c8 w8]; cbn [fst snd] in *. intros [= <-].
  subst w8. cbn [set_faults w_trace].
  exists (pre ++ e2), (e4 ++ e5 ++ e6).
  rewrite Hr, He6, He5, He4, Hc, He2, Hpre. by rewrite <- !app_assoc.
Qed.

Lemma Sync_adds opt w rep w' :
  Sync opt w = Some (rep, w') →
  adds (λ c, forward_call opt c ∨ delete_call opt c) w w'.
Proof.
  intros (rep1 & w1 & Hw1 & Hw2)%Sync_inv.
  assert (adds (λ c, forward_call opt c ∨ delete_call opt c) w w1) as H1.
  { eapply adds_mono; [|by eapply forward_adds]. by left. }
  destruct (DeleteMissing opt).
  - etrans; [exact H1|]. eapply adds_mono; [|by eapply delete_adds]. by right.
  - by destruct Hw2 as [_ ->].
Qed.

(** C8, as amended.  Every system call of a copy to [dst] that creates,
    writes, stamps or removes a file names [dst] plus [".tmp~"], and its
    one rename goes from there to [dst]; a copy that succeeds has created
    that file and ends with that rename.  The temporary path is the
    sibling of [dst] (same directory) whose name is the name of [dst]
    followed by [".tmp~"], never [dst] itself.  In a run of [Sync] every
    such call is of a copy to a destination strictly below the target
    root, or the removal of a path strictly below the target root by the
    delete pass; and the temporary path of one destination below a root
    is another path below that root exactly when that one is the sibling
    of that very name. *)
Theorem tmp_path_sibling src dst info w :
  dst ≠ [] →
  adds (copy_call dst) w (snd (copyFile src dst info w)) ∧
  (fst (copyFile src dst info w) = None →
   ∃ pre mid,
     w_trace (snd (copyFile src dst info w)) =
       w_trace w ++ pre ++ [mkEvent (SysCreate (tmp_path dst)) true] ++ mid ++
       [mkEvent (SysRename (tmp_path dst) dst) true]) ∧
  Dir (tmp_path dst) = Dir dst ∧
  tmp_path dst ≠ dst ∧
  (∃ name, last dst = Some name ∧
           tmp_path dst = Dir dst ++ [(name +:+ tmp_suffix)%string]) ∧
  (∀ opt rep w', Sync opt w = Some (rep, w') →
     adds (λ c, forward_call opt c ∨ delete_call opt c) w w') ∧
  (∀ root r r' : path, r ≠ [] →
     tmp_path (root ++ r) = root ++ r' ↔ r' = tmp_path r).
Proof.
  intros Hne. destruct (tmp_path_shape dst Hne) as [HD Hn].
  split_and!.
  - apply copyFile_adds.
  - apply copyFile_calls_ok.
  - exact HD.
  - apply tmp_path_ne.
  - exact Hn.
  - intros opt rep w'. apply Sync_adds.
  - intros root r r' Hr. unfold tmp_path. rewrite add_suffix_app by done.
    split; [by intros ?%app_inv_head|by intros ->].
Qed.

End Temporary.

Lemma tmp_path_sibling_witness :
  ["t"; "a"]%string ≠ [] ∧
  (adds (copy_call ["t"; "a"]%string) CollisionExample.start
     (snd (@copyFile Examples.limits ["s"; "a"]%string ["t"; "a"]%string
             Examples.src_info CollisionExample.start)) ∧
   (fst (@copyFile Examples.limits ["s"; "a"]%string ["t"; "a"]%string
           Examples.src_info CollisionExample.start) = None →
    ∃ pre mid,
      w_trace (snd (@copyFile Examples.limits ["s"; "a"]%string ["t"; "a"]%string
                      Examples.src_info CollisionExample.start)) =
        w_trace CollisionExample.start ++ pre ++
        [mkEvent (SysCreate (tmp_path ["t"; "a"]%string)) true] ++ mid ++
        [mkEvent (SysRename (tmp_path ["t"; "a"]%string) ["t"; "a"]%string) true]) ∧
   Dir (tmp_path ["t"; "a"]%string) = Dir ["t"; "a"]%string ∧
   tmp_path ["t"; "a"]%string ≠ ["t"; "a"]%string ∧
   (∃ name, last ["t"; "a"]%string = Some name ∧
            tmp_path ["t"; "a"]%string =
              Dir ["t"; "a"]%string ++ [(name +:+ tmp_suffix)%string]) ∧
   (∀ opt rep w', @Sync Examples.limits opt CollisionExample.start = Some (rep, w') →
      adds (λ c, forward_call opt c ∨ delete_call opt c) CollisionExample.start w') ∧
   (∀ root r r' : path, r ≠ [] →
      tmp_path (root ++ r) = root ++ r' ↔ r' = tmp_path r)).
Proof.
  assert (["t"; "a"]%string ≠ []) as Hne by discriminate.
  exact (conj Hne (@tmp_path_sibling Examples.limits ["s"; "a"]%string ["t"; "a"]%string
                     Examples.src_info CollisionExample.start Hne)).
Defined.

(** ** Runs without delete-missing *)


Section NoDeleteRuns.
Context `{Limits}.







End NoDeleteRuns.






(** ** A modification time that [os.Chtimes] cannot represent *)

Module FutureExample.

(** The source holds one file, last modified in the year 2300; the target
    is empty. *)
Definition start : World :=
  Examples.world_of
    [([], Examples.dir_node); (["s"], Examples.dir_node); (["t"], Examples.dir_node);
     (["s"; "a"], Examples.file_node 72549388805000000000 [Byte.x61])]%string.

Definition opts : Options := mkOptions ["s"] ["t"] false%string.

Definition first_run := @Sync Examples.limits opts start.

Definition second_run := and_then first_run (@Sync Examples.limits opts).


End FutureExample.

